(** * Spotify catalogue import: a shallow embedding of the two seeder scripts

    The development models [spotify-seeder.js] (class [SpotifySeeder], functions
    [ensureContainerExists] and [main]) and [album-cover-seeder.js] (class
    [AlbumCoverSeeder]).  Asynchronous JavaScript is sequential here: every
    [await] is a bind of a state-and-exception monad over a [World] holding
    the relational store, the blob container, the clock, the seeder's own
    fields, the console and the list of outward effects.  What the outside
    answers (HTTP responses, store failures) is read from an [Env].

    Console lines that only report progress are not modelled; every
    [console.error] is, and so are the [console.log] lines of the cover path.
    A property of an API object that ends up in an update block is a
    [Read]: the store client treats a field that is undefined (the object
    lacks the property) differently from one that is null.  Where the code
    treats the two alike ([x || null], [!x], a create block) the property
    is an [option]. *)

From stdpp Require Import base numbers strings list gmap.

(** ** Values coming from the catalogue API *)

(** What reading a property of an API object gives. *)
Inductive Read (A : Type) : Type :=
| Undefined                           (* the object lacks the property *)
| Null
| Value (a : A).

Arguments Undefined {A}.
Arguments Null {A}.
Arguments Value {A} a.

Record ArtistData := {
  ad_id : string;
  ad_name : string;
  ad_spotify_url : Read string;       (* external_urls?.spotify *)
  ad_popularity : Read Z
}.

Record ImageRef := {
  img_url : string;
  img_height : option Z;
  img_width : option Z
}.

Record AlbumData := {
  al_id : string;
  al_name : string;
  al_album_type : string;
  al_total_tracks : Z;
  al_release_date : string;
  al_release_date_precision : string;
  al_spotify_url : Read string;
  al_images : option (list ImageRef)  (* None: absent or null *)
}.

Record TrackData := {
  td_id : string;
  td_name : string;
  td_artists : list ArtistData;
  td_album : AlbumData;
  td_track_number : Z;
  td_disc_number : Z;
  td_duration_ms : Z;
  td_popularity : Read Z;
  td_preview_url : Read string;
  td_spotify_url : Read string;
  td_isrc : Read string;              (* external_ids?.isrc *)
  td_explicit : bool;
  td_available_markets : option (list string)
}.

Record AddedBy := {
  ab_id : option string;
  ab_display_name : option string
}.

Record TrackItem := {
  ti_track : option TrackData;        (* null when the track is gone *)
  ti_added_at : string;
  ti_added_by : option AddedBy
}.

Record PlaylistData := {
  pd_id : string;
  pd_name : string;
  pd_description : Read string;
  pd_owner_id : string;
  pd_owner_name : Read string;
  pd_owner_url : Read string;
  pd_public : Read bool;
  pd_collaborative : bool;
  pd_spotify_url : Read string;
  pd_tracks_total : Z;
  pd_tracks_items : list TrackItem
}.

Record TokenResponse := {
  access_token : string;
  expires_in : Z                      (* seconds *)
}.

Record ImageResponse := {
  ir_content_type : string;
  ir_length : Z
}.

(** ** Rows of the relational store (prisma/migrations) *)

Record Artist := {
  a_id : nat;
  a_spotify_id : string;
  a_name : string;
  a_spotify_url : option string;
  a_popularity : option Z;
  a_created_at : Z;
  a_updated_at : Z
}.

Record Album := {
  b_id : nat;
  b_spotify_id : string;
  b_name : string;
  b_album_type : string;
  b_total_tracks : Z;
  b_release_date : string;
  b_release_date_precision : string;
  b_spotify_url : option string;
  b_created_at : Z;
  b_updated_at : Z
}.

Record Track := {
  t_id : nat;
  t_spotify_id : string;
  t_name : string;
  t_album_id : nat;
  t_track_number : Z;
  t_disc_number : Z;
  t_duration_ms : Z;
  t_popularity : option Z;
  t_preview_url : option string;
  t_spotify_url : option string;
  t_isrc : option string;
  t_explicit : bool;
  t_available_markets : option string;
  t_created_at : Z;
  t_updated_at : Z
}.

Record AlbumArtist := { aa_album_id : nat; aa_artist_id : nat }.
Record TrackArtist := { ta_track_id : nat; ta_artist_id : nat }.

Record Playlist := {
  p_id : nat;
  p_spotify_id : string;
  p_name : string;
  p_description : option string;
  p_owner_id : string;
  p_owner_name : option string;
  p_owner_url : option string;
  p_public : option bool;
  p_collaborative : bool;
  p_total_tracks : Z;
  p_spotify_url : option string;
  p_created_at : Z;
  p_updated_at : Z
}.

Record PlaylistTrack := {
  pt_playlist_id : nat;
  pt_track_id : nat;
  pt_position : nat;
  pt_added_at : string;
  pt_added_by_id : option string;
  pt_added_by_name : option string
}.

Record Media := {
  m_id : nat;
  m_album_id : nat;
  m_type : string;
  m_filename : nat * string;          (* uuid and extension *)
  m_blob_url : nat * string;
  m_spotify_url : string;
  m_height : option Z;
  m_width : option Z;
  m_file_size : Z;
  m_mime_type : string
}.

Record Db := {
  artists : list Artist;
  albums : list Album;
  tracks : list Track;
  album_artists : list AlbumArtist;
  track_artists : list TrackArtist;
  playlists : list Playlist;
  playlist_tracks : list PlaylistTrack;
  media : list Media
}.

(** ** Effects, console and world *)

(** Outward effects, in the order they happen. *)
Inductive Event :=
| EvTokenRequest                              (* POST accounts.spotify.com/api/token *)
| EvGetPlaylist (playlistId : string)
| EvGetPage (playlistId : string) (limit offset : Z)
| EvGetAlbum (spotifyId : string)
| EvDownload (url : string)
| EvUpload (uuid : nat) (ext : string)
| EvContainerExists
| EvContainerCreate
| EvConnect
| EvDisconnect
| EvDelay (ms : Z).

Inductive LogLine :=
| LogInfo (msg : string)
| LogError (ctx : string) (msg : string).

Record JsError := {
  err_message : string;
  err_status : option Z               (* error.response?.status *)
}.

Record Stats := {
  st_total : nat;
  st_processed : nat;
  st_success : nat;
  st_skipped : nat;
  st_failed : nat;
  st_errors : list string
}.

Record World := {
  w_db : Db;
  w_container : bool;                 (* the album-covers container exists *)
  w_blobs : list (nat * string);
  w_clock : Z;                        (* Date.now(), milliseconds *)
  w_next_id : nat;                    (* source of row ids and uuids *)
  w_accessToken : option string;      (* this.accessToken *)
  w_tokenExpiry : option Z;           (* this.tokenExpiry *)
  w_stats : Stats;                    (* this.stats of AlbumCoverSeeder *)
  w_log : list LogLine;
  w_trace : list Event
}.

(** Requests to the store that may be refused by it. *)
Inductive DbOp :=
| OpConnect
| OpUpsertArtist (spotify_id : string)
| OpUpsertAlbum (spotify_id : string)
| OpUpsertTrack (spotify_id : string)
| OpUpsertPlaylist (spotify_id : string)
| OpUpsertAlbumArtist (album_id artist_id : nat)
| OpUpsertTrackArtist (track_id artist_id : nat)
| OpFindTrack (spotify_id : string)
| OpUpsertPlaylistTrack (playlist_id track_id position : nat)
| OpFindMedia (album_id : nat)
| OpCreateMedia (album_id : nat)
| OpFindAlbums.

(** Answer of GET /v1/albums/:id. *)
Inductive AlbumOutcome :=
| AlbumFound (a : AlbumData)
| AlbumHttpError (e : JsError).

(** What lies outside the program.  Every answer may depend on the world
    at the time of the request. *)
Record Env := {
  env_client_id : option string;
  env_client_secret : option string;
  env_database_url : option string;
  env_azure : bool;                   (* containerClient was built at load time *)
  env_latency : Z;                    (* time taken by one HTTP exchange *)
  env_token : World -> JsError + TokenResponse;
  env_playlist : string -> World -> JsError + PlaylistData;
  env_page : string -> Z -> Z -> World -> JsError + list TrackItem;
  env_album : string -> World -> AlbumOutcome;
  env_image : string -> World -> JsError + ImageResponse;
  env_blob : World -> option JsError; (* exists, create and upload of the container *)
  env_db : DbOp -> World -> option JsError
}.

(** ** The monad: state with exceptions that keep the state *)

Inductive result (A : Type) :=
| Ok (a : A)
| Throw (e : JsError)
| Diverge.                            (* the loop did not end within the fuel *)
Arguments Ok {A} a.
Arguments Throw {A} e.
Arguments Diverge {A}.

Definition M (A : Type) : Type := World -> result A * World.

Definition ret {A} (a : A) : M A := fun w => (Ok a, w).

Definition bind {A B} (c : M A) (k : A -> M B) : M B :=
  fun w =>
    match c w with
    | (Ok a, w') => k a w'
    | (Throw e, w') => (Throw e, w')
    | (Diverge, w') => (Diverge, w')
    end.

Definition throw {A} (e : JsError) : M A := fun w => (Throw e, w).

(** try { c } catch (error) { h error } *)
Definition try_catch {A} (c : M A) (h : JsError -> M A) : M A :=
  fun w =>
    match c w with
    | (Throw e, w') => h e w'
    | r => r
    end.

Declare Scope js_scope.
Delimit Scope js_scope with js.
Notation "x <- c ;; k" := (bind c (fun x => k))
  (at level 100, c at next level, right associativity) : js_scope.
Notation "c ;;; k" := (bind c (fun _ => k))
  (at level 100, right associativity) : js_scope.
Local Open Scope js_scope.

Definition get_world : M World := fun w => (Ok w, w).
Definition modify (f : World -> World) : M unit := fun w => (Ok tt, f w).

Definition set_db (d : Db) (w : World) : World :=
  {| w_db := d; w_container := w_container w; w_blobs := w_blobs w;
     w_clock := w_clock w; w_next_id := w_next_id w;
     w_accessToken := w_accessToken w; w_tokenExpiry := w_tokenExpiry w;
     w_stats := w_stats w; w_log := w_log w; w_trace := w_trace w |}.

Definition set_container (c : bool) (w : World) : World :=
  {| w_db := w_db w; w_container := c; w_blobs := w_blobs w;
     w_clock := w_clock w; w_next_id := w_next_id w;
     w_accessToken := w_accessToken w; w_tokenExpiry := w_tokenExpiry w;
     w_stats := w_stats w; w_log := w_log w; w_trace := w_trace w |}.

Definition add_blob (b : nat * string) (w : World) : World :=
  {| w_db := w_db w; w_container := w_container w; w_blobs := w_blobs w ++ [b];
     w_clock := w_clock w; w_next_id := w_next_id w;
     w_accessToken := w_accessToken w; w_tokenExpiry := w_tokenExpiry w;
     w_stats := w_stats w; w_log := w_log w; w_trace := w_trace w |}.

Definition advance (ms : Z) (w : World) : World :=
  {| w_db := w_db w; w_container := w_container w; w_blobs := w_blobs w;
     w_clock := (w_clock w + ms)%Z; w_next_id := w_next_id w;
     w_accessToken := w_accessToken w; w_tokenExpiry := w_tokenExpiry w;
     w_stats := w_stats w; w_log := w_log w; w_trace := w_trace w |}.

Definition bump_id (w : World) : World :=
  {| w_db := w_db w; w_container := w_container w; w_blobs := w_blobs w;
     w_clock := w_clock w; w_next_id := S (w_next_id w);
     w_accessToken := w_accessToken w; w_tokenExpiry := w_tokenExpiry w;
     w_stats := w_stats w; w_log := w_log w; w_trace := w_trace w |}.

Definition set_token (tok : option string) (exp : option Z) (w : World) : World :=
  {| w_db := w_db w; w_container := w_container w; w_blobs := w_blobs w;
     w_clock := w_clock w; w_next_id := w_next_id w;
     w_accessToken := tok; w_tokenExpiry := exp;
     w_stats := w_stats w; w_log := w_log w; w_trace := w_trace w |}.

Definition set_stats (s : Stats) (w : World) : World :=
  {| w_db := w_db w; w_container := w_container w; w_blobs := w_blobs w;
     w_clock := w_clock w; w_next_id := w_next_id w;
     w_accessToken := w_accessToken w; w_tokenExpiry := w_tokenExpiry w;
     w_stats := s; w_log := w_log w; w_trace := w_trace w |}.

Definition add_log (l : LogLine) (w : World) : World :=
  {| w_db := w_db w; w_container := w_container w; w_blobs := w_blobs w;
     w_clock := w_clock w; w_next_id := w_next_id w;
     w_accessToken := w_accessToken w; w_tokenExpiry := w_tokenExpiry w;
     w_stats := w_stats w; w_log := w_log w ++ [l]; w_trace := w_trace w |}.

Definition add_event (e : Event) (w : World) : World :=
  {| w_db := w_db w; w_container := w_container w; w_blobs := w_blobs w;
     w_clock := w_clock w; w_next_id := w_next_id w;
     w_accessToken := w_accessToken w; w_tokenExpiry := w_tokenExpiry w;
     w_stats := w_stats w; w_log := w_log w; w_trace := w_trace w ++ [e] |}.

Definition console_log (msg : string) : M unit := modify (add_log (LogInfo msg)).
Definition console_error (ctx : string) (e : JsError) : M unit :=
  modify (add_log (LogError ctx (err_message e))).
Definition emit (e : Event) : M unit := modify (add_event e).

(** Date.now() and new Date() *)
Definition Date_now : M Z := fun w => (Ok (w_clock w), w).

(** uuidv4(), also the store's default for a row id *)
Definition fresh : M nat := fun w => (Ok (w_next_id w), bump_id w).

(** await new Promise(resolve => setTimeout(resolve, ms)) *)
Definition delay (ms : Z) : M unit := emit (EvDelay ms) ;;; modify (advance ms).

Definition RATE_LIMIT_DELAY : Z := 1000.
Definition MAX_TRACKS_PER_REQUEST : Z := 100.
Definition PLAYLIST_ID : string := "6WQ2yb15wZ6fST8PAWrYrw".

(** ** JavaScript helpers *)

(** Truthiness of a string-valued variable that may be undefined. *)
Definition truthy_str (o : option string) : bool :=
  match o with
  | Some s => negb (bool_decide (s = ""))
  | None => false
  end.

(** Truthiness of a number that may be null. *)
Definition truthy_num (o : option Z) : bool :=
  match o with
  | Some z => negb (bool_decide (z = 0%Z))
  | None => false
  end.

(** [x || null] on a string that may be undefined. *)
Definition or_null (o : option string) : option string :=
  if truthy_str o then o else None.

(** [arr?.join(',') || null] *)
Definition join_or_null (o : option (list string)) : option string :=
  or_null (String.concat "," <$> o).

(** The TypeError of reading property [prop] of null. *)
Definition null_property_error (prop : string) : JsError :=
  {| err_message := "Cannot read properties of null (reading '" ++ prop ++ "')";
     err_status := None |}.

(** Reading property [prop] of [o.track], where [o.track] may be null. *)
Definition read_of {A} (prop : string) (o : option A) : M A :=
  match o with
  | Some a => ret a
  | None => throw (null_property_error prop)
  end.

(** ** The store client (Prisma) *)

Module prisma.

(** The column a create block gives for a field: a field that is
    undefined is left out of the data and the column gets its default,
    NULL. *)
Definition on_create {A} (v : Read A) : option A :=
  match v with
  | Value a => Some a
  | Undefined | Null => None
  end.

(** The same for a column that has a default in the schema. *)
Definition on_create_default {A} (v : Read A) (default : A) : option A :=
  match v with
  | Value a => Some a
  | Undefined => Some default
  | Null => None
  end.

(** The column an update block gives for a field, over the stored [old]:
    the client skips a field that is undefined. *)
Definition on_update {A} (v : Read A) (old : option A) : option A :=
  match v with
  | Undefined => old
  | Null => None
  | Value a => Some a
  end.

Definition set_artists (l : list Artist) (d : Db) : Db :=
  {| artists := l; albums := albums d; tracks := tracks d;
     album_artists := album_artists d; track_artists := track_artists d;
     playlists := playlists d; playlist_tracks := playlist_tracks d;
     media := media d |}.
Definition set_albums (l : list Album) (d : Db) : Db :=
  {| artists := artists d; albums := l; tracks := tracks d;
     album_artists := album_artists d; track_artists := track_artists d;
     playlists := playlists d; playlist_tracks := playlist_tracks d;
     media := media d |}.
Definition set_tracks (l : list Track) (d : Db) : Db :=
  {| artists := artists d; albums := albums d; tracks := l;
     album_artists := album_artists d; track_artists := track_artists d;
     playlists := playlists d; playlist_tracks := playlist_tracks d;
     media := media d |}.
Definition set_album_artists (l : list AlbumArtist) (d : Db) : Db :=
  {| artists := artists d; albums := albums d; tracks := tracks d;
     album_artists := l; track_artists := track_artists d;
     playlists := playlists d; playlist_tracks := playlist_tracks d;
     media := media d |}.
Definition set_track_artists (l : list TrackArtist) (d : Db) : Db :=
  {| artists := artists d; albums := albums d; tracks := tracks d;
     album_artists := album_artists d; track_artists := l;
     playlists := playlists d; playlist_tracks := playlist_tracks d;
     media := media d |}.
Definition set_playlists (l : list Playlist) (d : Db) : Db :=
  {| artists := artists d; albums := albums d; tracks := tracks d;
     album_artists := album_artists d; track_artists := track_artists d;
     playlists := l; playlist_tracks := playlist_tracks d;
     media := media d |}.
Definition set_playlist_tracks (l : list PlaylistTrack) (d : Db) : Db :=
  {| artists := artists d; albums := albums d; tracks := tracks d;
     album_artists := album_artists d; track_artists := track_artists d;
     playlists := playlists d; playlist_tracks := l;
     media := media d |}.
Definition set_media (l : list Media) (d : Db) : Db :=
  {| artists := artists d; albums := albums d; tracks := tracks d;
     album_artists := album_artists d; track_artists := track_artists d;
     playlists := playlists d; playlist_tracks := playlist_tracks d;
     media := l |}.

(** The store refuses the request when the environment says so. *)
Definition guard (E : Env) (op : DbOp) : M unit :=
  fun w =>
    match env_db E op w with
    | Some e => (Throw e, w)
    | None => (Ok tt, w)
    end.

(** Replace the first row that satisfies [p]. *)
Fixpoint replace_first {A} (p : A -> bool) (new : A) (l : list A) : list A :=
  match l with
  | [] => []
  | x :: l' => if p x then new :: l' else x :: replace_first p new l'
  end.

(** [model.upsert({where, update, create})] on one table: [p] is the
    where clause, [update] rewrites the row found, [create] builds a row
    from a fresh id and the store's CURRENT_TIMESTAMP. *)
Definition upsert {A} (E : Env) (op : DbOp)
    (table : Db -> list A) (set_table : list A -> Db -> Db)
    (p : A -> bool) (update : A -> A) (create : nat -> Z -> A) : M A :=
  guard E op ;;;
  w <- get_world ;;
  match find p (table (w_db w)) with
  | Some old =>
      let row := update old in
      modify (set_db (set_table (replace_first p row (table (w_db w))) (w_db w))) ;;;
      ret row
  | None =>
      id <- fresh ;;
      now <- Date_now ;;
      let row := create id now in
      modify (set_db (set_table (table (w_db w) ++ [row]) (w_db w))) ;;;
      ret row
  end.

Definition artist_upsert (E : Env) (spotify_id : string) :=
  upsert E (OpUpsertArtist spotify_id) artists set_artists
    (fun r => bool_decide (a_spotify_id r = spotify_id)).

Definition album_upsert (E : Env) (spotify_id : string) :=
  upsert E (OpUpsertAlbum spotify_id) albums set_albums
    (fun r => bool_decide (b_spotify_id r = spotify_id)).

Definition track_upsert (E : Env) (spotify_id : string) :=
  upsert E (OpUpsertTrack spotify_id) tracks set_tracks
    (fun r => bool_decide (t_spotify_id r = spotify_id)).

Definition playlist_upsert (E : Env) (spotify_id : string) :=
  upsert E (OpUpsertPlaylist spotify_id) playlists set_playlists
    (fun r => bool_decide (p_spotify_id r = spotify_id)).

Definition albumArtist_upsert (E : Env) (album_id artist_id : nat) :=
  upsert E (OpUpsertAlbumArtist album_id artist_id) album_artists set_album_artists
    (fun r => bool_decide (aa_album_id r = album_id) && bool_decide (aa_artist_id r = artist_id)).

Definition trackArtist_upsert (E : Env) (track_id artist_id : nat) :=
  upsert E (OpUpsertTrackArtist track_id artist_id) track_artists set_track_artists
    (fun r => bool_decide (ta_track_id r = track_id) && bool_decide (ta_artist_id r = artist_id)).

Definition playlistTrack_key (playlist_id track_id position : nat) (r : PlaylistTrack) : bool :=
  bool_decide (pt_playlist_id r = playlist_id)
  && bool_decide (pt_track_id r = track_id)
  && bool_decide (pt_position r = position).

Definition playlistTrack_upsert (E : Env) (playlist_id track_id position : nat) :=
  upsert E (OpUpsertPlaylistTrack playlist_id track_id position)
    playlist_tracks set_playlist_tracks
    (playlistTrack_key playlist_id track_id position).

(** track.findUnique({ where: { spotify_id } }) *)
Definition track_findUnique (E : Env) (spotify_id : string) : M (option Track) :=
  guard E (OpFindTrack spotify_id) ;;;
  w <- get_world ;;
  ret (find (fun r => bool_decide (t_spotify_id r = spotify_id)) (tracks (w_db w))).

Definition media_key (album_id : nat) (type : string) (r : Media) : bool :=
  bool_decide (m_album_id r = album_id) && bool_decide (m_type r = type).

(** media.findFirst({ where: { album_id, type } }) *)
Definition media_findFirst (E : Env) (album_id : nat) (type : string) : M (option Media) :=
  guard E (OpFindMedia album_id) ;;;
  w <- get_world ;;
  ret (find (media_key album_id type) (media (w_db w))).

(** media.create({ data }): the table is unique on (album_id, type). *)
Definition media_create (E : Env) (data : nat -> Media) : M Media :=
  id <- fresh ;;
  let row := data id in
  guard E (OpCreateMedia (m_album_id row)) ;;;
  w <- get_world ;;
  if existsb (media_key (m_album_id row) (m_type row)) (media (w_db w))
  then throw {| err_message := "Unique constraint failed on the fields: (album_id,type)";
                err_status := None |}
  else modify (set_db (set_media (media (w_db w) ++ [row]) (w_db w))) ;;; ret row.

(** Rows in ascending order of [key] (insertion sort, stable). *)
Fixpoint insert_by {A} (key : A -> string) (x : A) (l : list A) : list A :=
  match l with
  | [] => [x]
  | y :: l' => if String.leb (key y) (key x) then y :: insert_by key x l' else x :: y :: l'
  end.

Definition order_by {A} (key : A -> string) (l : list A) : list A :=
  foldl (fun acc x => insert_by key x acc) [] l.

(** album.findMany({ select: {id, spotify_id, name}, orderBy: {name: 'asc'} }) *)
Definition album_findMany (E : Env) : M (list Album) :=
  guard E OpFindAlbums ;;;
  w <- get_world ;;
  ret (order_by b_name (albums (w_db w))).

Definition connect (E : Env) : M unit :=
  emit EvConnect ;;; guard E OpConnect.

Definition disconnect : M unit := emit EvDisconnect.

End prisma.

(** ** HTTP and blob clients *)

(** One HTTP exchange: the request goes out, time passes, the answer is
    a response or an error. *)
Definition http {A} (E : Env) (ev : Event) (answer : World -> JsError + A) : M A :=
  emit ev ;;;
  modify (advance (env_latency E)) ;;;
  fun w =>
    match answer w with
    | inl e => (Throw e, w)
    | inr a => (Ok a, w)
    end.

Module containerClient.

Definition call (E : Env) (ev : Event) : M unit :=
  emit ev ;;;
  fun w =>
    match env_blob E w with
    | Some e => (Throw e, w)
    | None => (Ok tt, w)
    end.

Definition exists_ (E : Env) : M bool :=
  call E EvContainerExists ;;;
  w <- get_world ;;
  ret (w_container w).

Definition create (E : Env) : M unit :=
  call E EvContainerCreate ;;;
  modify (set_container true).

(** getBlockBlobClient(blobName).upload(data, length, options) *)
Definition upload (E : Env) (uuid : nat) (ext : string) : M unit :=
  call E (EvUpload uuid ext) ;;;
  modify (add_blob (uuid, ext)).

End containerClient.

(** ** spotify-seeder.js *)

(** What [processTracks] accumulates: two Maps, an array and the playlist. *)
Record ProcessedData := {
  pr_artists : gmap string Artist;
  pr_albums : gmap string Album;
  pr_tracks : list Track;
  pr_playlist : option Playlist
}.

(** How the process ends. *)
Inductive Outcome :=
| Exited (code : Z)                   (* process.exit(code) *)
| Returned                            (* main ran to its end *)
| NoEnd.

Module SpotifySeeder.

(** The module-level function of the file. *)
Definition ensureContainerExists (E : Env) : M unit :=
  if negb (env_azure E) then
    console_log "Skipping blob container creation (no Azure Storage configured)"
  else
    try_catch
      (exists_ <- containerClient.exists_ E ;;
       if negb exists_ then
         containerClient.create E ;;;
         console_log "Created album-covers container in blob storage"
       else
         console_log "Album-covers container already exists")
      (fun error =>
         console_error "Error ensuring container exists:" error ;;;
         console_log "Continuing without blob storage...").

(** The client-credential exchange and the bookkeeping after it. *)
Definition requestToken (E : Env) : M string :=
  response <- http E EvTokenRequest (env_token E) ;;
  now <- Date_now ;;
  modify (set_token (Some (access_token response))
                    (Some (now + expires_in response * 1000)%Z)) ;;;
  console_log "Spotify access token obtained successfully" ;;;
  ret (access_token response).

Definition getAccessToken (E : Env) : M string :=
  try_catch
    (w <- get_world ;;
     now <- Date_now ;;
     match w_accessToken w, w_tokenExpiry w with
     | Some token, Some expiry =>
         if truthy_str (Some token) && truthy_num (Some expiry)
            && bool_decide (now < expiry)%Z
         then ret token
         else requestToken E
     | _, _ => requestToken E
     end)
    (fun error =>
       console_error "Error getting Spotify access token:" error ;;;
       throw error).

(** The while loop of [fetchPlaylist]; [fuel] bounds its iterations. *)
Fixpoint fetch_batches (E : Env) (fuel : nat) (playlistId : string)
    (limit totalTracks offset : Z) (allTracks : list TrackItem)
    : M (list TrackItem) :=
  if bool_decide (offset < totalTracks)%Z then
    match fuel with
    | O => fun w => (Diverge, w)
    | S fuel' =>
        batchTracks <- http E (EvGetPage playlistId limit offset)
                              (env_page E playlistId limit offset) ;;
        let allTracks := allTracks ++ batchTracks in
        let offset := (offset + limit)%Z in
        (if bool_decide (offset < totalTracks)%Z
         then delay RATE_LIMIT_DELAY else ret tt) ;;;
        fetch_batches E fuel' playlistId limit totalTracks offset allTracks
    end
  else ret allTracks.

Definition with_items (playlist : PlaylistData) (items : list TrackItem) : PlaylistData :=
  {| pd_id := pd_id playlist; pd_name := pd_name playlist;
     pd_description := pd_description playlist;
     pd_owner_id := pd_owner_id playlist; pd_owner_name := pd_owner_name playlist;
     pd_owner_url := pd_owner_url playlist; pd_public := pd_public playlist;
     pd_collaborative := pd_collaborative playlist;
     pd_spotify_url := pd_spotify_url playlist;
     pd_tracks_total := Z.of_nat (length items);
     pd_tracks_items := items |}.

Definition fetchPlaylist (E : Env) (fuel : nat) (playlistId : string) (limit : Z)
    : M PlaylistData :=
  try_catch
    (token <- getAccessToken E ;;
     playlist <- http E (EvGetPlaylist playlistId) (env_playlist E playlistId) ;;
     let totalTracks := pd_tracks_total playlist in
     allTracks <- fetch_batches E fuel playlistId limit totalTracks 0 [] ;;
     ret (with_items playlist allTracks))
    (fun error =>
       console_error "Error fetching playlist:" error ;;;
       throw error).

Definition upsertArtist (E : Env) (artistData : ArtistData) : M Artist :=
  try_catch
    (now <- Date_now ;;
     prisma.artist_upsert E (ad_id artistData)
       (fun old =>
          {| a_id := a_id old; a_spotify_id := a_spotify_id old;
             a_name := ad_name artistData;
             a_spotify_url :=
               prisma.on_update (ad_spotify_url artistData) (a_spotify_url old);
             a_popularity :=
               prisma.on_update (ad_popularity artistData) (a_popularity old);
             a_created_at := a_created_at old;
             a_updated_at := now |})
       (fun id stamp =>
          {| a_id := id; a_spotify_id := ad_id artistData;
             a_name := ad_name artistData;
             a_spotify_url := prisma.on_create (ad_spotify_url artistData);
             a_popularity := prisma.on_create (ad_popularity artistData);
             a_created_at := stamp;
             a_updated_at := stamp |}))
    (fun error =>
       console_error (" Error upserting artist " ++ ad_name artistData ++ ":") error ;;;
       throw error).

Definition upsertAlbum (E : Env) (albumData : AlbumData) : M Album :=
  try_catch
    (now <- Date_now ;;
     prisma.album_upsert E (al_id albumData)
       (fun old =>
          {| b_id := b_id old; b_spotify_id := b_spotify_id old;
             b_name := al_name albumData;
             b_album_type := al_album_type albumData;
             b_total_tracks := al_total_tracks albumData;
             b_release_date := al_release_date albumData;
             b_release_date_precision := al_release_date_precision albumData;
             b_spotify_url :=
               prisma.on_update (al_spotify_url albumData) (b_spotify_url old);
             b_created_at := b_created_at old;
             b_updated_at := now |})
       (fun id stamp =>
          {| b_id := id; b_spotify_id := al_id albumData;
             b_name := al_name albumData;
             b_album_type := al_album_type albumData;
             b_total_tracks := al_total_tracks albumData;
             b_release_date := al_release_date albumData;
             b_release_date_precision := al_release_date_precision albumData;
             b_spotify_url := prisma.on_create (al_spotify_url albumData);
             b_created_at := stamp;
             b_updated_at := stamp |}))
    (fun error =>
       console_error (" Error upserting album " ++ al_name albumData ++ ":") error ;;;
       throw error).

Fixpoint link_album_artists (E : Env) (albumId : nat) (artistIds : list nat) : M unit :=
  match artistIds with
  | [] => ret tt
  | artistId :: rest =>
      _ <- prisma.albumArtist_upsert E albumId artistId
             (fun old => old)
             (fun _ _ => {| aa_album_id := albumId; aa_artist_id := artistId |}) ;;
      link_album_artists E albumId rest
  end.

Definition createAlbumArtistRelations (E : Env) (albumId : nat) (artistIds : list nat)
    : M unit :=
  try_catch (link_album_artists E albumId artistIds)
    (fun error =>
       console_error " Error creating album-artist relationships:" error ;;;
       throw error).

Definition upsertTrack (E : Env) (trackData : TrackData) (albumId : nat) : M Track :=
  try_catch
    (now <- Date_now ;;
     prisma.track_upsert E (td_id trackData)
       (fun old =>
          {| t_id := t_id old; t_spotify_id := t_spotify_id old;
             t_name := td_name trackData;
             t_album_id := t_album_id old;
             t_track_number := td_track_number trackData;
             t_disc_number := td_disc_number trackData;
             t_duration_ms := td_duration_ms trackData;
             t_popularity :=
               prisma.on_update (td_popularity trackData) (t_popularity old);
             t_preview_url :=
               prisma.on_update (td_preview_url trackData) (t_preview_url old);
             t_spotify_url :=
               prisma.on_update (td_spotify_url trackData) (t_spotify_url old);
             t_isrc := prisma.on_update (td_isrc trackData) (t_isrc old);
             t_explicit := td_explicit trackData;
             t_available_markets := join_or_null (td_available_markets trackData);
             t_created_at := t_created_at old;
             t_updated_at := now |})
       (fun id stamp =>
          {| t_id := id; t_spotify_id := td_id trackData;
             t_name := td_name trackData;
             t_album_id := albumId;
             t_track_number := td_track_number trackData;
             t_disc_number := td_disc_number trackData;
             t_duration_ms := td_duration_ms trackData;
             t_popularity := prisma.on_create (td_popularity trackData);
             t_preview_url := prisma.on_create (td_preview_url trackData);
             t_spotify_url := prisma.on_create (td_spotify_url trackData);
             t_isrc := prisma.on_create (td_isrc trackData);
             t_explicit := td_explicit trackData;
             t_available_markets := join_or_null (td_available_markets trackData);
             t_created_at := stamp;
             t_updated_at := stamp |}))
    (fun error =>
       console_error (" Error upserting track " ++ td_name trackData ++ ":") error ;;;
       throw error).

Fixpoint link_track_artists (E : Env) (trackId : nat) (artistIds : list nat) : M unit :=
  match artistIds with
  | [] => ret tt
  | artistId :: rest =>
      _ <- prisma.trackArtist_upsert E trackId artistId
             (fun old => old)
             (fun _ _ => {| ta_track_id := trackId; ta_artist_id := artistId |}) ;;
      link_track_artists E trackId rest
  end.

Definition createTrackArtistRelations (E : Env) (trackId : nat) (artistIds : list nat)
    : M unit :=
  try_catch (link_track_artists E trackId artistIds)
    (fun error =>
       console_error " Error creating track-artist relationships:" error ;;;
       throw error).

Definition getImageExtension (mimeType : string) : string :=
  if bool_decide (mimeType = "image/jpeg") then "jpg"
  else if bool_decide (mimeType = "image/jpg") then "jpg"
  else if bool_decide (mimeType = "image/png") then "png"
  else if bool_decide (mimeType = "image/webp") then "webp"
  else "jpg".

Definition cover_row (albumId uuid : nat) (fileExtension : string)
    (image : ImageRef) (imageResponse : ImageResponse) (id : nat) : Media :=
  {| m_id := id; m_album_id := albumId; m_type := "album_cover";
     m_filename := (uuid, fileExtension);
     m_blob_url := (uuid, fileExtension);
     m_spotify_url := img_url image;
     m_height := img_height image;
     m_width := img_width image;
     m_file_size := ir_length imageResponse;
     m_mime_type := ir_content_type imageResponse |}.

Definition downloadAndStoreAlbumCover (E : Env) (albumData : AlbumData) (albumId : nat)
    : M (option Media) :=
  if negb (env_azure E) then
    console_log " Skipping album cover download (no Azure Storage configured)" ;;;
    ret None
  else
    try_catch
      (match al_images albumData with
       | None | Some [] =>
           console_log "    No album cover available" ;;;
           ret None
       | Some (image :: _) =>
           console_log "    Downloading album cover" ;;;
           imageResponse <- http E (EvDownload (img_url image))
                                   (env_image E (img_url image)) ;;
           let fileExtension := getImageExtension (ir_content_type imageResponse) in
           uuid <- fresh ;;
           containerClient.upload E uuid fileExtension ;;;
           console_log "    Album cover stored" ;;;
           media <- prisma.media_create E
                      (cover_row albumId uuid fileExtension image imageResponse) ;;
           ret (Some media)
       end)
      (fun error =>
         console_error "    Error downloading album cover:" error ;;;
         ret None).

Definition upsertPlaylist (E : Env) (playlistData : PlaylistData) : M Playlist :=
  try_catch
    (now <- Date_now ;;
     prisma.playlist_upsert E (pd_id playlistData)
       (fun old =>
          {| p_id := p_id old; p_spotify_id := p_spotify_id old;
             p_name := pd_name playlistData;
             p_description :=
               prisma.on_update (pd_description playlistData) (p_description old);
             p_owner_id := pd_owner_id playlistData;
             p_owner_name :=
               prisma.on_update (pd_owner_name playlistData) (p_owner_name old);
             p_owner_url :=
               prisma.on_update (pd_owner_url playlistData) (p_owner_url old);
             p_public := prisma.on_update (pd_public playlistData) (p_public old);
             p_collaborative := pd_collaborative playlistData;
             p_total_tracks := pd_tracks_total playlistData;
             p_spotify_url :=
               prisma.on_update (pd_spotify_url playlistData) (p_spotify_url old);
             p_created_at := p_created_at old;
             p_updated_at := now |})
       (fun id stamp =>
          {| p_id := id; p_spotify_id := pd_id playlistData;
             p_name := pd_name playlistData;
             p_description := prisma.on_create (pd_description playlistData);
             p_owner_id := pd_owner_id playlistData;
             p_owner_name := prisma.on_create (pd_owner_name playlistData);
             p_owner_url := prisma.on_create (pd_owner_url playlistData);
             p_public := prisma.on_create_default (pd_public playlistData) true;
             p_collaborative := pd_collaborative playlistData;
             p_total_tracks := pd_tracks_total playlistData;
             p_spotify_url := prisma.on_create (pd_spotify_url playlistData);
             p_created_at := stamp;
             p_updated_at := stamp |}))
    (fun error =>
       console_error (" Error upserting playlist " ++ pd_name playlistData ++ ":") error ;;;
       throw error).

(** The row written for [trackItem] at index [i], for the track row [trackId]. *)
Definition playlist_track_row (playlistId trackId i : nat) (trackItem : TrackItem)
    : PlaylistTrack :=
  {| pt_playlist_id := playlistId;
     pt_track_id := trackId;
     pt_position := i + 1;
     pt_added_at := ti_added_at trackItem;
     pt_added_by_id := or_null (ti_added_by trackItem ≫= ab_id);
     pt_added_by_name := or_null (ti_added_by trackItem ≫= ab_display_name) |}.

(** The for loop of [createPlaylistTrackRelations], from index [i] on;
    [trackItem.track.id] raises a TypeError when the track is null. *)
Fixpoint link_playlist_tracks (E : Env) (playlistId i : nat) (tracks : list TrackItem)
    : M unit :=
  match tracks with
  | [] => ret tt
  | trackItem :: rest =>
      data <- read_of "id" (ti_track trackItem) ;;
      track <- prisma.track_findUnique E (td_id data) ;;
      match track with
      | Some track =>
          _ <- prisma.playlistTrack_upsert E playlistId (t_id track) (i + 1)
                 (fun old =>
                    {| pt_playlist_id := pt_playlist_id old;
                       pt_track_id := pt_track_id old;
                       pt_position := i + 1;
                       pt_added_at := ti_added_at trackItem;
                       pt_added_by_id := or_null (ti_added_by trackItem ≫= ab_id);
                       pt_added_by_name :=
                         or_null (ti_added_by trackItem ≫= ab_display_name) |})
                 (fun _ _ => playlist_track_row playlistId (t_id track) i trackItem) ;;
          ret tt
      | None => ret tt
      end ;;;
      link_playlist_tracks E playlistId (S i) rest
  end.

Definition createPlaylistTrackRelations (E : Env) (playlistId : nat)
    (tracks : list TrackItem) (addedAt : option string) : M unit :=
  try_catch (link_playlist_tracks E playlistId 0 tracks)
    (fun error =>
       console_error " Error creating playlist-track relationships:" error ;;;
       throw error).

Definition set_artist (k : string) (v : Artist) (pd : ProcessedData) : ProcessedData :=
  {| pr_artists := <[k := v]> (pr_artists pd); pr_albums := pr_albums pd;
     pr_tracks := pr_tracks pd; pr_playlist := pr_playlist pd |}.

Definition set_album (k : string) (v : Album) (pd : ProcessedData) : ProcessedData :=
  {| pr_artists := pr_artists pd; pr_albums := <[k := v]> (pr_albums pd);
     pr_tracks := pr_tracks pd; pr_playlist := pr_playlist pd |}.

Definition push_track (t : Track) (pd : ProcessedData) : ProcessedData :=
  {| pr_artists := pr_artists pd; pr_albums := pr_albums pd;
     pr_tracks := pr_tracks pd ++ [t]; pr_playlist := pr_playlist pd |}.

Definition has_album (k : string) (pd : ProcessedData) : bool :=
  bool_decide (is_Some (pr_albums pd !! k)).

(** for (const artist of track.artists) { ... } *)
Fixpoint process_artists (E : Env) (l : list ArtistData) (artistIds : list nat)
    (processedData : ProcessedData) : M (list nat * ProcessedData) :=
  match l with
  | [] => ret (artistIds, processedData)
  | artist :: rest =>
      processedArtist <- upsertArtist E artist ;;
      process_artists E rest (artistIds ++ [a_id processedArtist])
        (set_artist (ad_id artist) processedArtist processedData)
  end.

(** One turn of the loop of [processTracks]: record [i] of [n].  The
    first use of [trackItem.track] is the read of its name for the console
    (line 492), which raises a TypeError when the track is null. *)
Definition process_record (E : Env) (n i : nat) (trackItem : TrackItem)
    (processedData : ProcessedData) : M ProcessedData :=
  track <- read_of "name" (ti_track trackItem) ;;
  r <- process_artists E (td_artists track) [] processedData ;;
  let artistIds := fst r in
  let processedData := snd r in
  processedAlbum <- upsertAlbum E (td_album track) ;;
  let processedData := set_album (al_id (td_album track)) processedAlbum processedData in
  let albumKey := al_id (td_album track) in
  (if negb (has_album albumKey processedData) then
     _ <- downloadAndStoreAlbumCover E (td_album track) (b_id processedAlbum) ;;
     ret tt
   else
     console_log "    Album cover already processed") ;;;
  createAlbumArtistRelations E (b_id processedAlbum) artistIds ;;;
  processedTrack <- upsertTrack E track (b_id processedAlbum) ;;
  let processedData := push_track processedTrack processedData in
  createTrackArtistRelations E (t_id processedTrack) artistIds ;;;
  (if bool_decide (i < n - 1) then delay RATE_LIMIT_DELAY else ret tt) ;;;
  ret processedData.

(** for (let i = 0; i < tracks.length; i++) { ... }, from index [i] on. *)
Fixpoint process_records (E : Env) (n i : nat) (tracks : list TrackItem)
    (processedData : ProcessedData) : M ProcessedData :=
  match tracks with
  | [] => ret processedData
  | trackItem :: rest =>
      processedData <- process_record E n i trackItem processedData ;;
      process_records E n (S i) rest processedData
  end.

Definition processTracks (E : Env) (playlist : PlaylistData) : M ProcessedData :=
  let tracks := pd_tracks_items playlist in
  let processedData :=
    {| pr_artists := ∅; pr_albums := ∅; pr_tracks := []; pr_playlist := None |} in
  try_catch
    (stored <- upsertPlaylist E playlist ;;
     let processedData :=
       {| pr_artists := pr_artists processedData; pr_albums := pr_albums processedData;
          pr_tracks := pr_tracks processedData; pr_playlist := Some stored |} in
     processedData <- process_records E (length tracks) 0 tracks processedData ;;
     createPlaylistTrackRelations E (p_id stored) tracks
       (ti_added_at <$> head (pd_tracks_items playlist)) ;;;
     console_log " All tracks processed and inserted successfully!" ;;;
     ret processedData)
    (fun error =>
       console_error " Error processing tracks:" error ;;;
       throw error).

Definition seedDatabase (E : Env) (fuel : nat) : M ProcessedData :=
  try_catch
    (playlist <- fetchPlaylist E fuel PLAYLIST_ID 100 ;;
     processedData <- processTracks E playlist ;;
     console_log " Database seeding completed successfully!" ;;;
     ret processedData)
    (fun error =>
       console_error " Seeding failed:" error ;;;
       throw error).

Definition main (E : Env) (fuel : nat) : World -> Outcome * World :=
  fun w =>
    if negb (truthy_str (env_client_id E)) || negb (truthy_str (env_client_secret E)) then
      (Exited 1, add_log (LogError " Missing required environment variables:" "") w)
    else if negb (truthy_str (env_database_url E)) then
      (Exited 1, add_log (LogError " Missing DATABASE_URL environment variable" "") w)
    else
      let seeder := set_token None None w in
      match (prisma.connect E ;;;
             ensureContainerExists E ;;;
             seedDatabase E fuel) seeder with
      | (Ok _, w') => (Returned, snd (prisma.disconnect w'))
      | (Throw error, w') =>
          (Exited 1, add_log (LogError " Script execution failed:" (err_message error)) w')
      | (Diverge, w') => (NoEnd, w')
      end.

End SpotifySeeder.

(** ** album-cover-seeder.js *)

Module AlbumCoverSeeder.

Definition stats_skipped (s : Stats) : Stats :=
  {| st_total := st_total s; st_processed := st_processed s;
     st_success := st_success s; st_skipped := S (st_skipped s);
     st_failed := st_failed s; st_errors := st_errors s |}.

Definition stats_success (s : Stats) : Stats :=
  {| st_total := st_total s; st_processed := st_processed s;
     st_success := S (st_success s); st_skipped := st_skipped s;
     st_failed := st_failed s; st_errors := st_errors s |}.

(** this.stats.failed++; this.stats.errors.push(msg) *)
Definition stats_failed (msg : string) (s : Stats) : Stats :=
  {| st_total := st_total s; st_processed := st_processed s;
     st_success := st_success s; st_skipped := st_skipped s;
     st_failed := S (st_failed s); st_errors := st_errors s ++ [msg] |}.

Definition stats_processed (s : Stats) : Stats :=
  {| st_total := st_total s; st_processed := S (st_processed s);
     st_success := st_success s; st_skipped := st_skipped s;
     st_failed := st_failed s; st_errors := st_errors s |}.

Definition stats_total (n : nat) (s : Stats) : Stats :=
  {| st_total := n; st_processed := st_processed s;
     st_success := st_success s; st_skipped := st_skipped s;
     st_failed := st_failed s; st_errors := st_errors s |}.

Definition update_stats (f : Stats -> Stats) : M unit :=
  modify (fun w => set_stats (f (w_stats w)) w).

Definition requestToken (E : Env) : M string :=
  response <- http E EvTokenRequest (env_token E) ;;
  now <- Date_now ;;
  modify (set_token (Some (access_token response))
                    (Some (now + expires_in response * 1000)%Z)) ;;;
  console_log " Spotify access token obtained successfully" ;;;
  ret (access_token response).

Definition getAccessToken (E : Env) : M string :=
  try_catch
    (w <- get_world ;;
     now <- Date_now ;;
     match w_accessToken w, w_tokenExpiry w with
     | Some token, Some expiry =>
         if truthy_str (Some token) && truthy_num (Some expiry)
            && bool_decide (now < expiry)%Z
         then ret token
         else requestToken E
     | _, _ => requestToken E
     end)
    (fun error =>
       console_error " Error getting Spotify access token:" error ;;;
       throw error).

(** A method call on [containerClient], which is null when the client
    could not be built at load time. *)
Definition require_client (E : Env) (method : string) : M unit :=
  if env_azure E then ret tt
  else throw {| err_message :=
                  "Cannot read properties of null (reading '" ++ method ++ "')";
                err_status := None |}.

Definition ensureContainerExists (E : Env) : M unit :=
  try_catch
    (require_client E "exists" ;;;
     exists_ <- containerClient.exists_ E ;;
     if negb exists_ then
       containerClient.create E ;;;
       console_log " Created album-covers container in blob storage"
     else
       console_log " Album-covers container already exists")
    (fun error =>
       console_error " Error ensuring container exists:" error ;;;
       throw error).

Definition getImageExtension (mimeType : string) : string :=
  if bool_decide (mimeType = "image/jpeg") then "jpg"
  else if bool_decide (mimeType = "image/jpg") then "jpg"
  else if bool_decide (mimeType = "image/png") then "png"
  else if bool_decide (mimeType = "image/webp") then "webp"
  else "jpg".

Definition cover_row (albumId uuid : nat) (fileExtension : string)
    (image : ImageRef) (imageResponse : ImageResponse) (id : nat) : Media :=
  {| m_id := id; m_album_id := albumId; m_type := "album_cover";
     m_filename := (uuid, fileExtension);
     m_blob_url := (uuid, fileExtension);
     m_spotify_url := img_url image;
     m_height := img_height image;
     m_width := img_width image;
     m_file_size := ir_length imageResponse;
     m_mime_type := ir_content_type imageResponse |}.

Definition downloadAndStoreAlbumCover (E : Env) (albumData : AlbumData) (albumId : nat)
    : M (option Media) :=
  try_catch
    (match al_images albumData with
     | None | Some [] =>
         console_log "    No album cover available" ;;;
         ret None
     | Some (image :: _) =>
         console_log "    Downloading album cover" ;;;
         imageResponse <- http E (EvDownload (img_url image))
                                 (env_image E (img_url image)) ;;
         let fileExtension := getImageExtension (ir_content_type imageResponse) in
         uuid <- fresh ;;
         require_client E "getBlockBlobClient" ;;;
         containerClient.upload E uuid fileExtension ;;;
         console_log "    Album cover stored" ;;;
         media <- prisma.media_create E
                    (cover_row albumId uuid fileExtension image imageResponse) ;;
         console_log "    Media record created" ;;;
         ret (Some media)
     end)
    (fun error =>
       console_error "    Error downloading album cover:" error ;;;
       throw error).

(** The GET of [fetchAlbumFromSpotify]. *)
Definition get_album (E : Env) (spotifyId : string) : M AlbumData :=
  emit (EvGetAlbum spotifyId) ;;;
  modify (advance (env_latency E)) ;;;
  fun w =>
    match env_album E spotifyId w with
    | AlbumFound a => (Ok a, w)
    | AlbumHttpError e => (Throw e, w)
    end.

Definition fetchAlbumFromSpotify (E : Env) (spotifyId : string) : M (option AlbumData) :=
  try_catch
    (token <- getAccessToken E ;;
     data <- get_album E spotifyId ;;
     ret (Some data))
    (fun error =>
       if bool_decide (err_status error = Some 404%Z) then
         console_log ("    Album not found on Spotify: " ++ spotifyId) ;;;
         ret None
       else throw error).

(** The try block of [processAlbum]. *)
Definition processAlbum_steps (E : Env) (album : Album) : M unit :=
  existingMedia <- prisma.media_findFirst E (b_id album) "album_cover" ;;
  match existingMedia with
  | Some _ =>
      console_log "    Album cover already exists, skipping" ;;;
      update_stats stats_skipped
  | None =>
      spotifyAlbum <- fetchAlbumFromSpotify E (b_spotify_id album) ;;
      match spotifyAlbum with
      | None =>
          console_log "    Could not fetch album from Spotify, skipping" ;;;
          update_stats
            (stats_failed ("Album " ++ b_name album ++ ": Spotify fetch failed"))
      | Some spotifyAlbum =>
          media <- downloadAndStoreAlbumCover E spotifyAlbum (b_id album) ;;
          match media with
          | Some _ =>
              console_log "    Album cover processed successfully" ;;;
              update_stats stats_success
          | None =>
              console_log "    No album cover available" ;;;
              update_stats
                (stats_failed ("Album " ++ b_name album ++ ": No cover available"))
          end
      end
  end.

Definition processAlbum (E : Env) (album : Album) : M unit :=
  try_catch (processAlbum_steps E album)
    (fun error =>
       console_error ("    Error processing album " ++ b_name album ++ ":") error ;;;
       update_stats
         (stats_failed ("Album " ++ b_name album ++ ": " ++ err_message error))).

Definition getAlbumsFromDatabase (E : Env) : M (list Album) :=
  try_catch (prisma.album_findMany E)
    (fun error =>
       console_error " Error fetching albums from database:" error ;;;
       throw error).

(** for (let i = 0; i < albums.length; i++) { ... }, from index [i] on. *)
Fixpoint process_albums (E : Env) (n i : nat) (albums : list Album) : M unit :=
  match albums with
  | [] => ret tt
  | album :: rest =>
      processAlbum E album ;;;
      update_stats stats_processed ;;;
      (if bool_decide (i < n - 1) then delay RATE_LIMIT_DELAY else ret tt) ;;;
      process_albums E n (S i) rest
  end.

Definition processAllAlbums (E : Env) : M unit :=
  try_catch
    (ensureContainerExists E ;;;
     albums <- getAlbumsFromDatabase E ;;
     update_stats (stats_total (length albums)) ;;;
     match albums with
     | [] => console_log " No albums found in database"
     | _ =>
         process_albums E (length albums) 0 albums ;;;
         console_log " Album cover seeding completed!"
     end)
    (fun error =>
       console_error " Album cover seeding failed:" error ;;;
       throw error).

(** new AlbumCoverSeeder() *)
Definition constructor (w : World) : World :=
  set_stats {| st_total := 0; st_processed := 0; st_success := 0; st_skipped := 0;
               st_failed := 0; st_errors := [] |}
    (set_token None None w).

(** The script from its load to the end of [main]: the connection string
    is looked at when the file is loaded and once more in [main]. *)
Definition main (E : Env) (AZURE_STORAGE_CONNECTION_STRING : option string)
    : World -> Outcome * World :=
  fun w =>
    if negb (truthy_str AZURE_STORAGE_CONNECTION_STRING) then
      (Exited 1, add_log (LogInfo " No Azure Storage connection string found") w)
    else if negb (truthy_str (env_client_id E)) || negb (truthy_str (env_client_secret E)) then
      (Exited 1, add_log (LogError " Missing required environment variables:" "") w)
    else if negb (truthy_str AZURE_STORAGE_CONNECTION_STRING) then
      (Exited 1,
       add_log (LogError " Missing AZURE_STORAGE_CONNECTION_STRING environment variable" "") w)
    else if negb (truthy_str (env_database_url E)) then
      (Exited 1, add_log (LogError " Missing DATABASE_URL environment variable" "") w)
    else
      let seeder := constructor w in
      match (prisma.connect E ;;; processAllAlbums E) seeder with
      | (Ok _, w') => (Returned, snd (prisma.disconnect w'))
      | (Throw error, w') =>
          (Exited 1, add_log (LogError " Script execution failed:" (err_message error)) w')
      | (Diverge, w') => (NoEnd, w')
      end.

End AlbumCoverSeeder.

(** * Vocabulary of the statements *)

(** A cached token exists and the clock is strictly before its expiry. *)
Definition token_fresh (w : World) (token : string) : Prop :=
  w_accessToken w = Some token ∧ token ≠ "" ∧
  ∃ expiry, w_tokenExpiry w = Some expiry ∧ (w_clock w < expiry)%Z.

(** The exchange happens at [w]: one token request goes out; a response
    is returned and cached with expiry = clock + expires_in * 1000 ms; an
    error is raised and the cache is left alone. *)
Definition exchanges (get : Env -> M string) (E : Env) (w : World) : Prop :=
  ∃ w', w_trace w' = w_trace w ++ [EvTokenRequest] ∧
    match env_token E (advance (env_latency E) (add_event EvTokenRequest w)) with
    | inr response =>
        get E w = (Ok (access_token response), w') ∧
        w_accessToken w' = Some (access_token response) ∧
        w_tokenExpiry w' = Some (w_clock w' + expires_in response * 1000)%Z
    | inl e =>
        get E w = (Throw e, w') ∧
        w_accessToken w' = w_accessToken w ∧
        w_tokenExpiry w' = w_tokenExpiry w
    end.

(** The nullable column [col] of a row, after the API property [v] was
    written to it: a value is stored, null clears the column, and a
    property the object lacks gives NULL in a new row and leaves the
    column of a stored row ([Some old]) as it was. *)
Definition written {A} (v : Read A) (stored : option (option A)) (col : option A)
    : Prop :=
  match v, stored with
  | Value a, _ => col = Some a
  | Null, _ => col = None
  | Undefined, None => col = None
  | Undefined, Some old => col = old
  end.

(** The row carries the incoming values, written over the row [stored]
    under that key, if there was one. *)
Definition artist_carries (data : ArtistData) (stored : option Artist) (row : Artist)
    : Prop :=
  a_spotify_id row = ad_id data ∧ a_name row = ad_name data ∧
  written (ad_spotify_url data) (a_spotify_url <$> stored) (a_spotify_url row) ∧
  written (ad_popularity data) (a_popularity <$> stored) (a_popularity row).

Definition album_carries (data : AlbumData) (stored : option Album) (row : Album)
    : Prop :=
  b_spotify_id row = al_id data ∧ b_name row = al_name data ∧
  b_album_type row = al_album_type data ∧
  b_total_tracks row = al_total_tracks data ∧
  b_release_date row = al_release_date data ∧
  b_release_date_precision row = al_release_date_precision data ∧
  written (al_spotify_url data) (b_spotify_url <$> stored) (b_spotify_url row).

(** Every column of a track but the album reference. *)
Definition track_carries (data : TrackData) (stored : option Track) (row : Track)
    : Prop :=
  t_spotify_id row = td_id data ∧ t_name row = td_name data ∧
  t_track_number row = td_track_number data ∧
  t_disc_number row = td_disc_number data ∧
  t_duration_ms row = td_duration_ms data ∧
  written (td_popularity data) (t_popularity <$> stored) (t_popularity row) ∧
  written (td_preview_url data) (t_preview_url <$> stored) (t_preview_url row) ∧
  written (td_spotify_url data) (t_spotify_url <$> stored) (t_spotify_url row) ∧
  written (td_isrc data) (t_isrc <$> stored) (t_isrc row) ∧
  t_explicit row = td_explicit data ∧
  t_available_markets row = join_or_null (td_available_markets data).

(** upsertArtist, when the store accepts the request: with no row of that
    spotify_id, a row is appended that carries the incoming values and
    both timestamps are the clock; with one such row, that row is
    rewritten in place with the incoming values (a column whose property
    the API object lacks stays as stored), keeps its id and created_at,
    and gets the clock as updated_at. *)
Definition artist_upsert_law : Prop :=
  ∀ (E : Env) (data : ArtistData) (w : World),
    env_db E (OpUpsertArtist (ad_id data)) w = None →
    ((∀ r, r ∈ artists (w_db w) → a_spotify_id r ≠ ad_id data) →
     ∃ row w', SpotifySeeder.upsertArtist E data w = (Ok row, w') ∧
       artists (w_db w') = artists (w_db w) ++ [row] ∧
       artist_carries data None row ∧
       a_created_at row = w_clock w ∧ a_updated_at row = w_clock w) ∧
    (∀ l1 old l2,
       artists (w_db w) = l1 ++ old :: l2 → a_spotify_id old = ad_id data →
       (∀ r, r ∈ l1 ++ l2 → a_spotify_id r ≠ ad_id data) →
       ∃ row w', SpotifySeeder.upsertArtist E data w = (Ok row, w') ∧
         artists (w_db w') = l1 ++ row :: l2 ∧
         artist_carries data (Some old) row ∧ a_id row = a_id old ∧
         a_created_at row = a_created_at old ∧ a_updated_at row = w_clock w).

Definition album_upsert_law : Prop :=
  ∀ (E : Env) (data : AlbumData) (w : World),
    env_db E (OpUpsertAlbum (al_id data)) w = None →
    ((∀ r, r ∈ albums (w_db w) → b_spotify_id r ≠ al_id data) →
     ∃ row w', SpotifySeeder.upsertAlbum E data w = (Ok row, w') ∧
       albums (w_db w') = albums (w_db w) ++ [row] ∧
       album_carries data None row ∧
       b_created_at row = w_clock w ∧ b_updated_at row = w_clock w) ∧
    (∀ l1 old l2,
       albums (w_db w) = l1 ++ old :: l2 → b_spotify_id old = al_id data →
       (∀ r, r ∈ l1 ++ l2 → b_spotify_id r ≠ al_id data) →
       ∃ row w', SpotifySeeder.upsertAlbum E data w = (Ok row, w') ∧
         albums (w_db w') = l1 ++ row :: l2 ∧
         album_carries data (Some old) row ∧ b_id row = b_id old ∧
         b_created_at row = b_created_at old ∧ b_updated_at row = w_clock w).

(** upsertTrack: as above, and the album reference is the [albumId]
    argument on creation and the stored one on update. *)
Definition track_upsert_law : Prop :=
  ∀ (E : Env) (data : TrackData) (albumId : nat) (w : World),
    env_db E (OpUpsertTrack (td_id data)) w = None →
    ((∀ r, r ∈ tracks (w_db w) → t_spotify_id r ≠ td_id data) →
     ∃ row w', SpotifySeeder.upsertTrack E data albumId w = (Ok row, w') ∧
       tracks (w_db w') = tracks (w_db w) ++ [row] ∧
       track_carries data None row ∧ t_album_id row = albumId ∧
       t_created_at row = w_clock w ∧ t_updated_at row = w_clock w) ∧
    (∀ l1 old l2,
       tracks (w_db w) = l1 ++ old :: l2 → t_spotify_id old = td_id data →
       (∀ r, r ∈ l1 ++ l2 → t_spotify_id r ≠ td_id data) →
       ∃ row w', SpotifySeeder.upsertTrack E data albumId w = (Ok row, w') ∧
         tracks (w_db w') = l1 ++ row :: l2 ∧
         track_carries data (Some old) row ∧ t_id row = t_id old ∧
         t_album_id row = t_album_id old ∧
         t_created_at row = t_created_at old ∧ t_updated_at row = w_clock w).

(** The same artist imported twice, [ms] milliseconds apart, into a store
    that did not know it: one row, carrying the second call's values
    written over the first call's, created at the first call and updated
    at the second. *)
Definition artist_second_call_law : Prop :=
  ∀ (E : Env) (first second : ArtistData) (w : World) (ms : Z),
    ad_id second = ad_id first →
    (∀ w0, env_db E (OpUpsertArtist (ad_id first)) w0 = None) →
    (∀ r, r ∈ artists (w_db w) → a_spotify_id r ≠ ad_id first) →
    ∃ row1 w1 row2 w2,
      SpotifySeeder.upsertArtist E first w = (Ok row1, w1) ∧
      SpotifySeeder.upsertArtist E second (advance ms w1) = (Ok row2, w2) ∧
      artists (w_db w2) = artists (w_db w) ++ [row2] ∧
      artist_carries second (Some row1) row2 ∧ a_id row2 = a_id row1 ∧
      a_created_at row2 = w_clock w ∧ a_updated_at row2 = (w_clock w + ms)%Z.

(** The client id, the client secret and the store's URL are all set. *)
Definition configured (E : Env) : Prop :=
  truthy_str (env_client_id E) = true ∧ truthy_str (env_client_secret E) = true ∧
  truthy_str (env_database_url E) = true.

(** [c] ends, normally or by an exception, from every world. *)
Definition total {A} (c : M A) : Prop :=
  ∀ w, fst (c w) ≠ Diverge.

(** this.stats.processed *)
Definition processed (w : World) : nat := st_processed (w_stats w).

(** What [processTracks] holds when it enters its loop. *)
Definition initial_data (stored : Playlist) : ProcessedData :=
  {| pr_artists := ∅; pr_albums := ∅; pr_tracks := []; pr_playlist := Some stored |}.

(** [c] leaves the observation [f] of the world as it found it, whatever
    its result. *)
Definition preserves {X A} (f : World -> X) (c : M A) : Prop :=
  ∀ w, f (snd (c w)) = f w.

(** [c] ends normally from every world. *)
Definition never_throws {A} (c : M A) : Prop :=
  ∀ w, ∃ a w', c w = (Ok a, w').

(** [sep] between every two neighbours of [l], and nowhere else. *)
Fixpoint intersperse {A} (sep : A) (l : list A) : list A :=
  match l with
  | [] => []
  | x :: l' =>
      match l' with
      | [] => [x]
      | _ :: _ => x :: sep :: intersperse sep l'
      end
  end.

(** ceil(total / limit), and 0 for an empty collection. *)
Definition page_count (total limit : Z) : nat :=
  Z.to_nat ((total + limit - 1) / limit).

(** [n] offsets in steps of [limit], starting at [offset]. *)
Fixpoint offsets_from (n : nat) (offset limit : Z) : list Z :=
  match n with
  | O => []
  | S m => offset :: offsets_from m (offset + limit) limit
  end.

(** The table after an upsert that writes [r] under the key [p]. *)
Definition upsert_list {A} (p : A -> bool) (r : A) (l : list A) : list A :=
  match find p l with
  | Some _ => prisma.replace_first p r l
  | None => l ++ [r]
  end.

Definition by_spotify_id (k : string) (r : Track) : bool :=
  bool_decide (t_spotify_id r = k).

(** The row of the tracks table [stored] that [item] names, if [item]
    carries a track and the table has a row for it. *)
Definition stored_track (stored : list Track) (item : TrackItem) : option Track :=
  ti_track item ≫= λ track, find (by_spotify_id (td_id track)) stored.

(** The playlist_tracks table after the loop of createPlaylistTrackRelations
    has run from index [i] over [items], when the store accepts every
    request and every item carries a track: [stored] is the tracks table. *)
Fixpoint linked (stored : list Track) (playlistId i : nat) (items : list TrackItem)
    (table : list PlaylistTrack) : list PlaylistTrack :=
  match items with
  | [] => table
  | item :: rest =>
      linked stored playlistId (S i) rest
        match stored_track stored item with
        | Some t =>
            upsert_list (prisma.playlistTrack_key playlistId (t_id t) (i + 1))
              (SpotifySeeder.playlist_track_row playlistId (t_id t) i item) table
        | None => table
        end
  end.

(** The rows written from index [i] on, for the items whose track is stored. *)
Fixpoint expected_rows (stored : list Track) (playlistId i : nat)
    (items : list TrackItem) : list PlaylistTrack :=
  match items with
  | [] => []
  | item :: rest =>
      match stored_track stored item with
      | Some t => [SpotifySeeder.playlist_track_row playlistId (t_id t) i item]
      | None => []
      end ++ expected_rows stored playlistId (S i) rest
  end.

(** The rows of one playlist. *)
Definition of_playlist (playlistId : nat) (r : PlaylistTrack) : bool :=
  bool_decide (pt_playlist_id r = playlistId).

Definition rows_of (playlistId : nat) (w : World) : list PlaylistTrack :=
  List.filter (of_playlist playlistId) (playlist_tracks (w_db w)).

(** The events of cover archiving: the image download and the blob upload. *)
Definition is_cover_event (e : Event) : bool :=
  match e with
  | EvDownload _ | EvUpload _ _ => true
  | _ => false
  end.

Definition cover_events (w : World) : list Event :=
  List.filter is_cover_event (w_trace w).

(** The world after a token exchange at [w] that was answered by
    [response]: [okmsg] is the seeder's console line. *)
Definition exchange_world (E : Env) (okmsg : string) (response : TokenResponse)
    (w : World) : World :=
  let sent := advance (env_latency E) (add_event EvTokenRequest w) in
  add_log (LogInfo okmsg)
    (set_token (Some (access_token response))
       (Some (w_clock sent + expires_in response * 1000)%Z) sent).

(** The albums accounted for: skipped, stored or failed. *)
Definition tally (s : Stats) : nat := st_skipped s + st_success s + st_failed s.

Definition is_delay (e : Event) : bool :=
  match e with
  | EvDelay _ => true
  | _ => false
  end.

(** The waits so far. *)
Definition delays (w : World) : list Event := List.filter is_delay (w_trace w).

(** The file names [getImageExtension] can give. *)
Definition known_extension (ext : string) : Prop :=
  ext = "jpg" ∨ ext = "png" ∨ ext = "webp".

(** [m] is the cover row of album [albumId], and its blob is in the container. *)
Definition cover_stored (albumId : nat) (m : Media) (w : World) : Prop :=
  m ∈ media (w_db w) ∧ m_album_id m = albumId ∧ m_type m = "album_cover" ∧
  m_filename m = m_blob_url m ∧ m_blob_url m ∈ w_blobs w ∧
  known_extension (snd (m_filename m)).

(** What a run of downloadAndStoreAlbumCover from [w] did to the media
    table: a row returned is the one row added, and it is a stored cover;
    in every other case the table is as it was. *)
Definition cover_outcome (albumId : nat) (w : World)
    (r : result (option Media) * World) : Prop :=
  match r with
  | (Ok (Some m), w') =>
      cover_stored albumId m w' ∧ media (w_db w') = media (w_db w) ++ [m] ∧
      existsb (prisma.media_key albumId "album_cover") (media (w_db w)) = false
  | (Ok None, w') | (Throw _, w') => media (w_db w') = media (w_db w)
  | (Diverge, _) => False
  end.

Definition is_connection_event (e : Event) : bool :=
  match e with
  | EvConnect | EvDisconnect => true
  | _ => false
  end.

(** The calls of prisma.$connect() and prisma.$disconnect() so far. *)
Definition connection (w : World) : list Event :=
  List.filter is_connection_event (w_trace w).

(** What a run that ends in [o] did with the connection it opened. *)
Definition opened_and (o : Outcome) : list Event :=
  match o with
  | Returned => [EvConnect; EvDisconnect]
  | _ => [EvConnect]
  end.




(** ** Rows by key

    Each table is unique on a key (the constraints of
    prisma/migrations/20250813234402_setup_tables/migration.sql); the
    entity tables give their rows an id besides. *)

Inductive Table :=
| Artists | Albums | Tracks | AlbumArtists | TrackArtists | Playlists | PlaylistTracks
| Medias.

Inductive Key :=
| BySpotifyId (spotify_id : string)
| ByPair (parent_id artist_id : nat)
| ByPosition (playlist_id track_id position : nat)
| ByAlbumType (album_id : nat) (type : string).

#[global] Instance Table_eq_dec : EqDecision Table.
Proof. solve_decision. Defined.

#[global] Instance Key_eq_dec : EqDecision Key.
Proof. solve_decision. Defined.

(** The key of every row of a table, with the row's id (0 where the table
    has none), in the order of the table. *)
Definition rows (t : Table) (d : Db) : list (Key * nat) :=
  match t with
  | Artists => (λ r, (BySpotifyId (a_spotify_id r), a_id r)) <$> artists d
  | Albums => (λ r, (BySpotifyId (b_spotify_id r), b_id r)) <$> albums d
  | Tracks => (λ r, (BySpotifyId (t_spotify_id r), t_id r)) <$> tracks d
  | AlbumArtists => (λ r, (ByPair (aa_album_id r) (aa_artist_id r), 0)) <$> album_artists d
  | TrackArtists => (λ r, (ByPair (ta_track_id r) (ta_artist_id r), 0)) <$> track_artists d
  | Playlists => (λ r, (BySpotifyId (p_spotify_id r), p_id r)) <$> playlists d
  | PlaylistTracks =>
      (λ r, (ByPosition (pt_playlist_id r) (pt_track_id r) (pt_position r), 0))
        <$> playlist_tracks d
  | Medias => (λ r, (ByAlbumType (m_album_id r) (m_type r), m_id r)) <$> media d
  end.

(** The id of the first row under [k]. *)
Definition id_of (t : Table) (d : Db) (k : Key) : option nat :=
  snd <$> find (λ s, bool_decide (s.1 = k)) (rows t d).

(** No row was removed or moved, and none changed its key or its id. *)
Definition grows (d d' : Db) : Prop :=
  ∀ t, rows t d `prefix_of` rows t d'.

(** No two rows of a table under one key. *)
Definition keys_unique (d : Db) : Prop :=
  ∀ t, NoDup (rows t d).*1.

(** [c] only lets the store grow, and keeps the keys unique. *)
Definition store_safe {A} (c : M A) : Prop :=
  ∀ w, grows (w_db w) (w_db (snd (c w))) ∧
       (keys_unique (w_db w) → keys_unique (w_db (snd (c w)))).
(** [c] is an upsert of table [t] under the key [k]: it leaves the other
    tables alone; in [t] it changes no key and no id, and adds at most one
    row, under [k] and at the end, and only if [k] had no row; and when it
    returns a row, that row is afterwards the first one under [k]. *)
Definition upserts {A} (t : Table) (k : Key) (ident : A → nat) (c : M A) : Prop :=
  ∀ w,
    (∀ t', t' ≠ t → rows t' (w_db (c w).2) = rows t' (w_db w)) ∧
    (rows t (w_db (c w).2) = rows t (w_db w) ∨
     (k ∉ (rows t (w_db w)).*1) ∧
     ∃ id, rows t (w_db (c w).2) = rows t (w_db w) ++ [(k, id)]) ∧
    (k ∈ (rows t (w_db w)).*1 → rows t (w_db (c w).2) = rows t (w_db w)) ∧
    (∀ row w', c w = (Ok row, w') → id_of t (w_db w') k = Some (ident row)).
(** The same rows, by key and id, in every table. *)
Definition same_rows (d d' : Db) : Prop := ∀ t, rows t d' = rows t d.

(** From a store with the rows of [d], [c] ends in a store with the rows
    of [d], however it ends; and what it returns satisfies [Q]. *)
Definition keeps {A} (d : Db) (c : M A) (Q : A → Prop) : Prop :=
  ∀ w, same_rows d (w_db w) →
       same_rows d (w_db (c w).2) ∧ ∀ a w', c w = (Ok a, w') → Q a.

(** The store holds [artist], linked to the album row and the track row. *)
Definition artist_linked (d : Db) (albumId trackId : nat) (artist : ArtistData) : Prop :=
  ∃ artistId,
    id_of Artists d (BySpotifyId (ad_id artist)) = Some artistId ∧
    is_Some (id_of AlbumArtists d (ByPair albumId artistId)) ∧
    is_Some (id_of TrackArtists d (ByPair trackId artistId)).

(** The store holds the album, the track and the artists of [item], and
    the links between them. *)
Definition item_stored (d : Db) (item : TrackItem) : Prop :=
  ∃ track albumId trackId,
    ti_track item = Some track ∧
    id_of Albums d (BySpotifyId (al_id (td_album track))) = Some albumId ∧
    id_of Tracks d (BySpotifyId (td_id track)) = Some trackId ∧
    Forall (artist_linked d albumId trackId) (td_artists track).

(** The store holds [playlist] with all its items, each at its position. *)
Definition playlist_stored (d : Db) (playlist : PlaylistData) : Prop :=
  (∃ playlistId,
     id_of Playlists d (BySpotifyId (pd_id playlist)) = Some playlistId ∧
     ∀ i item track trackId,
       pd_tracks_items playlist !! i = Some item →
       ti_track item = Some track →
       id_of Tracks d (BySpotifyId (td_id track)) = Some trackId →
       is_Some (id_of PlaylistTracks d (ByPosition playlistId trackId (i + 1)))) ∧
  Forall (item_stored d) (pd_tracks_items playlist).



(** Everything a run asked of the outside, its waits apart. *)
Definition requests (w : World) : list Event :=
  List.filter (λ e, negb (is_delay e)) (w_trace w).

(** * Sample data: three tracks, two by Artist A on Album X, one by
    Artist B on Album Y *)

Module Sample.

Definition artistA : ArtistData :=
  {| ad_id := "artA"; ad_name := "Artist A";
     ad_spotify_url := Value "https://open.spotify.com/artist/artA";
     ad_popularity := Value 61%Z |}.

Definition artistB : ArtistData :=
  {| ad_id := "artB"; ad_name := "Artist B";
     ad_spotify_url := Undefined; ad_popularity := Undefined |}.

Definition cover : ImageRef :=
  {| img_url := "https://i.scdn.co/image/coverX";
     img_height := Some 640%Z; img_width := Some 640%Z |}.

Definition albumX : AlbumData :=
  {| al_id := "albX"; al_name := "Album X"; al_album_type := "album";
     al_total_tracks := 10%Z; al_release_date := "2019-05-03";
     al_release_date_precision := "day";
     al_spotify_url := Value "https://open.spotify.com/album/albX";
     al_images := Some [cover] |}.

Definition albumY : AlbumData :=
  {| al_id := "albY"; al_name := "Album Y"; al_album_type := "single";
     al_total_tracks := 1%Z; al_release_date := "2021";
     al_release_date_precision := "year";
     al_spotify_url := Undefined; al_images := Some [] |}.

Definition track (id name : string) (artist : ArtistData) (album : AlbumData)
    (number : Z) : TrackData :=
  {| td_id := id; td_name := name; td_artists := [artist]; td_album := album;
     td_track_number := number; td_disc_number := 1%Z; td_duration_ms := 201000%Z;
     td_popularity := Value 40%Z; td_preview_url := Null;
     td_spotify_url := Undefined; td_isrc := Value "USABC1900001";
     td_explicit := false; td_available_markets := Some ["IE"; "GB"] |}.

Definition item (t : TrackData) : TrackItem :=
  {| ti_track := Some t; ti_added_at := "2024-01-15T10:00:00Z";
     ti_added_by := Some {| ab_id := Some "user1"; ab_display_name := None |} |}.

Definition item1 : TrackItem := item (track "trk1" "One" artistA albumX 1).
Definition item2 : TrackItem := item (track "trk2" "Two" artistA albumX 2).
Definition item3 : TrackItem := item (track "trk3" "Three" artistB albumY 1).
Definition items : list TrackItem := [item1; item2; item3].

Definition playlist : PlaylistData :=
  {| pd_id := PLAYLIST_ID; pd_name := "Marketplace"; pd_description := Null;
     pd_owner_id := "owner"; pd_owner_name := Value "Owner";
     pd_owner_url := Undefined;
     pd_public := Value true; pd_collaborative := false;
     pd_spotify_url := Undefined;
     pd_tracks_total := 3%Z; pd_tracks_items := [] |}.

Definition db0 : Db :=
  {| artists := []; albums := []; tracks := []; album_artists := [];
     track_artists := []; playlists := []; playlist_tracks := []; media := [] |}.

Definition stats0 : Stats :=
  {| st_total := 0; st_processed := 0; st_success := 0; st_skipped := 0;
     st_failed := 0; st_errors := [] |}.

Definition world0 : World :=
  {| w_db := db0; w_container := false; w_blobs := [];
     w_clock := 1700000000000%Z; w_next_id := 1;
     w_accessToken := None; w_tokenExpiry := None; w_stats := stats0;
     w_log := []; w_trace := [] |}.

Definition failure (msg : string) : JsError :=
  {| err_message := msg; err_status := None |}.

(** Everything succeeds; a page is the slice of [items] asked for. *)
Definition env : Env :=
  {| env_client_id := Some "client"; env_client_secret := Some "secret";
     env_database_url := Some "sqlserver://db"; env_azure := true;
     env_latency := 120%Z;
     env_token := fun _ => inr {| access_token := "BQD-token"; expires_in := 3600%Z |};
     env_playlist := fun _ _ => inr playlist;
     env_page := fun _ limit offset _ =>
       inr (take (Z.to_nat limit) (drop (Z.to_nat offset) items));
     env_album := fun _ _ => AlbumFound albumX;
     env_image := fun _ _ =>
       inr {| ir_content_type := "image/png"; ir_length := 52341%Z |};
     env_blob := fun _ => None;
     env_db := fun _ _ => None |}.

Definition with_db (refuse : DbOp -> World -> option JsError) (E : Env) : Env :=
  {| env_client_id := env_client_id E; env_client_secret := env_client_secret E;
     env_database_url := env_database_url E; env_azure := env_azure E;
     env_latency := env_latency E; env_token := env_token E;
     env_playlist := env_playlist E; env_page := env_page E;
     env_album := env_album E; env_image := env_image E;
     env_blob := env_blob E; env_db := refuse |}.

Definition with_image (answer : string -> World -> JsError + ImageResponse) (E : Env)
    : Env :=
  {| env_client_id := env_client_id E; env_client_secret := env_client_secret E;
     env_database_url := env_database_url E; env_azure := env_azure E;
     env_latency := env_latency E; env_token := env_token E;
     env_playlist := env_playlist E; env_page := env_page E;
     env_album := env_album E; env_image := answer;
     env_blob := env_blob E; env_db := env_db E |}.

Definition with_token (answer : World -> JsError + TokenResponse) (E : Env) : Env :=
  {| env_client_id := env_client_id E; env_client_secret := env_client_secret E;
     env_database_url := env_database_url E; env_azure := env_azure E;
     env_latency := env_latency E; env_token := answer;
     env_playlist := env_playlist E; env_page := env_page E;
     env_album := env_album E; env_image := env_image E;
     env_blob := env_blob E; env_db := env_db E |}.

Definition with_page
    (answer : string -> Z -> Z -> World -> JsError + list TrackItem) (E : Env) : Env :=
  {| env_client_id := env_client_id E; env_client_secret := env_client_secret E;
     env_database_url := env_database_url E; env_azure := env_azure E;
     env_latency := env_latency E; env_token := env_token E;
     env_playlist := env_playlist E; env_page := answer;
     env_album := env_album E; env_image := env_image E;
     env_blob := env_blob E; env_db := env_db E |}.

(** The store after the import of the sample playlist. *)
Definition seeded : World := snd (SpotifySeeder.main env 10 world0).

(** The import of the sample playlist at the moment [processTracks] has
    stored the playlist, row 1, and gone through the records, and is about
    to link the tracks to the playlist. *)
Definition unlinked : World :=
  snd ((stored <- SpotifySeeder.upsertPlaylist env
                    (SpotifySeeder.with_items playlist items) ;;
        SpotifySeeder.process_records env 3 0 items (initial_data stored)) world0).

(** Artist A presented again under another name, by an object without the
    popularity property. *)
Definition artistA_renamed : ArtistData :=
  {| ad_id := "artA"; ad_name := "Artist A (remastered)";
     ad_spotify_url := Value "https://open.spotify.com/artist/artA";
     ad_popularity := Undefined |}.

(** An item whose track is null: the track is no longer available. *)
Definition removed : TrackItem :=
  {| ti_track := None; ti_added_at := "2024-01-15T10:00:00Z"; ti_added_by := None |}.

(** Track 1 presented again, now on Album Y. *)
Definition moved : TrackData := track "trk1" "One (single)" artistB albumY 1.


(** The image host answers every request with an error. *)
Definition broken_images : Env :=
  with_image (fun _ _ => inl (failure "Request failed with status code 404")) env.

(** The store after the cover seeder went over the imported albums. *)
Definition covered : World := snd (AlbumCoverSeeder.processAllAlbums env seeded).

(** The token endpoint refuses the credentials. *)
Definition auth_refused : Env :=
  with_token (fun _ => inl {| err_message := "Request failed with status code 400";
                             err_status := Some 400%Z |}) env.

(** A playlist of 250 tracks whose second page cannot be had. *)
Definition long_playlist : PlaylistData :=
  {| pd_id := PLAYLIST_ID; pd_name := "Marketplace"; pd_description := Null;
     pd_owner_id := "owner"; pd_owner_name := Value "Owner";
     pd_owner_url := Undefined;
     pd_public := Value true; pd_collaborative := false;
     pd_spotify_url := Undefined;
     pd_tracks_total := 250%Z; pd_tracks_items := [] |}.

Definition second_page_fails : Env :=
  {| env_client_id := env_client_id env; env_client_secret := env_client_secret env;
     env_database_url := env_database_url env; env_azure := env_azure env;
     env_latency := env_latency env; env_token := env_token env;
     env_playlist := fun _ _ => inr long_playlist;
     env_page := fun _ _ offset _ =>
       if bool_decide (offset = 100%Z) then inl (failure "socket hang up")
       else inr items;
     env_album := env_album env; env_image := env_image env;
     env_blob := env_blob env; env_db := env_db env |}.

(** The answer of Spotify for what it does not know. *)
Definition not_found : JsError :=
  {| err_message := "Request failed with status code 404"; err_status := Some 404%Z |}.

(** The request for the playlist's metadata is refused. *)
Definition no_metadata : Env :=
  {| env_client_id := env_client_id env; env_client_secret := env_client_secret env;
     env_database_url := env_database_url env; env_azure := env_azure env;
     env_latency := env_latency env; env_token := env_token env;
     env_playlist := fun _ _ => inl not_found;
     env_page := env_page env;
     env_album := env_album env; env_image := env_image env;
     env_blob := env_blob env; env_db := env_db env |}.

(** The client secret is not set. *)
Definition no_secret : Env :=
  {| env_client_id := env_client_id env; env_client_secret := None;
     env_database_url := env_database_url env; env_azure := env_azure env;
     env_latency := env_latency env; env_token := env_token env;
     env_playlist := env_playlist env; env_page := env_page env;
     env_album := env_album env; env_image := env_image env;
     env_blob := env_blob env; env_db := env_db env |}.

(** An item whose track was never imported. *)
Definition ghost : TrackItem := item (track "trk9" "Nine" artistB albumY 4).

(** The Media row of Album X in [covered]. *)
Definition coverX_row : Media :=
  {| m_id := 18; m_album_id := 3; m_type := "album_cover";
     m_filename := (17, "png"); m_blob_url := (17, "png");
     m_spotify_url := "https://i.scdn.co/image/coverX";
     m_height := Some 640%Z; m_width := Some 640%Z;
     m_file_size := 52341%Z; m_mime_type := "image/png" |}.

Definition png : ImageResponse :=
  {| ir_content_type := "image/png"; ir_length := 52341%Z |}.

(** The rows of Track 1 and Album X in [seeded]. *)
Definition track1_row : Track :=
  {| t_id := 5; t_spotify_id := "trk1"; t_name := "One"; t_album_id := 3;
     t_track_number := 1%Z; t_disc_number := 1%Z; t_duration_ms := 201000%Z;
     t_popularity := Some 40%Z; t_preview_url := None; t_spotify_url := None;
     t_isrc := Some "USABC1900001"; t_explicit := false;
     t_available_markets := Some "IE,GB";
     t_created_at := 1700000000360%Z; t_updated_at := 1700000000360%Z |}.

Definition albumX_row : Album :=
  {| b_id := 3; b_spotify_id := "albX"; b_name := "Album X"; b_album_type := "album";
     b_total_tracks := 10%Z; b_release_date := "2019-05-03";
     b_release_date_precision := "day";
     b_spotify_url := Some "https://open.spotify.com/album/albX";
     b_created_at := 1700000000360%Z; b_updated_at := 1700000001360%Z |}.

(** The store is out of reach. *)
Definition store_down : Env :=
  with_db (fun _ _ => Some (failure "Can't reach database server")) env.

(** The page fetch of the sample playlist, and one with page size 0. *)
Definition fetched : result PlaylistData * World :=
  SpotifySeeder.fetchPlaylist env 1 PLAYLIST_ID 100 world0.


Definition token_response : TokenResponse :=
  {| access_token := "BQD-token"; expires_in := 3600%Z |}.

(** The store refuses to link artist row 9, and nothing else. *)
Definition refuse_artist9 (op : DbOp) (w : World) : option JsError :=
  match op with
  | OpUpsertAlbumArtist _ a | OpUpsertTrackArtist _ a =>
      if bool_decide (a = 9) then Some (failure "Foreign key constraint failed") else None
  | _ => None
  end.

(** The blob client could not be built. *)
Definition without_client (E : Env) : Env :=
  {| env_client_id := env_client_id E; env_client_secret := env_client_secret E;
     env_database_url := env_database_url E; env_azure := false;
     env_latency := env_latency E; env_token := env_token E;
     env_playlist := env_playlist E; env_page := env_page E;
     env_album := env_album E; env_image := env_image E;
     env_blob := env_blob E; env_db := env_db E |}.

End Sample.

(** * Properties *)

Section Frame.
Context {X : Type} (f : World -> X).

Lemma preserves_ret {A} (a : A) : preserves f (ret a).
Proof. intros w. reflexivity. Qed.

Lemma preserves_throw {A} (e : JsError) : preserves f (@throw A e).
Proof. intros w. reflexivity. Qed.

Lemma preserves_read_of {A} (prop : string) (o : option A) :
  preserves f (read_of prop o).
Proof. intros w. by destruct o. Qed.

Lemma preserves_get_world : preserves f get_world.
Proof. intros w. reflexivity. Qed.

Lemma preserves_Date_now : preserves f Date_now.
Proof. intros w. reflexivity. Qed.

Lemma preserves_modify (g : World -> World) :
  (∀ w, f (g w) = f w) → preserves f (modify g).
Proof. intros H w. apply H. Qed.

Lemma preserves_bind {A B} (c : M A) (k : A -> M B) :
  preserves f c → (∀ a, preserves f (k a)) → preserves f (bind c k).
Proof.
  intros Hc Hk w. unfold bind. specialize (Hc w).
  destruct (c w) as [[a | e |] w1]; simpl in *; try assumption.
  rewrite (Hk a w1). assumption.
Qed.

Lemma preserves_try_catch {A} (c : M A) (h : JsError -> M A) :
  preserves f c → (∀ e, preserves f (h e)) → preserves f (try_catch c h).
Proof.
  intros Hc Hh w. unfold try_catch. specialize (Hc w).
  destruct (c w) as [[a | e |] w1]; simpl in *; try assumption.
  rewrite (Hh e w1). assumption.
Qed.

End Frame.

(** ** Token cache *)

Lemma token_fresh_test (w : World) (token : string) (expiry : Z) :
  (0 ≤ w_clock w)%Z →
  truthy_str (Some token) && truthy_num (Some expiry)
    && bool_decide (w_clock w < expiry)%Z = true ↔
  token ≠ "" ∧ (w_clock w < expiry)%Z.
Proof.
  intros Hclock. unfold truthy_str, truthy_num.
  rewrite !andb_true_iff, !negb_true_iff, !bool_decide_eq_false, bool_decide_eq_true.
  split; [tauto | intros [? ?]; repeat split; [assumption | lia | assumption]].
Qed.

Ltac run_monad :=
  cbv beta iota delta [bind ret throw try_catch get_world modify Date_now http
    emit console_log console_error delay fresh].

Lemma spotify_token_cached (E : Env) (w : World) (token : string) :
  (0 ≤ w_clock w)%Z → token_fresh w token →
  SpotifySeeder.getAccessToken E w = (Ok token, w).
Proof.
  intros Hclock (Htok & Hne & expiry & Hexp & Hlt).
  unfold SpotifySeeder.getAccessToken. run_monad. rewrite Htok, Hexp.
  destruct (token_fresh_test w token expiry Hclock) as [_ ->]; [reflexivity | auto].
Qed.

Lemma album_token_cached (E : Env) (w : World) (token : string) :
  (0 ≤ w_clock w)%Z → token_fresh w token →
  AlbumCoverSeeder.getAccessToken E w = (Ok token, w).
Proof.
  intros Hclock (Htok & Hne & expiry & Hexp & Hlt).
  unfold AlbumCoverSeeder.getAccessToken. run_monad. rewrite Htok, Hexp.
  destruct (token_fresh_test w token expiry Hclock) as [_ ->]; [reflexivity | auto].
Qed.

Ltac solve_exchange :=
  run_monad;
  match goal with
  | |- context [env_token ?E ?w] =>
      destruct (env_token E w) as [e | response]; cbn;
      eexists; (split; [| split; [reflexivity |]]); cbn; auto
  end.

Lemma spotify_token_exchanged (E : Env) (w : World) :
  (0 ≤ w_clock w)%Z → (∀ token, ¬ token_fresh w token) →
  exchanges SpotifySeeder.getAccessToken E w.
Proof.
  intros Hclock Hstale.
  unfold exchanges, SpotifySeeder.getAccessToken, SpotifySeeder.requestToken.
  destruct (w_accessToken w) as [token |] eqn:Htok;
    destruct (w_tokenExpiry w) as [expiry |] eqn:Hexp.
  - destruct (truthy_str (Some token) && truthy_num (Some expiry)
              && bool_decide (w_clock w < expiry)%Z) eqn:Htest.
    + apply token_fresh_test in Htest as [Hne Hlt]; [| assumption].
      exfalso. apply (Hstale token). repeat split; eauto.
    + run_monad. rewrite Htok, Hexp. cbv beta iota. rewrite Htest. solve_exchange.
  - run_monad. rewrite ?Htok, ?Hexp. solve_exchange.
  - run_monad. rewrite ?Htok, ?Hexp. solve_exchange.
  - run_monad. rewrite ?Htok, ?Hexp. solve_exchange.
Qed.

Lemma album_token_exchanged (E : Env) (w : World) :
  (0 ≤ w_clock w)%Z → (∀ token, ¬ token_fresh w token) →
  exchanges AlbumCoverSeeder.getAccessToken E w.
Proof.
  intros Hclock Hstale.
  unfold exchanges, AlbumCoverSeeder.getAccessToken, AlbumCoverSeeder.requestToken.
  destruct (w_accessToken w) as [token |] eqn:Htok;
    destruct (w_tokenExpiry w) as [expiry |] eqn:Hexp.
  - destruct (truthy_str (Some token) && truthy_num (Some expiry)
              && bool_decide (w_clock w < expiry)%Z) eqn:Htest.
    + apply token_fresh_test in Htest as [Hne Hlt]; [| assumption].
      exfalso. apply (Hstale token). repeat split; eauto.
    + run_monad. rewrite Htok, Hexp. cbv beta iota. rewrite Htest. solve_exchange.
  - run_monad. rewrite ?Htok, ?Hexp. solve_exchange.
  - run_monad. rewrite ?Htok, ?Hexp. solve_exchange.
  - run_monad. rewrite ?Htok, ?Hexp. solve_exchange.
Qed.

(** C7. getAccessToken, in both seeders: while a cached token exists and
    the clock is strictly before the cached expiry, the cached token is
    returned and the world is untouched, so no request goes out; in every
    other case one token request is sent, and its response is cached with
    expiry = clock at that moment + expires_in seconds (in milliseconds). *)
Theorem getAccessToken_cache_then_exchange (E : Env) (w : World) :
  (0 ≤ w_clock w)%Z →
  (∀ token, token_fresh w token →
     SpotifySeeder.getAccessToken E w = (Ok token, w) ∧
     AlbumCoverSeeder.getAccessToken E w = (Ok token, w)) ∧
  ((∀ token, ¬ token_fresh w token) →
     exchanges SpotifySeeder.getAccessToken E w ∧
     exchanges AlbumCoverSeeder.getAccessToken E w).
Proof.
  intros Hclock. split.
  - intros token Hfresh. split.
    + by apply spotify_token_cached.
    + by apply album_token_cached.
  - intros Hstale. split.
    + by apply spotify_token_exchanged.
    + by apply album_token_exchanged.
Qed.

(** ** Upsert on one table *)

Lemma find_absent {A} (p : A -> bool) (l : list A) :
  (∀ x, x ∈ l → p x = false) → find p l = None.
Proof.
  induction l as [| y l IH]; intros H; [reflexivity |]. simpl.
  rewrite (H y) by apply list_elem_of_here.
  apply IH. intros x Hx. apply H. by apply list_elem_of_further.
Qed.

Lemma find_first {A} (p : A -> bool) (l1 l2 : list A) (old : A) :
  (∀ x, x ∈ l1 → p x = false) → p old = true →
  find p (l1 ++ old :: l2) = Some old.
Proof.
  induction l1 as [| y l1 IH]; intros H Hold; simpl.
  - by rewrite Hold.
  - rewrite (H y) by apply list_elem_of_here.
    apply IH; [| assumption]. intros x Hx. apply H. by apply list_elem_of_further.
Qed.

Lemma replace_first_split {A} (p : A -> bool) (l1 l2 : list A) (old new : A) :
  (∀ x, x ∈ l1 → p x = false) → p old = true →
  prisma.replace_first p new (l1 ++ old :: l2) = l1 ++ new :: l2.
Proof.
  induction l1 as [| y l1 IH]; intros H Hold; simpl.
  - by rewrite Hold.
  - rewrite (H y) by apply list_elem_of_here.
    f_equal. apply IH; [| assumption]. intros x Hx. apply H. by apply list_elem_of_further.
Qed.

Lemma upsert_absent {A} (E : Env) (op : DbOp) (table : Db -> list A)
    (set_table : list A -> Db -> Db) (p : A -> bool) (update : A -> A)
    (create : nat -> Z -> A) (w : World) :
  env_db E op w = None → find p (table (w_db w)) = None →
  prisma.upsert E op table set_table p update create w =
    (Ok (create (w_next_id w) (w_clock w)),
     set_db (set_table (table (w_db w) ++ [create (w_next_id w) (w_clock w)]) (w_db w))
       (bump_id w)).
Proof.
  intros Hop Hfind. unfold prisma.upsert, prisma.guard. run_monad.
  rewrite Hop. cbv beta iota. rewrite Hfind. reflexivity.
Qed.

Lemma upsert_present {A} (E : Env) (op : DbOp) (table : Db -> list A)
    (set_table : list A -> Db -> Db) (p : A -> bool) (update : A -> A)
    (create : nat -> Z -> A) (w : World) (old : A) :
  env_db E op w = None → find p (table (w_db w)) = Some old →
  prisma.upsert E op table set_table p update create w =
    (Ok (update old),
     set_db (set_table (prisma.replace_first p (update old) (table (w_db w))) (w_db w)) w).
Proof.
  intros Hop Hfind. unfold prisma.upsert, prisma.guard. run_monad.
  rewrite Hop. cbv beta iota. rewrite Hfind. reflexivity.
Qed.

(** A column written from an API property: by the cases of the property. *)
Ltac read_cases :=
  unfold written, prisma.on_create, prisma.on_update; cbn;
  repeat match goal with
         | |- context [match ?v with Undefined => _ | Null => _ | Value _ => _ end] =>
             destruct v
         end;
  reflexivity.

Ltac upsert_created H Hop :=
  run_monad;
  match goal with
  | |- context [prisma.upsert ?E ?op ?t ?st ?p ?u ?c ?w] =>
      rewrite (upsert_absent E op t st p u c w Hop);
      [ do 2 eexists; split; [reflexivity |]; cbn; repeat split;
        first [reflexivity | read_cases]
      | apply find_absent; intros x Hx; apply bool_decide_eq_false; by apply H ]
  end.

Ltac upsert_updated l1 old l2 Htab Hold H Hop :=
  run_monad;
  match goal with
  | |- context [prisma.upsert ?E ?op ?t ?st ?p ?u ?c ?w] =>
      assert (Hl1 : ∀ x, x ∈ l1 → p x = false)
        by (intros x Hx; apply bool_decide_eq_false, H, elem_of_app; by left);
      assert (Hp : p old = true) by (by apply bool_decide_eq_true);
      rewrite (upsert_present E op t st p u c w old Hop)
        by (cbn; rewrite Htab; by apply find_first);
      do 2 eexists; split; [reflexivity |]; cbn; rewrite Htab;
      split; [by apply replace_first_split |]; repeat split;
      first [done | read_cases]
  end.

Lemma artist_upsert_holds : artist_upsert_law.
Proof.
  intros E data w Hop. split.
  - intros H. unfold SpotifySeeder.upsertArtist, prisma.artist_upsert.
    upsert_created H Hop.
  - intros l1 old l2 Htab Hold H.
    unfold SpotifySeeder.upsertArtist, prisma.artist_upsert.
    upsert_updated l1 old l2 Htab Hold H Hop.
Qed.

Lemma album_upsert_holds : album_upsert_law.
Proof.
  intros E data w Hop. split.
  - intros H. unfold SpotifySeeder.upsertAlbum, prisma.album_upsert.
    upsert_created H Hop.
  - intros l1 old l2 Htab Hold H.
    unfold SpotifySeeder.upsertAlbum, prisma.album_upsert.
    upsert_updated l1 old l2 Htab Hold H Hop.
Qed.

Lemma track_upsert_holds : track_upsert_law.
Proof.
  intros E data albumId w Hop. split.
  - intros H. unfold SpotifySeeder.upsertTrack, prisma.track_upsert.
    upsert_created H Hop.
  - intros l1 old l2 Htab Hold H.
    unfold SpotifySeeder.upsertTrack, prisma.track_upsert.
    upsert_updated l1 old l2 Htab Hold H Hop.
Qed.

(** ** What each operation leaves alone

    [f] is an observation of the world and [quiet] the events whose
    emission it does not see.  Each lemma uses only the hypotheses about
    the fields its operation writes. *)

Ltac frame_step :=
  first
    [ apply preserves_ret | apply preserves_throw | apply preserves_read_of
    | apply preserves_get_world
    | apply preserves_Date_now
    | apply preserves_bind; [| intros ?]
    | apply preserves_try_catch; [| intros ?]
    | apply preserves_modify; intros ?; solve [auto]
    | match goal with
      | |- preserves _ (match ?x with _ => _ end) => destruct x
      end
    | solve [ let w := fresh "w" in
              intros w; cbv beta;
              match goal with
              | |- _ (snd (match ?x with _ => _ end)) = _ => by destruct x
              end ] ].

Create HintDb frame.

Ltac frame := repeat frame_step; auto with frame.

Section Insensitive.
Context {X : Type} (f : World -> X) (quiet : Event -> bool).
Hypothesis f_log : ∀ l w, f (add_log l w) = f w.
Hypothesis f_event : ∀ e w, quiet e = true → f (add_event e w) = f w.
Hypothesis f_clock : ∀ ms w, f (advance ms w) = f w.
Hypothesis f_id : ∀ w, f (bump_id w) = f w.
Hypothesis f_db : ∀ d w, f (set_db d w) = f w.
Hypothesis f_token : ∀ t x w, f (set_token t x w) = f w.
Hypothesis f_container : ∀ c w, f (set_container c w) = f w.
Hypothesis f_stats : ∀ s w, f (set_stats s w) = f w.
Hypothesis q_token : quiet EvTokenRequest = true.
Hypothesis q_delay : ∀ ms, quiet (EvDelay ms) = true.
Hypothesis q_page : ∀ p l o, quiet (EvGetPage p l o) = true.
Hypothesis q_playlist : ∀ p, quiet (EvGetPlaylist p) = true.
Hypothesis q_album : ∀ p, quiet (EvGetAlbum p) = true.
Hypothesis q_connect : quiet EvConnect = true.
Hypothesis q_exists : quiet EvContainerExists = true.
Hypothesis q_create : quiet EvContainerCreate = true.
Hypothesis f_blob : ∀ b w, f (add_blob b w) = f w.
Hypothesis q_download : ∀ url, quiet (EvDownload url) = true.
Hypothesis q_upload : ∀ uuid ext, quiet (EvUpload uuid ext) = true.

Lemma console_log_preserves msg : preserves f (console_log msg).
Proof. unfold console_log. frame. Qed.

Lemma console_error_preserves ctx e : preserves f (console_error ctx e).
Proof. unfold console_error. frame. Qed.

Lemma emit_preserves e : quiet e = true → preserves f (emit e).
Proof. intros. unfold emit. frame. Qed.

Lemma fresh_preserves : preserves f fresh.
Proof. intros w. apply f_id. Qed.

Lemma guard_preserves E op : preserves f (prisma.guard E op).
Proof. intros w. unfold prisma.guard. by destruct (env_db E op w). Qed.

#[local] Hint Resolve console_log_preserves console_error_preserves
  fresh_preserves guard_preserves : frame.

Lemma delay_preserves ms : preserves f (delay ms).
Proof. unfold delay. frame. Qed.

Lemma http_preserves {A} E ev (answer : World -> JsError + A) :
  quiet ev = true → preserves f (http E ev answer).
Proof.
  intros. unfold http. frame.
Qed.

Lemma upsert_preserves {A} E op (table : Db -> list A) set_table p update create :
  preserves f (prisma.upsert E op table set_table p update create).
Proof. unfold prisma.upsert. frame; auto using guard_preserves, fresh_preserves. Qed.

Lemma track_findUnique_preserves E k : preserves f (prisma.track_findUnique E k).
Proof. unfold prisma.track_findUnique. frame; auto using guard_preserves. Qed.

Lemma connect_preserves E : preserves f (prisma.connect E).
Proof.
  unfold prisma.connect. frame; auto using guard_preserves.
Qed.

Lemma call_preserves E ev : quiet ev = true → preserves f (containerClient.call E ev).
Proof.
  intros. unfold containerClient.call. frame.
Qed.

Lemma ensureContainerExists_preserves E :
  preserves f (SpotifySeeder.ensureContainerExists E).
Proof.
  unfold SpotifySeeder.ensureContainerExists, containerClient.exists_,
    containerClient.create.
  frame; auto using console_log_preserves, console_error_preserves, call_preserves.
Qed.

Lemma getAccessToken_preserves E : preserves f (SpotifySeeder.getAccessToken E).
Proof.
  unfold SpotifySeeder.getAccessToken, SpotifySeeder.requestToken.
  frame; auto using console_log_preserves, console_error_preserves, http_preserves.
Qed.

Lemma fetch_batches_preserves E fuel p limit total offset acc :
  preserves f (SpotifySeeder.fetch_batches E fuel p limit total offset acc).
Proof.
  revert offset acc. induction fuel as [| fuel IH]; intros offset acc; simpl.
  - case_bool_decide; [intros w; reflexivity | frame].
  - case_bool_decide; [| frame].
    frame; auto using http_preserves, delay_preserves.
Qed.

Lemma fetchPlaylist_preserves E fuel p limit :
  preserves f (SpotifySeeder.fetchPlaylist E fuel p limit).
Proof.
  unfold SpotifySeeder.fetchPlaylist.
  frame; auto using getAccessToken_preserves, http_preserves,
    fetch_batches_preserves, console_error_preserves.
Qed.

#[local] Hint Resolve upsert_preserves track_findUnique_preserves : frame.

Lemma upsertArtist_preserves E data : preserves f (SpotifySeeder.upsertArtist E data).
Proof.
  unfold SpotifySeeder.upsertArtist, prisma.artist_upsert.
  frame.
Qed.

Lemma upsertAlbum_preserves E data : preserves f (SpotifySeeder.upsertAlbum E data).
Proof.
  unfold SpotifySeeder.upsertAlbum, prisma.album_upsert.
  frame.
Qed.

Lemma upsertTrack_preserves E data albumId :
  preserves f (SpotifySeeder.upsertTrack E data albumId).
Proof.
  unfold SpotifySeeder.upsertTrack, prisma.track_upsert.
  frame.
Qed.

Lemma upsertPlaylist_preserves E data : preserves f (SpotifySeeder.upsertPlaylist E data).
Proof.
  unfold SpotifySeeder.upsertPlaylist, prisma.playlist_upsert.
  frame.
Qed.

Lemma createAlbumArtistRelations_preserves E albumId artistIds :
  preserves f (SpotifySeeder.createAlbumArtistRelations E albumId artistIds).
Proof.
  unfold SpotifySeeder.createAlbumArtistRelations.
  frame.
  induction artistIds as [| artistId rest IH]; simpl; frame.
Qed.

Lemma createTrackArtistRelations_preserves E trackId artistIds :
  preserves f (SpotifySeeder.createTrackArtistRelations E trackId artistIds).
Proof.
  unfold SpotifySeeder.createTrackArtistRelations.
  frame.
  induction artistIds as [| artistId rest IH]; simpl; frame.
Qed.

Lemma createPlaylistTrackRelations_preserves E playlistId tracks addedAt :
  preserves f (SpotifySeeder.createPlaylistTrackRelations E playlistId tracks addedAt).
Proof.
  unfold SpotifySeeder.createPlaylistTrackRelations.
  frame.
  generalize 0. induction tracks as [| trackItem rest IH]; intros i; simpl; frame.
Qed.

Lemma process_artists_preserves E l artistIds processedData :
  preserves f (SpotifySeeder.process_artists E l artistIds processedData).
Proof.
  revert artistIds processedData.
  induction l as [| artist rest IH]; intros artistIds processedData; simpl; frame.
Qed.

(** The guard of the cover step reads the Map after the album was put
    into it, so it always finds the album. *)
Lemma has_album_after_set k v processedData :
  SpotifySeeder.has_album k (SpotifySeeder.set_album k v processedData) = true.
Proof.
  unfold SpotifySeeder.has_album, SpotifySeeder.set_album. simpl.
  apply bool_decide_eq_true. rewrite lookup_insert_eq. by eexists.
Qed.

Lemma process_record_preserves E n i trackItem processedData :
  preserves f (SpotifySeeder.process_record E n i trackItem processedData).
Proof.
  unfold SpotifySeeder.process_record.
  apply preserves_bind; [apply preserves_read_of | intros track].
  apply preserves_bind; [apply process_artists_preserves | intros r].
  apply preserves_bind; [apply upsertAlbum_preserves | intros processedAlbum].
  cbv zeta. rewrite has_album_after_set. simpl negb. cbv iota.
  apply preserves_bind; [apply console_log_preserves | intros _].
  apply preserves_bind; [apply createAlbumArtistRelations_preserves | intros _].
  apply preserves_bind; [apply upsertTrack_preserves | intros processedTrack].
  apply preserves_bind; [apply createTrackArtistRelations_preserves | intros _].
  apply preserves_bind; [| intros _; apply preserves_ret].
  case_bool_decide; [apply delay_preserves | apply preserves_ret].
Qed.

Lemma process_records_preserves E n i tracks processedData :
  preserves f (SpotifySeeder.process_records E n i tracks processedData).
Proof.
  revert i processedData.
  induction tracks as [| trackItem rest IH]; intros i processedData; simpl.
  - apply preserves_ret.
  - apply preserves_bind; [apply process_record_preserves | intros ?; apply IH].
Qed.

Lemma processTracks_preserves E playlist :
  preserves f (SpotifySeeder.processTracks E playlist).
Proof.
  unfold SpotifySeeder.processTracks. cbv zeta.
  apply preserves_try_catch; [| intros ?; frame].
  apply preserves_bind; [apply upsertPlaylist_preserves | intros stored].
  apply preserves_bind; [apply process_records_preserves | intros ?].
  apply preserves_bind; [apply createPlaylistTrackRelations_preserves | intros _].
  frame.
Qed.

Lemma album_getAccessToken_preserves E : preserves f (AlbumCoverSeeder.getAccessToken E).
Proof.
  unfold AlbumCoverSeeder.getAccessToken, AlbumCoverSeeder.requestToken. frame.
Qed.

Lemma fetchAlbumFromSpotify_preserves E spotifyId :
  preserves f (AlbumCoverSeeder.fetchAlbumFromSpotify E spotifyId).
Proof.
  unfold AlbumCoverSeeder.fetchAlbumFromSpotify, AlbumCoverSeeder.get_album.
  frame; auto using album_getAccessToken_preserves.
Qed.

Lemma album_cover_preserves E albumData albumId :
  preserves f (AlbumCoverSeeder.downloadAndStoreAlbumCover E albumData albumId).
Proof.
  unfold AlbumCoverSeeder.downloadAndStoreAlbumCover, containerClient.upload,
    prisma.media_create, AlbumCoverSeeder.require_client.
  frame; auto using call_preserves.
Qed.

Lemma media_findFirst_preserves E albumId type :
  preserves f (prisma.media_findFirst E albumId type).
Proof. unfold prisma.media_findFirst. frame. Qed.

End Insensitive.

(** ** Cover archiving inside the import loop *)

(** C1. The import loop never starts the archiving of a cover: whatever
    the playlist and the environment, [processTracks] adds no image
    download and no blob upload to the effects, also for the first track of
    an album.  (So the step is not repeated for later tracks of an album,
    and it is not taken for the first one either.) *)
Theorem processTracks_never_archives (E : Env) (playlist : PlaylistData) (w : World) :
  cover_events (snd (SpotifySeeder.processTracks E playlist w)) = cover_events w.
Proof.
  apply (processTracks_preserves cover_events (fun e => negb (is_cover_event e)));
    try reflexivity.
  intros e w0 Hquiet. unfold cover_events. simpl.
  rewrite List.filter_app. simpl.
  apply negb_true_iff in Hquiet. rewrite Hquiet. apply app_nil_r.
Qed.

(** ** Paged fetch *)

Lemma offsets_from_seq (n : nat) (offset limit : Z) :
  offsets_from n offset limit = (λ k, offset + Z.of_nat k * limit)%Z <$> seq 0 n.
Proof.
  revert offset. induction n as [| n IH]; intros offset; [reflexivity |].
  simpl. f_equal; [lia |].
  rewrite IH, <- fmap_S_seq, <- list_fmap_compose.
  apply list_fmap_ext. intros _ k _. simpl. lia.
Qed.

Lemma page_count_covers (total limit : Z) :
  (0 < limit)%Z →
  (total ≤ Z.of_nat (page_count total limit) * limit)%Z ∧
  (page_count total limit ≠ 0 →
   ((Z.of_nat (page_count total limit) - 1) * limit < total)%Z).
Proof.
  intros Hlimit. unfold page_count.
  pose proof (Z.div_mod (total + limit - 1) limit ltac:(lia)) as Hdiv.
  pose proof (Z.mod_pos_bound (total + limit - 1) limit Hlimit) as Hmod.
  set (q := ((total + limit - 1) / limit)%Z) in *.
  destruct (decide (q ≤ 0)%Z) as [Hq | Hq].
  - replace (Z.to_nat q) with 0 by lia. split; [nia | done].
  - rewrite Z2Nat.id by lia. split; [nia | intros _; nia].
Qed.

Lemma fetch_batches_spec (E : Env) (playlistId : string) (limit total : Z)
    (page : Z -> list TrackItem) :
  (0 < limit)%Z →
  (∀ offset w, env_page E playlistId limit offset w = inr (page offset)) →
  ∀ (n : nat) (offset : Z) (acc : list TrackItem) (fuel : nat) (w : World),
    n ≤ fuel →
    (total ≤ offset + Z.of_nat n * limit)%Z →
    (n ≠ 0 → (offset + (Z.of_nat n - 1) * limit < total)%Z) →
    ∃ w',
      SpotifySeeder.fetch_batches E fuel playlistId limit total offset acc w =
        (Ok (acc ++ concat (page <$> offsets_from n offset limit)), w') ∧
      w_trace w' =
        w_trace w ++ intersperse (EvDelay 1000)
                       (EvGetPage playlistId limit <$> offsets_from n offset limit).
Proof.
  intros Hlimit Hpage.
  induction n as [| n IH]; intros offset acc fuel w Hfuel Hhi Hlo.
  - exists w. destruct fuel; simpl; rewrite bool_decide_eq_false_2 by lia;
      by rewrite !app_nil_r.
  - destruct fuel as [| fuel]; [lia |]. simpl.
    rewrite bool_decide_eq_true_2 by lia.
    run_monad. rewrite Hpage. cbv beta iota.
    set (w1 := advance (env_latency E) (add_event (EvGetPage playlistId limit offset) w)).
    destruct n as [| n].
    + rewrite bool_decide_eq_false_2 by lia.
      destruct (IH (offset + limit)%Z (acc ++ page offset) fuel w1) as (w' & Hrun & Htrace);
        [lia | lia | done |].
      rewrite Hrun. exists w'. split.
      * simpl. by rewrite !app_nil_r.
      * rewrite Htrace. simpl. by rewrite app_nil_r.
    + rewrite bool_decide_eq_true_2 by lia.
      set (w2 := advance RATE_LIMIT_DELAY (add_event (EvDelay RATE_LIMIT_DELAY) w1)).
      destruct (IH (offset + limit)%Z (acc ++ page offset) fuel w2) as (w' & Hrun & Htrace);
        [lia | lia | lia |].
      rewrite Hrun. exists w'. split.
      * f_equal. simpl. by rewrite <- !app_assoc.
      * rewrite Htrace. simpl. by rewrite <- !app_assoc.
Qed.

Lemma getAccessToken_succeeds (E : Env) (w : World) :
  (∀ w0, ∃ response, env_token E w0 = inr response) →
  ∃ token w1 pre,
    SpotifySeeder.getAccessToken E w = (Ok token, w1) ∧
    w_trace w1 = w_trace w ++ pre ∧ (pre = [] ∨ pre = [EvTokenRequest]).
Proof.
  intros Htoken.
  destruct (Htoken (advance (env_latency E) (add_event EvTokenRequest w)))
    as [response Hresp].
  assert (Hreq : ∃ token w1,
    try_catch (SpotifySeeder.requestToken E)
      (fun error => console_error "Error getting Spotify access token:" error ;;;
                    throw error) w = (Ok token, w1) ∧
    w_trace w1 = w_trace w ++ [EvTokenRequest]).
  { unfold SpotifySeeder.requestToken. run_monad. rewrite Hresp.
    do 2 eexists. split; reflexivity. }
  destruct Hreq as (token & w1 & Hrun & Htrace).
  unfold SpotifySeeder.getAccessToken. revert Hrun. run_monad. intros Hrun.
  destruct (w_accessToken w) as [cached |]; [destruct (w_tokenExpiry w) as [expiry |] |].
  - destruct (truthy_str (Some cached) && truthy_num (Some expiry)
              && bool_decide (w_clock w < expiry)%Z).
    + exists cached, w, []. rewrite app_nil_r. auto.
    + exists token, w1, [EvTokenRequest]. auto.
  - exists token, w1, [EvTokenRequest]. auto.
  - exists token, w1, [EvTokenRequest]. auto.
Qed.

(** C6. fetchPlaylist with page size [limit] > 0 on a collection whose
    metadata report [total] items, when the token, the metadata and every
    page can be had: with fuel for ceil(total/limit) turns the loop ends;
    the pages are requested at the offsets 0, limit, 2*limit, ... below
    [total], in that order; the items returned are the pages' items
    concatenated in that order; the effects after the metadata request are
    exactly the page requests with one 1000 ms delay between every two
    neighbours, so none before the first and none after the last; every
    offset requested is below [total] and the next one would not be. *)
Theorem fetchPlaylist_pages_in_order (E : Env) (fuel : nat) (playlistId : string)
    (limit : Z) (meta : PlaylistData) (page : Z -> list TrackItem) (w : World) :
  (0 < limit)%Z →
  (∀ w0, ∃ response, env_token E w0 = inr response) →
  (∀ w0, env_playlist E playlistId w0 = inr meta) →
  (∀ offset w0, env_page E playlistId limit offset w0 = inr (page offset)) →
  page_count (pd_tracks_total meta) limit ≤ fuel →
  let offsets := (λ k, Z.of_nat k * limit)%Z
                   <$> seq 0 (page_count (pd_tracks_total meta) limit) in
  ∃ playlist w' pre,
    SpotifySeeder.fetchPlaylist E fuel playlistId limit w = (Ok playlist, w') ∧
    pd_tracks_items playlist = concat (page <$> offsets) ∧
    w_trace w' =
      w_trace w ++ pre ++ [EvGetPlaylist playlistId]
        ++ intersperse (EvDelay 1000) (EvGetPage playlistId limit <$> offsets) ∧
    (pre = [] ∨ pre = [EvTokenRequest]) ∧
    (∀ offset, offset ∈ offsets → (0 ≤ offset < pd_tracks_total meta)%Z) ∧
    (pd_tracks_total meta
       ≤ Z.of_nat (page_count (pd_tracks_total meta) limit) * limit)%Z.
Proof.
  intros Hlimit Htoken Hmeta Hpage Hfuel offsets.
  destruct (getAccessToken_succeeds E w Htoken) as (token & w1 & pre & Hget & Htr1 & Hpre).
  destruct (page_count_covers (pd_tracks_total meta) limit Hlimit) as [Hhi Hlo].
  set (w2 := advance (env_latency E) (add_event (EvGetPlaylist playlistId) w1)).
  destruct (fetch_batches_spec E playlistId limit (pd_tracks_total meta) page Hlimit Hpage
              (page_count (pd_tracks_total meta) limit) 0 [] fuel w2)
    as (w' & Hrun & Htr); [done | lia | intros; specialize (Hlo ltac:(done)); lia |].
  assert (Hoff : offsets_from (page_count (pd_tracks_total meta) limit) 0 limit = offsets).
  { rewrite offsets_from_seq. apply list_fmap_ext. intros _ k _. simpl. lia. }
  rewrite Hoff in Hrun, Htr.
  exists (SpotifySeeder.with_items meta (concat (page <$> offsets))), w', pre.
  split; [| split; [reflexivity | split; [| split; [assumption | split; [| exact Hhi]]]]].
  - unfold SpotifySeeder.fetchPlaylist. run_monad. rewrite Hget. cbv beta iota.
    rewrite Hmeta. cbv beta iota. fold w2. rewrite Hrun. reflexivity.
  - rewrite Htr. unfold w2. simpl. rewrite Htr1. by rewrite <- !app_assoc.
  - intros offset (k & -> & Hk%elem_of_seq)%list_elem_of_fmap.
    assert (Hn : page_count (pd_tracks_total meta) limit ≠ 0) by lia.
    specialize (Hlo Hn). nia.
Qed.

(** ** Playlist positions *)

Lemma replace_first_keeps {A} (p : A -> bool) (r x : A) (l : list A) :
  x ∈ l → p x = false → x ∈ prisma.replace_first p r l.
Proof.
  induction l as [| y l IH]; simpl; [done |].
  rewrite elem_of_cons. intros [-> | Hx] Hpx.
  - rewrite Hpx. apply list_elem_of_here.
  - destruct (p y); apply list_elem_of_further; auto.
Qed.

Lemma upsert_list_keeps {A} (p : A -> bool) (r x : A) (l : list A) :
  x ∈ l → p x = false → x ∈ upsert_list p r l.
Proof.
  intros Hx Hpx. unfold upsert_list. destruct (find p l).
  - by apply replace_first_keeps.
  - apply elem_of_app. by left.
Qed.

Lemma upsert_list_new {A} (p : A -> bool) (r : A) (l : list A) :
  find p l = None → upsert_list p r l = l ++ [r].
Proof. intros H. unfold upsert_list. by rewrite H. Qed.

Lemma upsert_list_has {A} (p : A -> bool) (r : A) (l : list A) :
  r ∈ upsert_list p r l.
Proof.
  induction l as [| y l IH]; unfold upsert_list in *; simpl.
  - apply list_elem_of_here.
  - destruct (p y); [apply list_elem_of_here |].
    destruct (find p l); simpl; apply list_elem_of_further; exact IH.
Qed.

Lemma playlistTrack_key_true (playlistId trackId position : nat) (r : PlaylistTrack) :
  prisma.playlistTrack_key playlistId trackId position r = true ↔
  pt_playlist_id r = playlistId ∧ pt_track_id r = trackId ∧ pt_position r = position.
Proof.
  unfold prisma.playlistTrack_key.
  rewrite !andb_true_iff, !bool_decide_eq_true. tauto.
Qed.

Lemma playlistTrack_key_older (playlistId trackId i : nat) (r : PlaylistTrack) :
  (pt_playlist_id r = playlistId → pt_position r ≤ i) →
  prisma.playlistTrack_key playlistId trackId (i + 1) r = false.
Proof.
  intros H. apply not_true_is_false. rewrite playlistTrack_key_true.
  intros (Hp & _ & Hpos). specialize (H Hp). lia.
Qed.

Lemma replace_first_elem {A} (p : A -> bool) (r x : A) (l : list A) :
  x ∈ prisma.replace_first p r l → x ∈ l ∨ x = r.
Proof.
  induction l as [| y l IH]; simpl; [by left |].
  destruct (p y); rewrite !elem_of_cons; intros [-> | Hx]; auto.
  destruct (IH Hx); auto.
Qed.

Lemma upsert_list_elem {A} (p : A -> bool) (r x : A) (l : list A) :
  x ∈ upsert_list p r l → x ∈ l ∨ x = r.
Proof.
  unfold upsert_list. destruct (find p l).
  - apply replace_first_elem.
  - rewrite elem_of_app, list_elem_of_singleton. tauto.
Qed.

Lemma replace_first_length {A} (p : A -> bool) (r : A) (l : list A) :
  length (prisma.replace_first p r l) = length l.
Proof. induction l as [| y l IH]; simpl; [done |]. destruct (p y); simpl; congruence. Qed.

Lemma upsert_list_length {A} (p : A -> bool) (r : A) (l : list A) :
  length (upsert_list p r l) ≤ S (length l).
Proof.
  unfold upsert_list. destruct (find p l).
  - rewrite replace_first_length. lia.
  - rewrite length_app. simpl. lia.
Qed.

Lemma bind_assoc {A B C} (c : M A) (k : A -> M B) (h : B -> M C) (w : World) :
  bind (bind c k) h w = bind c (λ a, bind (k a) h) w.
Proof. unfold bind. by destruct (c w) as [[a | e |] w1]. Qed.

Lemma bind_ext {A B} (c : M A) (k k' : A -> M B) (w : World) :
  (∀ a w1, k a w1 = k' a w1) → bind c k w = bind c k' w.
Proof. intros H. unfold bind. destruct (c w) as [[a | e |] w1]; auto. Qed.

(** The loop over [pre ++ post] is the loop over [pre], then the loop over
    [post] from the index it has reached. *)
Lemma link_playlist_tracks_app (E : Env) (playlistId : nat) (pre post : list TrackItem) :
  ∀ (i : nat) (w : World),
    SpotifySeeder.link_playlist_tracks E playlistId i (pre ++ post) w =
      (SpotifySeeder.link_playlist_tracks E playlistId i pre ;;;
       SpotifySeeder.link_playlist_tracks E playlistId (i + length pre) post) w.
Proof.
  induction pre as [| item pre IH]; intros i w.
  - simpl. by rewrite Nat.add_0_r.
  - cbn [app SpotifySeeder.link_playlist_tracks length].
    symmetry. rewrite bind_assoc. apply bind_ext. intros data w1.
    rewrite bind_assoc. apply bind_ext. intros track w2.
    rewrite bind_assoc. apply bind_ext. intros [] w3.
    rewrite IH. by replace (i + S (length pre)) with (S i + length pre) by lia.
Qed.

(** The loop writes to the playlist_tracks table only. *)
Lemma link_playlist_tracks_tracks (E : Env) (playlistId : nat) (items : list TrackItem) :
  ∀ i, preserves (λ w, tracks (w_db w))
         (SpotifySeeder.link_playlist_tracks E playlistId i items).
Proof.
  induction items as [| item rest IH]; intros i; simpl; [apply preserves_ret |].
  apply preserves_bind; [apply preserves_read_of | intros data].
  apply preserves_bind.
  { unfold prisma.track_findUnique, prisma.guard. intros w. run_monad.
    by destruct (env_db E _ w). }
  intros track. apply preserves_bind; [| intros _; apply IH].
  destruct track as [track |]; [| apply preserves_ret].
  apply preserves_bind; [| intros _; apply preserves_ret].
  intros w. unfold prisma.playlistTrack_upsert, prisma.upsert, prisma.guard. run_monad.
  destruct (env_db E _ w); [done |]. cbv beta iota.
  by destruct (find _ (playlist_tracks (w_db w))).
Qed.

(** An item whose track the store does not hold: the loop goes on with
    the next item at the next index, in the same world. *)
Lemma link_playlist_tracks_skip (E : Env) (playlistId i : nat) (item : TrackItem)
    (rest : list TrackItem) (track : TrackData) (w : World) :
  ti_track item = Some track →
  env_db E (OpFindTrack (td_id track)) w = None →
  find (by_spotify_id (td_id track)) (tracks (w_db w)) = None →
  SpotifySeeder.link_playlist_tracks E playlistId i (item :: rest) w =
    SpotifySeeder.link_playlist_tracks E playlistId (S i) rest w.
Proof.
  intros Htrack Hop Hfind. cbn [SpotifySeeder.link_playlist_tracks].
  rewrite Htrack. unfold prisma.track_findUnique, prisma.guard, read_of. run_monad.
  rewrite Hop. cbv beta iota. unfold by_spotify_id in Hfind. by rewrite Hfind.
Qed.

(** An item without a track: the read of its id fails the loop there. *)
Lemma link_playlist_tracks_null (E : Env) (playlistId i : nat) (item : TrackItem)
    (rest : list TrackItem) (w : World) :
  ti_track item = None →
  SpotifySeeder.link_playlist_tracks E playlistId i (item :: rest) w =
    (Throw (null_property_error "id"), w).
Proof. intros Htrack. cbn [SpotifySeeder.link_playlist_tracks]. by rewrite Htrack. Qed.

(** The loop on a store that accepts every request, over items that all
    carry a track. *)
Lemma link_playlist_tracks_run (E : Env) (playlistId : nat) :
  (∀ op w, env_db E op w = None) →
  ∀ (items : list TrackItem) (i : nat) (w : World),
    Forall (λ item, is_Some (ti_track item)) items →
    ∃ w',
      SpotifySeeder.link_playlist_tracks E playlistId i items w = (Ok tt, w') ∧
      playlist_tracks (w_db w') =
        linked (tracks (w_db w)) playlistId i items (playlist_tracks (w_db w)) ∧
      tracks (w_db w') = tracks (w_db w) ∧
      w_log w' = w_log w ∧ w_trace w' = w_trace w.
Proof.
  intros Hdb. induction items as [| item rest IH]; intros i w Hall.
  - by exists w.
  - apply Forall_cons in Hall as [[track Htrack] Hall].
    cbn [SpotifySeeder.link_playlist_tracks linked]. unfold stored_track.
    rewrite Htrack. cbn [mbind option_bind read_of].
    unfold prisma.track_findUnique, prisma.guard. run_monad. rewrite Hdb. cbv beta iota.
    fold (by_spotify_id (td_id track)).
    destruct (find (by_spotify_id (td_id track)) (tracks (w_db w)))
      as [t |] eqn:Hfind; [| by apply IH].
    unfold prisma.playlistTrack_upsert.
    set (key := prisma.playlistTrack_key playlistId (t_id t) (i + 1)).
    set (row := SpotifySeeder.playlist_track_row playlistId (t_id t) i item).
    destruct (find key (playlist_tracks (w_db w))) as [old |] eqn:Hold.
    + rewrite (upsert_present _ _ _ _ _ _ _ _ old (Hdb _ _) Hold). cbv beta iota.
      assert (Hrow : {| pt_playlist_id := pt_playlist_id old;
                        pt_track_id := pt_track_id old;
                        pt_position := i + 1;
                        pt_added_at := ti_added_at item;
                        pt_added_by_id := or_null (ti_added_by item ≫= ab_id);
                        pt_added_by_name :=
                          or_null (ti_added_by item ≫= ab_display_name) |} = row).
      { apply find_some in Hold as [_ Hkey].
        apply playlistTrack_key_true in Hkey as (-> & -> & _). reflexivity. }
      rewrite Hrow.
      match goal with |- context [SpotifySeeder.link_playlist_tracks _ _ _ _ ?w1] =>
        destruct (IH (S i) w1 Hall) as (w' & Hrun & Htab & Htr & Hlog & Htrace) end.
      exists w'. rewrite Hrun. simpl in *. unfold upsert_list. rewrite Hold.
      by rewrite Htab.
    + rewrite (upsert_absent _ _ _ _ _ _ _ _ (Hdb _ _) Hold). cbv beta iota.
      match goal with |- context [SpotifySeeder.link_playlist_tracks _ _ _ _ ?w1] =>
        destruct (IH (S i) w1 Hall) as (w' & Hrun & Htab & Htr & Hlog & Htrace) end.
      exists w'. rewrite Hrun. simpl in *. unfold upsert_list. rewrite Hold.
      by rewrite Htab.
Qed.

Section Linked.
Context (stored : list Track) (playlistId : nat).

(** A row stays when no item is written under its key. *)
Lemma linked_stays (items : list TrackItem) :
  ∀ (i : nat) (table : list PlaylistTrack) (x : PlaylistTrack),
    x ∈ table →
    (∀ j item t, items !! j = Some item → stored_track stored item = Some t →
       prisma.playlistTrack_key playlistId (t_id t) (i + j + 1) x = false) →
    x ∈ linked stored playlistId i items table.
Proof.
  induction items as [| item rest IH]; intros i table x Hx Hkey; simpl; [done |].
  apply IH.
  - destruct (stored_track stored item) as [t |] eqn:Ht; [| done].
    apply upsert_list_keeps; [done |].
    specialize (Hkey 0 item t eq_refl Ht). by rewrite Nat.add_0_r in Hkey.
  - intros j item' t Hj Ht. specialize (Hkey (S j) item' t Hj Ht).
    by replace (S i + j + 1) with (i + S j + 1) by lia.
Qed.

Lemma linked_keeps (items : list TrackItem) :
  ∀ (i : nat) (table : list PlaylistTrack) (x : PlaylistTrack),
    x ∈ table → (pt_playlist_id x = playlistId → pt_position x ≤ i) →
    x ∈ linked stored playlistId i items table.
Proof.
  intros i table x Hx Hpos. apply linked_stays; [done |].
  intros j item t _ _. replace (i + j + 1) with ((i + j) + 1) by lia.
  apply playlistTrack_key_older. intros Hp. specialize (Hpos Hp). lia.
Qed.

Lemma linked_has (items : list TrackItem) :
  ∀ (i : nat) (table : list PlaylistTrack) (j : nat) (item : TrackItem) (t : Track),
    items !! j = Some item →
    stored_track stored item = Some t →
    SpotifySeeder.playlist_track_row playlistId (t_id t) (i + j) item
      ∈ linked stored playlistId i items table.
Proof.
  induction items as [| first rest IH]; intros i table j item t Hj Hfind; [done |].
  destruct j as [| j]; simpl in *.
  - injection Hj as ->. rewrite Hfind, Nat.add_0_r.
    apply linked_keeps; [apply upsert_list_has |]. simpl. lia.
  - replace (i + S j) with (S i + j) by lia. by apply IH.
Qed.

(** Every row of the table afterwards was there before or is the row of
    an item whose track is stored. *)
Lemma linked_elem (items : list TrackItem) :
  ∀ (i : nat) (table : list PlaylistTrack) (r : PlaylistTrack),
    r ∈ linked stored playlistId i items table →
    r ∈ table ∨
    ∃ j item t, items !! j = Some item ∧ stored_track stored item = Some t ∧
      r = SpotifySeeder.playlist_track_row playlistId (t_id t) (i + j) item.
Proof.
  induction items as [| first rest IH]; intros i table r Hr; simpl in Hr; [by left |].
  apply IH in Hr as [Hr | (j & item & t & Hj & Ht & ->)].
  - destruct (stored_track stored first) as [t |] eqn:Ht; [| by left].
    apply upsert_list_elem in Hr as [Hr | ->]; [by left |].
    right. exists 0, first, t. by rewrite Nat.add_0_r.
  - right. exists (S j), item, t. split; [done |]. split; [done |].
    by replace (i + S j) with (S i + j) by lia.
Qed.

(** At most one row more for each item whose track is stored. *)
Lemma linked_length (items : list TrackItem) :
  ∀ (i : nat) (table : list PlaylistTrack),
    length (linked stored playlistId i items table)
      ≤ length table + length (omap (stored_track stored) items).
Proof.
  induction items as [| item rest IH]; intros i table; [simpl; lia |].
  cbn [linked].
  change (omap (stored_track stored) (item :: rest))
    with (match stored_track stored item with
          | Some y => y :: omap (stored_track stored) rest
          | None => omap (stored_track stored) rest
          end).
  etrans; [apply IH |].
  destruct (stored_track stored item) as [t |]; cbn [length]; [| lia].
  pose proof (upsert_list_length
                (prisma.playlistTrack_key playlistId (t_id t) (i + 1))
                (SpotifySeeder.playlist_track_row playlistId (t_id t) i item) table).
  lia.
Qed.

Lemma linked_fresh (items : list TrackItem) :
  ∀ (i : nat) (table : list PlaylistTrack),
    (∀ x, x ∈ table → pt_playlist_id x = playlistId → pt_position x ≤ i) →
    List.filter (of_playlist playlistId) (linked stored playlistId i items table) =
      List.filter (of_playlist playlistId) table
        ++ expected_rows stored playlistId i items.
Proof.
  induction items as [| item rest IH]; intros i table Hold; simpl.
  - by rewrite app_nil_r.
  - destruct (stored_track stored item) as [t |]; simpl.
    + assert (Hnew : find (prisma.playlistTrack_key playlistId (t_id t) (i + 1)) table
                     = None).
      { apply find_absent. intros x Hx. apply playlistTrack_key_older. auto. }
      rewrite (upsert_list_new _ _ _ Hnew), IH.
      * rewrite List.filter_app. simpl. unfold of_playlist at 2. simpl.
        rewrite bool_decide_eq_true_2 by done. by rewrite <- app_assoc.
      * intros x [Hx | ->%list_elem_of_singleton]%elem_of_app Hp; simpl; [| lia].
        specialize (Hold x Hx Hp). lia.
    + apply IH. intros x Hx Hp. specialize (Hold x Hx Hp). lia.
Qed.


Lemma expected_rows_elem (items : list TrackItem) :
  ∀ i x, x ∈ expected_rows stored playlistId i items →
    ∃ j item t, items !! j = Some item ∧
      stored_track stored item = Some t ∧
      x = SpotifySeeder.playlist_track_row playlistId (t_id t) (i + j) item.
Proof.
  induction items as [| first rest IH]; intros i x Hx; simpl in Hx;
    [by apply elem_of_nil in Hx |].
  apply elem_of_app in Hx as [Hx | Hx].
  - destruct (stored_track stored first) as [t |] eqn:Hfind;
      [| by apply elem_of_nil in Hx].
    apply list_elem_of_singleton in Hx as ->.
    exists 0, first, t. by rewrite Nat.add_0_r.
  - destruct (IH (S i) x Hx) as (j & item & t & Hj & Hfind & ->).
    exists (S j), item, t. split; [done |]. split; [done |].
    by replace (i + S j) with (S i + j) by lia.
Qed.

End Linked.

Lemma find_stored (stored : list Track) (k : string) :
  (∃ t, t ∈ stored ∧ t_spotify_id t = k) ↔ is_Some (find (by_spotify_id k) stored).
Proof.
  split.
  - intros (t & Ht & Hk). destruct (find (by_spotify_id k) stored) eqn:Hfind; [done |].
    apply list_elem_of_In in Ht.
    pose proof (find_none _ _ Hfind t Ht) as Hno.
    unfold by_spotify_id in Hno. by rewrite bool_decide_eq_true_2 in Hno.
  - intros [t Hfind]. apply find_some in Hfind as [Hin Hk].
    exists t. split; [by apply list_elem_of_In |]. by apply bool_decide_eq_true in Hk.
Qed.

(** The row an item names: it carries a track, and the row has that
    track's spotify_id. *)
Lemma stored_track_some (stored : list Track) (item : TrackItem) (t : Track) :
  stored_track stored item = Some t →
  ∃ track, ti_track item = Some track ∧ t ∈ stored ∧ t_spotify_id t = td_id track.
Proof.
  unfold stored_track. destruct (ti_track item) as [track |]; [| done]. simpl.
  intros Hfind. apply find_some in Hfind as [Hin Hk].
  exists track. split; [done |]. split; [by apply list_elem_of_In |].
  by apply bool_decide_eq_true in Hk.
Qed.


Lemma stored_track_found (stored : list Track) (item : TrackItem) (track : TrackData) :
  ti_track item = Some track →
  (∃ t, t ∈ stored ∧ t_spotify_id t = td_id track) →
  is_Some (stored_track stored item).
Proof.
  intros Htrack Hex. unfold stored_track. rewrite Htrack. simpl.
  by apply find_stored.
Qed.

Lemma stored_track_missing (stored : list Track) (item : TrackItem) (track : TrackData) :
  ti_track item = Some track →
  (∀ t, t ∈ stored → t_spotify_id t ≠ td_id track) →
  stored_track stored item = None.
Proof.
  intros Htrack Hno. unfold stored_track. rewrite Htrack. simpl.
  apply find_absent. intros t Ht. apply bool_decide_eq_false. auto.
Qed.

Lemma rows_of_elem (playlistId : nat) (w : World) (r : PlaylistTrack) :
  r ∈ rows_of playlistId w ↔
  r ∈ playlist_tracks (w_db w) ∧ pt_playlist_id r = playlistId.
Proof.
  unfold rows_of, of_playlist.
  rewrite !list_elem_of_In, filter_In, bool_decide_eq_true. tauto.
Qed.

Lemma createPlaylistTrackRelations_run (E : Env) (playlistId : nat)
    (items : list TrackItem) (addedAt : option string) (w : World) :
  (∀ op w0, env_db E op w0 = None) →
  Forall (λ item, is_Some (ti_track item)) items →
  ∃ w',
    SpotifySeeder.createPlaylistTrackRelations E playlistId items addedAt w = (Ok tt, w') ∧
    playlist_tracks (w_db w') =
      linked (tracks (w_db w)) playlistId 0 items (playlist_tracks (w_db w)) ∧
    w_log w' = w_log w ∧
    (rows_of playlistId w = [] →
     rows_of playlistId w' = expected_rows (tracks (w_db w)) playlistId 0 items).
Proof.
  intros Hdb Hall.
  destruct (link_playlist_tracks_run E playlistId Hdb items 0 w Hall)
    as (w' & Hrun & Htab & _ & Hlog & _).
  exists w'. unfold SpotifySeeder.createPlaylistTrackRelations. run_monad.
  rewrite Hrun. repeat split; [done | done |].
  intros Hfresh. unfold rows_of in *. rewrite Htab, linked_fresh, Hfresh; [done |].
  intros x Hx Hp. assert (Hin : x ∈ rows_of playlistId w) by by apply rows_of_elem.
  unfold rows_of in Hin. rewrite Hfresh in Hin. by apply elem_of_nil in Hin.
Qed.

(** An item without a track fails the call where the loop reaches it: the
    TypeError is logged and raised again. *)
Lemma createPlaylistTrackRelations_null (E : Env) (playlistId : nat)
    (pre post : list TrackItem) (item : TrackItem) (addedAt : option string)
    (w : World) :
  (∀ op w0, env_db E op w0 = None) →
  Forall (λ item, is_Some (ti_track item)) pre →
  ti_track item = None →
  ∃ w',
    SpotifySeeder.createPlaylistTrackRelations E playlistId (pre ++ item :: post)
      addedAt w
      = (Throw (null_property_error "id"), w') ∧
    playlist_tracks (w_db w') =
      linked (tracks (w_db w)) playlistId 0 pre (playlist_tracks (w_db w)).
Proof.
  intros Hdb Hpre Hnull.
  destruct (link_playlist_tracks_run E playlistId Hdb pre 0 w Hpre)
    as (w1 & Hrun & Htab & _).
  unfold SpotifySeeder.createPlaylistTrackRelations, try_catch.
  rewrite link_playlist_tracks_app. unfold bind at 1. rewrite Hrun.
  rewrite (link_playlist_tracks_null _ _ _ _ _ _ Hnull). run_monad.
  eexists. split; [reflexivity |]. exact Htab.
Qed.



(** C10. createPlaylistTrackRelations on a store that accepts every
    request.  An item whose track is not stored is passed over: the loop
    goes on with the next item at the next index, in the world the items
    before it left.  When every item carries a track, the call ends
    normally and logs nothing; every row of the table afterwards was there
    before or is the row of an item whose track is stored, at that item's
    index + 1, and the table has at most one row more for each such item;
    an item whose track is stored has its row at index + 1, whatever was
    passed over before it; and in a playlist that had no rows, no row has
    the position of an item that was passed over. *)
Theorem missing_tracks_are_skipped_silently (E : Env) (playlistId : nat)
    (items : list TrackItem) (addedAt : option string) (w : World) :
  (∀ op w0, env_db E op w0 = None) →
  (∀ j item track, items !! j = Some item → ti_track item = Some track →
     (∀ t, t ∈ tracks (w_db w) → t_spotify_id t ≠ td_id track) →
     SpotifySeeder.link_playlist_tracks E playlistId 0 items w =
       (SpotifySeeder.link_playlist_tracks E playlistId 0 (take j items) ;;;
        SpotifySeeder.link_playlist_tracks E playlistId (S j) (drop (S j) items)) w) ∧
  (Forall (λ item, is_Some (ti_track item)) items →
   ∃ w',
     SpotifySeeder.createPlaylistTrackRelations E playlistId items addedAt w
       = (Ok tt, w') ∧
     w_log w' = w_log w ∧
     (∀ r, r ∈ playlist_tracks (w_db w') →
        r ∈ playlist_tracks (w_db w) ∨
        ∃ j item track t, items !! j = Some item ∧ ti_track item = Some track ∧
          t ∈ tracks (w_db w) ∧ t_spotify_id t = td_id track ∧
          r = SpotifySeeder.playlist_track_row playlistId (t_id t) j item) ∧
     length (playlist_tracks (w_db w'))
       ≤ length (playlist_tracks (w_db w))
         + length (omap (stored_track (tracks (w_db w))) items) ∧
     ∀ j item track, items !! j = Some item → ti_track item = Some track →
       ((∀ t, t ∈ tracks (w_db w) → t_spotify_id t ≠ td_id track) →
        stored_track (tracks (w_db w)) item = None ∧
        (rows_of playlistId w = [] →
         ∀ r, r ∈ playlist_tracks (w_db w') → pt_playlist_id r = playlistId →
              pt_position r ≠ j + 1)) ∧
       ((∃ t, t ∈ tracks (w_db w) ∧ t_spotify_id t = td_id track) →
        ∃ t, t ∈ tracks (w_db w) ∧ t_spotify_id t = td_id track ∧
             pt_position (SpotifySeeder.playlist_track_row playlistId (t_id t) j item)
               = j + 1 ∧
             SpotifySeeder.playlist_track_row playlistId (t_id t) j item
               ∈ playlist_tracks (w_db w'))).
Proof.
  intros Hdb. split.
  - intros j item track Hj Htrack Hmissing.
    rewrite <- (take_drop_middle items j item Hj) at 1.
    rewrite link_playlist_tracks_app. unfold bind.
    pose proof (link_playlist_tracks_tracks E playlistId (take j items) 0 w) as Htracks.
    destruct (SpotifySeeder.link_playlist_tracks E playlistId 0 (take j items) w)
      as [[[] | e |] w1]; [| done | done].
    simpl in Htracks.
    rewrite length_take_le by (apply lookup_lt_Some in Hj; lia). simpl.
    apply (link_playlist_tracks_skip _ _ _ _ _ track); [done | apply Hdb |].
    rewrite Htracks. apply find_absent. intros t Ht. apply bool_decide_eq_false. auto.
  - intros Hcarry.
    destruct (createPlaylistTrackRelations_run E playlistId items addedAt w Hdb Hcarry)
      as (w' & Hrun & Htab & Hlog & Hrows).
    exists w'. split; [done |]. split; [done |]. split; [| split].
    + intros r Hr. rewrite Htab in Hr.
      apply linked_elem in Hr as [Hr | (j & item & t & Hj & Ht & ->)]; [by left |].
      destruct (stored_track_some _ _ _ Ht) as (track & Htrack & Hin & Hk).
      right. by exists j, item, track, t.
    + rewrite Htab. apply linked_length.
    + intros j item track Hj Htrack. split.
      * intros Hmissing.
        assert (Hnone : stored_track (tracks (w_db w)) item = None)
          by by apply (stored_track_missing _ _ track).
        split; [done |]. intros Hfresh r Hr Hp Hpos.
        assert (Hin : r ∈ rows_of playlistId w') by by apply rows_of_elem.
        rewrite (Hrows Hfresh) in Hin.
        apply expected_rows_elem in Hin as (j' & item' & t & Hj' & Hfind & ->).
        simpl in Hpos. assert (j' = j) as -> by lia.
        rewrite Hj in Hj'. injection Hj' as <-. congruence.
      * intros Hex.
        destruct (stored_track_found _ _ _ Htrack Hex) as [t Hfind].
        destruct (stored_track_some _ _ _ Hfind) as (track' & Htrack' & Hin & Hk).
        assert (track' = track) as -> by congruence.
        exists t. split; [done |]. split; [done |]. split; [done |].
        rewrite Htab. by apply (linked_has _ _ items 0 _ j item t).
Qed.

(** ** Entity upserts *)

Lemma artist_second_call_holds : artist_second_call_law.
Proof.
  intros E first second w ms Hid Hdb Hnew.
  destruct (artist_upsert_holds E first w (Hdb w)) as [Hcreate _].
  destruct (Hcreate Hnew) as (row1 & w1 & Hrun1 & Htab1 & Hcar1 & Hc1 & Hu1).
  assert (Hclock : w_clock w1 = w_clock w).
  { assert (H : preserves w_clock (SpotifySeeder.upsertArtist E first))
      by (apply upsertArtist_preserves; done).
    specialize (H w). by rewrite Hrun1 in H. }
  destruct (artist_upsert_holds E second (advance ms w1)) as [_ Hupdate];
    [rewrite Hid; apply Hdb |].
  destruct (Hupdate (artists (w_db w)) row1 []) as (row2 & w2 & Hrun2 & Htab2 & Hcar2 & Hi2 & Hc2 & Hu2).
  - done.
  - destruct Hcar1 as [-> _]. done.
  - rewrite app_nil_r, Hid. done.
  - exists row1, w1, row2, w2. repeat split; try done.
    + apply Hcar2. + apply Hcar2. + apply Hcar2. + apply Hcar2.
    + congruence.
    + rewrite Hu2. simpl. by rewrite Hclock.
Qed.

(** C5 (amended). upsertArtist, upsertAlbum and upsertTrack, keyed by
    spotify_id, when the store accepts the request: an unknown id makes a
    new row carrying all incoming values, NULL where the object has none;
    a known id has its row rewritten in place with every incoming value
    (null clears the column), updated_at set to the clock and id and
    created_at kept -- but a column whose property the incoming object
    lacks keeps the stored value, and a track keeps the album reference it
    was created with, the incoming one is written only on creation.  Two
    calls for one artist leave one row with the second call's values
    written over the first call's. *)
Theorem upsert_overwrites_all_but_album_reference :
  artist_upsert_law ∧ album_upsert_law ∧ track_upsert_law ∧ artist_second_call_law.
Proof.
  split; [apply artist_upsert_holds |].
  split; [apply album_upsert_holds |].
  split; [apply track_upsert_holds | apply artist_second_call_holds].
Qed.

(** C5 as stated fails: track "trk1" is stored under album row 3; imported
    again under album row 10, it is found and returned still under 3. *)
Lemma track_album_reference_not_overwritten :
  ∃ row w',
    SpotifySeeder.upsertTrack Sample.env Sample.moved 10 Sample.seeded = (Ok row, w') ∧
    t_name row = "One (single)" ∧ t_album_id row = 3 ∧ t_album_id row ≠ 10.
Proof.
  eexists _, _. split; [vm_compute; reflexivity |]. cbn. repeat split. lia.
Qed.

(** A property the incoming object lacks is not overwritten either:
    Artist A, stored with popularity 61, is presented again under a new
    name and without its popularity; the name is rewritten and the
    popularity stays 61. *)
Lemma absent_property_keeps_stored_value :
  ∃ row w',
    SpotifySeeder.upsertArtist Sample.env Sample.artistA_renamed Sample.seeded
      = (Ok row, w') ∧
    ad_popularity Sample.artistA_renamed = Undefined ∧
    a_name row = "Artist A (remastered)" ∧ a_popularity row = Some 61%Z ∧
    a_spotify_id <$> artists (w_db w') = a_spotify_id <$> artists (w_db Sample.seeded).
Proof.
  eexists _, _. split; [vm_compute; reflexivity |]. cbn. repeat split.
Qed.

(** ** Sequencing *)

Lemma bind_ok {A B} (c : M A) (k : A -> M B) (w w1 : World) (a : A) :
  c w = (Ok a, w1) → bind c k w = k a w1.
Proof. intros H. unfold bind. by rewrite H. Qed.

Lemma bind_throw {A B} (c : M A) (k : A -> M B) (w w1 : World) (e : JsError) :
  c w = (Throw e, w1) → bind c k w = (Throw e, w1).
Proof. intros H. unfold bind. by rewrite H. Qed.

Lemma try_catch_throw {A} (c : M A) (h : JsError -> M A) (w w1 : World) (e : JsError) :
  c w = (Throw e, w1) → try_catch c h w = h e w1.
Proof. intros H. unfold try_catch. by rewrite H. Qed.

(** ** Fatal failures *)

Lemma ensureContainerExists_returns (E : Env) (w : World) :
  ∃ w', SpotifySeeder.ensureContainerExists E w = (Ok tt, w').
Proof.
  unfold SpotifySeeder.ensureContainerExists, containerClient.exists_,
    containerClient.create, containerClient.call.
  destruct (env_azure E); run_monad; simpl; [| by eexists].
  destruct (env_blob E _); [by eexists |]. simpl.
  destruct (w_container w); simpl; [by eexists |].
  destruct (env_blob E _); by eexists.
Qed.

Lemma seedDatabase_fetch_fails (E : Env) (fuel : nat) (w w1 : World) (e : JsError) :
  SpotifySeeder.fetchPlaylist E fuel PLAYLIST_ID 100 w = (Throw e, w1) →
  SpotifySeeder.seedDatabase E fuel w =
    (Throw e, add_log (LogError " Seeding failed:" (err_message e)) w1).
Proof.
  intros Hfetch. unfold SpotifySeeder.seedDatabase.
  erewrite try_catch_throw; [| by apply bind_throw]. reflexivity.
Qed.

Lemma fetchPlaylist_auth_fails (E : Env) (fuel : nat) (playlistId : string) (limit : Z)
    (w : World) :
  w_accessToken w = None →
  (∀ w0, ∃ e, env_token E w0 = inl e) →
  ∃ e w1, SpotifySeeder.fetchPlaylist E fuel playlistId limit w = (Throw e, w1) ∧
          w_trace w1 = w_trace w ++ [EvTokenRequest].
Proof.
  intros Hnone Hauth.
  destruct (Hauth (advance (env_latency E) (add_event EvTokenRequest w))) as [e He].
  exists e. eexists.
  unfold SpotifySeeder.fetchPlaylist, SpotifySeeder.getAccessToken,
    SpotifySeeder.requestToken.
  run_monad. rewrite Hnone. cbv beta iota. rewrite He. split; reflexivity.
Qed.

Lemma main_configured (E : Env) (fuel : nat) (w : World) :
  configured E →
  SpotifySeeder.main E fuel w =
    match (prisma.connect E ;;;
           SpotifySeeder.ensureContainerExists E ;;;
           SpotifySeeder.seedDatabase E fuel) (set_token None None w) with
    | (Ok _, w') => (Returned, snd (prisma.disconnect w'))
    | (Throw error, w') =>
        (Exited 1, add_log (LogError " Script execution failed:" (err_message error)) w')
    | (Diverge, w') => (NoEnd, w')
    end.
Proof.
  intros (H1 & H2 & H3). unfold SpotifySeeder.main. by rewrite H1, H2, H3.
Qed.

(** The world in which [seedDatabase] starts, when the setup went through. *)
Lemma main_setup (E : Env) (w : World) :
  (∃ e w1, (prisma.connect E ;;; SpotifySeeder.ensureContainerExists E)
             (set_token None None w) = (Throw e, w1) ∧ w_db w1 = w_db w) ∨
  (∃ ws, (prisma.connect E ;;; SpotifySeeder.ensureContainerExists E)
           (set_token None None w) = (Ok tt, ws) ∧
         w_db ws = w_db w ∧ w_accessToken ws = None).
Proof.
  set (w0 := set_token None None w).
  assert (Hdb1 : preserves w_db (prisma.connect E))
    by (apply (connect_preserves _ (λ _, true)); done).
  assert (Htok1 : preserves w_accessToken (prisma.connect E))
    by (apply (connect_preserves _ (λ _, true)); done).
  assert (Hdb2 : preserves w_db (SpotifySeeder.ensureContainerExists E))
    by (apply (ensureContainerExists_preserves _ (λ _, true)); done).
  assert (Htok2 : preserves w_accessToken (SpotifySeeder.ensureContainerExists E))
    by (apply (ensureContainerExists_preserves _ (λ _, true)); done).
  specialize (Hdb1 w0). specialize (Htok1 w0).
  destruct (prisma.connect E w0) as [[[] | e |] w1] eqn:Hconnect.
  - right. destruct (ensureContainerExists_returns E w1) as [ws Hens].
    exists ws. split; [by rewrite (bind_ok _ _ _ _ _ Hconnect) |].
    specialize (Hdb2 w1). specialize (Htok2 w1).
    rewrite Hens in Hdb2, Htok2. simpl in *. split; congruence.
  - left. exists e, w1. split; [by rewrite (bind_throw _ _ _ _ _ Hconnect) | done].
  - exfalso. revert Hconnect. unfold prisma.connect, prisma.guard. run_monad.
    by destruct (env_db E OpConnect _).
Qed.

Lemma then_ok {B} (c1 c2 : M unit) (k : M B) (w0 ws : World) :
  (c1 ;;; c2) w0 = (Ok tt, ws) → (c1 ;;; c2 ;;; k) w0 = k ws.
Proof.
  unfold bind. destruct (c1 w0) as [[[] | e |] w1]; try discriminate.
  destruct (c2 w1) as [[[] | e |] w2]; try discriminate. by intros [= ->].
Qed.

Lemma then_throw {B} (c1 c2 : M unit) (k : M B) (w0 w1 : World) (e : JsError) :
  (c1 ;;; c2) w0 = (Throw e, w1) → (c1 ;;; c2 ;;; k) w0 = (Throw e, w1).
Proof.
  unfold bind. destruct (c1 w0) as [[[] | e' |] w']; simpl; try discriminate.
  - by intros ->.
  - by intros [= -> ->].
Qed.

Lemma main_fetch_fails (E : Env) (fuel : nat) (w ws w1 : World) (e : JsError) :
  configured E →
  (prisma.connect E ;;; SpotifySeeder.ensureContainerExists E) (set_token None None w)
    = (Ok tt, ws) →
  SpotifySeeder.fetchPlaylist E fuel PLAYLIST_ID 100 ws = (Throw e, w1) →
  ∃ w', SpotifySeeder.main E fuel w = (Exited 1, w') ∧ w_db w' = w_db w.
Proof.
  intros Hconf Hsetup Hfetch.
  rewrite (main_configured E fuel w Hconf), (then_ok _ _ _ _ _ Hsetup),
    (seedDatabase_fetch_fails E fuel ws w1 e Hfetch).
  eexists. split; [reflexivity |]. simpl.
  assert (Hdb : preserves w_db (SpotifySeeder.fetchPlaylist E fuel PLAYLIST_ID 100))
    by (apply (fetchPlaylist_preserves _ (λ _, true)); done).
  specialize (Hdb ws). rewrite Hfetch in Hdb. simpl in Hdb. rewrite Hdb.
  destruct (main_setup E w) as [(e' & w' & Hthrow & _) | (ws' & Hok & Hdbs & _)];
    congruence.
Qed.

(** The page loop when the page at [failing] cannot be had and the pages
    before it can: the loop raises the error of that page. *)
Lemma fetch_batches_fails (E : Env) (playlistId : string) (limit total failing : Z)
    (page : Z -> list TrackItem) :
  (0 < limit)%Z →
  (∀ offset w, (offset < failing)%Z →
     env_page E playlistId limit offset w = inr (page offset)) →
  (∀ w, ∃ e, env_page E playlistId limit failing w = inl e) →
  (failing < total)%Z →
  ∀ (n : nat) (offset : Z) (acc : list TrackItem) (fuel : nat) (w : World),
    failing = (offset + Z.of_nat n * limit)%Z →
    n < fuel →
    ∃ e w0 w',
      env_page E playlistId limit failing w0 = inl e ∧
      SpotifySeeder.fetch_batches E fuel playlistId limit total offset acc w
        = (Throw e, w').
Proof.
  intros Hlimit Hpage Hfails Htotal.
  induction n as [| n IH]; intros offset acc fuel w Hn Hfuel;
    (destruct fuel as [| fuel]; [lia |]); simpl;
    rewrite bool_decide_eq_true_2 by lia; run_monad.
  - assert (offset = failing) as -> by lia.
    set (w1 := advance (env_latency E) (add_event (EvGetPage playlistId limit failing) w)).
    destruct (Hfails w1) as [e He]. rewrite He. by exists e, w1, w1.
  - rewrite Hpage by lia. cbv beta iota.
    rewrite bool_decide_eq_true_2 by lia.
    match goal with
    | |- context [SpotifySeeder.fetch_batches E fuel playlistId limit total ?o ?a ?w2] =>
        destruct (IH o a fuel w2) as (e & w0 & w' & He & Hrun); [lia | lia |]
    end.
    rewrite Hrun. by exists e, w0, w'.
Qed.

Lemma fetchPlaylist_metadata_fails (E : Env) (fuel : nat) (playlistId : string)
    (limit : Z) (w : World) :
  (∀ w0, ∃ response, env_token E w0 = inr response) →
  (∀ w0, ∃ e, env_playlist E playlistId w0 = inl e) →
  ∃ e w1, SpotifySeeder.fetchPlaylist E fuel playlistId limit w = (Throw e, w1).
Proof.
  intros Htoken Hmeta.
  destruct (getAccessToken_succeeds E w Htoken) as (token & w1 & pre & Hget & _).
  set (w2 := advance (env_latency E) (add_event (EvGetPlaylist playlistId) w1)).
  destruct (Hmeta w2) as [e He]. exists e. eexists.
  unfold SpotifySeeder.fetchPlaylist. run_monad. rewrite Hget. cbv beta iota.
  fold w2. rewrite He. reflexivity.
Qed.

Lemma fetchPlaylist_page_fails (E : Env) (fuel : nat) (playlistId : string)
    (limit : Z) (meta : PlaylistData) (page : Z -> list TrackItem) (k : nat)
    (w : World) :
  (0 < limit)%Z →
  (∀ w0, ∃ response, env_token E w0 = inr response) →
  (∀ w0, env_playlist E playlistId w0 = inr meta) →
  (∀ offset w0, (offset < Z.of_nat k * limit)%Z →
     env_page E playlistId limit offset w0 = inr (page offset)) →
  (∀ w0, ∃ e, env_page E playlistId limit (Z.of_nat k * limit) w0 = inl e) →
  (Z.of_nat k * limit < pd_tracks_total meta)%Z →
  k < fuel →
  ∃ e w0 w1,
    env_page E playlistId limit (Z.of_nat k * limit) w0 = inl e ∧
    SpotifySeeder.fetchPlaylist E fuel playlistId limit w = (Throw e, w1).
Proof.
  intros Hlimit Htoken Hmeta Hpage Hfails Htotal Hfuel.
  destruct (getAccessToken_succeeds E w Htoken) as (token & w1 & pre & Hget & _).
  set (w2 := advance (env_latency E) (add_event (EvGetPlaylist playlistId) w1)).
  destruct (fetch_batches_fails E playlistId limit (pd_tracks_total meta)
              (Z.of_nat k * limit) page Hlimit Hpage Hfails Htotal k 0 [] fuel w2)
    as (e & w0 & w' & He & Hrun); [lia | done |].
  exists e, w0. eexists. split; [exact He |].
  unfold SpotifySeeder.fetchPlaylist. run_monad. rewrite Hget. cbv beta iota.
  rewrite Hmeta. cbv beta iota. fold w2. rewrite Hrun. reflexivity.
Qed.

(** C9. The run of [main]: with the client id, the client secret or the
    store's URL missing it exits with code 1 having sent nothing and
    written nothing; when the token endpoint refuses, it exits with code 1
    and the store is as it was; when the token is had and the request for
    the playlist's metadata fails, or the metadata are had and the request
    for the page at the offset k * 100 fails after the pages before it
    were had, it exits with code 1 and the store is as it was, so no record
    was processed. *)
Theorem fatal_failures_abort_before_processing (E : Env) (fuel : nat) (w : World) :
  (¬ configured E →
     ∃ w', SpotifySeeder.main E fuel w = (Exited 1, w') ∧
           w_trace w' = w_trace w ∧ w_db w' = w_db w) ∧
  (configured E → (∀ w0, ∃ e, env_token E w0 = inl e) →
     ∃ w', SpotifySeeder.main E fuel w = (Exited 1, w') ∧ w_db w' = w_db w) ∧
  (configured E → (∀ w0, ∃ response, env_token E w0 = inr response) →
     (∀ w0, ∃ e, env_playlist E PLAYLIST_ID w0 = inl e) →
     ∃ w', SpotifySeeder.main E fuel w = (Exited 1, w') ∧ w_db w' = w_db w) ∧
  (configured E → (∀ w0, ∃ response, env_token E w0 = inr response) →
     ∀ (meta : PlaylistData) (page : Z -> list TrackItem) (k : nat),
       (∀ w0, env_playlist E PLAYLIST_ID w0 = inr meta) →
       (∀ offset w0, (offset < Z.of_nat k * 100)%Z →
          env_page E PLAYLIST_ID 100 offset w0 = inr (page offset)) →
       (∀ w0, ∃ e, env_page E PLAYLIST_ID 100 (Z.of_nat k * 100) w0 = inl e) →
       (Z.of_nat k * 100 < pd_tracks_total meta)%Z →
       k < fuel →
       ∃ w', SpotifySeeder.main E fuel w = (Exited 1, w') ∧ w_db w' = w_db w).
Proof.
  split; [| split; [| split]].
  - intros Hconf. unfold SpotifySeeder.main, configured in *.
    destruct (truthy_str (env_client_id E)); simpl; [| by eexists].
    destruct (truthy_str (env_client_secret E)); simpl; [| by eexists].
    destruct (truthy_str (env_database_url E)); simpl; [| by eexists].
    by destruct Hconf.
  - intros Hconf Hauth.
    destruct (main_setup E w) as [(e & w1 & Hthrow & Hdb) | (ws & Hok & Hdb & Htok)].
    + rewrite (main_configured E fuel w Hconf), (then_throw _ _ _ _ _ _ Hthrow).
      eexists. split; [reflexivity | done].
    + destruct (fetchPlaylist_auth_fails E fuel PLAYLIST_ID 100 ws Htok Hauth)
        as (e & w1 & Hfetch & _).
      by apply (main_fetch_fails E fuel w ws w1 e).
  - intros Hconf Htoken Hmeta.
    destruct (main_setup E w) as [(e & w1 & Hthrow & Hdb) | (ws & Hok & Hdb & Htok)].
    + rewrite (main_configured E fuel w Hconf), (then_throw _ _ _ _ _ _ Hthrow).
      eexists. split; [reflexivity | done].
    + destruct (fetchPlaylist_metadata_fails E fuel PLAYLIST_ID 100 ws Htoken Hmeta)
        as (e & w1 & Hfetch).
      by apply (main_fetch_fails E fuel w ws w1 e).
  - intros Hconf Htoken meta page k Hmeta Hpage Hfails Htotal Hfuel.
    destruct (main_setup E w) as [(e & w1 & Hthrow & Hdb) | (ws & Hok & Hdb & Htok)].
    + rewrite (main_configured E fuel w Hconf), (then_throw _ _ _ _ _ _ Hthrow).
      eexists. split; [reflexivity | done].
    + destruct (fetchPlaylist_page_fails E fuel PLAYLIST_ID 100 meta page k ws)
        as (e & w0 & w1 & _ & Hfetch); [lia | done | done | done | done | done | done |].
      by apply (main_fetch_fails E fuel w ws w1 e).
Qed.

(** ** Termination of the fuel-free operations *)

Lemma total_ret {A} (a : A) : total (ret a).
Proof. by intros w. Qed.

Lemma total_throw {A} (e : JsError) : total (@throw A e).
Proof. by intros w. Qed.

Lemma total_get_world : total get_world.
Proof. by intros w. Qed.

Lemma total_modify (g : World -> World) : total (modify g).
Proof. by intros w. Qed.

Lemma total_fresh : total fresh.
Proof. by intros w. Qed.

Lemma total_Date_now : total Date_now.
Proof. by intros w. Qed.

Lemma total_bind {A B} (c : M A) (k : A -> M B) :
  total c → (∀ a, total (k a)) → total (bind c k).
Proof.
  intros Hc Hk w. unfold bind. specialize (Hc w).
  destruct (c w) as [[a | e |] w1]; simpl in *; [apply Hk | done | done].
Qed.

Lemma total_try_catch {A} (c : M A) (h : JsError -> M A) :
  total c → (∀ e, total (h e)) → total (try_catch c h).
Proof.
  intros Hc Hh w. unfold try_catch. specialize (Hc w).
  destruct (c w) as [[a | e |] w1]; simpl in *; [done | apply Hh | done].
Qed.

Ltac total_step :=
  first
    [ apply total_ret | apply total_throw | apply total_get_world
    | apply total_modify | apply total_fresh | apply total_Date_now
    | apply total_bind; [| intros ?]
    | apply total_try_catch; [| intros ?]
    | match goal with
      | |- total (match ?x with _ => _ end) => destruct x
      end
    | solve [ let w := fresh "w" in
              intros w; cbv beta;
              match goal with
              | |- fst (match ?x with _ => _ end) ≠ _ => by destruct x
              end ] ].

Create HintDb total.

Ltac terminate := repeat total_step; auto with total.

Lemma total_guard E op : total (prisma.guard E op).
Proof. unfold prisma.guard. terminate. Qed.

Lemma total_call E ev : total (containerClient.call E ev).
Proof. unfold containerClient.call. terminate. Qed.

#[local] Hint Resolve total_guard total_call : total.

Lemma total_media_create E data : total (prisma.media_create E data).
Proof. unfold prisma.media_create. terminate. Qed.


Lemma total_require_client E method : total (AlbumCoverSeeder.require_client E method).
Proof. unfold AlbumCoverSeeder.require_client. terminate. Qed.

#[local] Hint Resolve total_require_client : total.

Lemma total_album_token E : total (AlbumCoverSeeder.getAccessToken E).
Proof.
  unfold AlbumCoverSeeder.getAccessToken, AlbumCoverSeeder.requestToken. terminate.
Qed.

Lemma total_album_cover E albumData albumId :
  total (AlbumCoverSeeder.downloadAndStoreAlbumCover E albumData albumId).
Proof.
  unfold AlbumCoverSeeder.downloadAndStoreAlbumCover, containerClient.upload,
    AlbumCoverSeeder.require_client.
  terminate.
Qed.


(** ** Failures during the per-record work *)







(** ** Failures of cover archiving *)






(** ** Existing covers *)

(** The cover seeder looks for the Media row first and stops there. *)
Lemma processAlbum_skips_covered (E : Env) (album : Album) (existing : Media) (w : World) :
  env_db E (OpFindMedia (b_id album)) w = None →
  find (prisma.media_key (b_id album) "album_cover") (media (w_db w)) = Some existing →
  ∃ w', AlbumCoverSeeder.processAlbum E album w = (Ok tt, w') ∧
        w_trace w' = w_trace w ∧ w_db w' = w_db w ∧ w_blobs w' = w_blobs w ∧
        st_skipped (w_stats w') = S (st_skipped (w_stats w)).
Proof.
  intros Hdb Hfind.
  unfold AlbumCoverSeeder.processAlbum, AlbumCoverSeeder.processAlbum_steps,
    prisma.media_findFirst, prisma.guard, AlbumCoverSeeder.update_stats.
  run_monad. rewrite Hdb. cbv beta iota. rewrite Hfind. by eexists.
Qed.

(** C3. The playlist import's [downloadAndStoreAlbumCover] does not look
    for an existing Media row: for an album that already has its
    "album_cover" row, with the blob container configured and everything
    outside answering well, it downloads the image and uploads a new blob,
    and returns null only because the store then refuses the second row;
    the media table is unchanged and the new blob stays behind. *)
Theorem cover_fetched_again_when_media_exists (E : Env) (albumData : AlbumData)
    (albumId : nat) (image : ImageRef) (rest : list ImageRef) (existing : Media)
    (response : ImageResponse) (w : World) :
  env_azure E = true →
  al_images albumData = Some (image :: rest) →
  existing ∈ media (w_db w) → m_album_id existing = albumId →
  m_type existing = "album_cover" →
  (∀ w0, env_image E (img_url image) w0 = inr response) →
  (∀ w0, env_blob E w0 = None) →
  (∀ op w0, env_db E op w0 = None) →
  let ext := SpotifySeeder.getImageExtension (ir_content_type response) in
  ∃ w',
    SpotifySeeder.downloadAndStoreAlbumCover E albumData albumId w = (Ok None, w') ∧
    w_trace w' = w_trace w ++ [EvDownload (img_url image); EvUpload (w_next_id w) ext] ∧
    w_blobs w' = w_blobs w ++ [(w_next_id w, ext)] ∧
    media (w_db w') = media (w_db w).
Proof.
  intros Hazure Himages Hin Halbum Htype Himg Hblob Hdb ext.
  assert (Hdup : existsb (prisma.media_key albumId "album_cover") (media (w_db w)) = true).
  { apply existsb_exists. exists existing. split; [by apply list_elem_of_In |].
    unfold prisma.media_key. by rewrite !bool_decide_eq_true_2. }
  unfold SpotifySeeder.downloadAndStoreAlbumCover, containerClient.upload,
    containerClient.call, prisma.media_create, prisma.guard.
  rewrite Hazure, Himages. run_monad. simpl.
  rewrite Himg. simpl. rewrite Hblob. simpl. rewrite Hdb. simpl. rewrite Hdup.
  eexists. split; [reflexivity |]. simpl. by rewrite <- app_assoc.
Qed.

(** ** The statements at the sample data *)

(** The failing input of C1: a first track of Album X, which has an image,
    with the blob container configured.  Nothing is downloaded, no Media
    row is made, and the console says the cover was already processed. *)
Lemma first_track_of_album_gets_no_cover :
  let r := SpotifySeeder.processTracks Sample.env
             (SpotifySeeder.with_items Sample.playlist [Sample.item1]) Sample.world0 in
  (∃ data, fst r = Ok data) ∧
  b_spotify_id <$> albums (w_db (snd r)) = ["albX"] ∧
  media (w_db (snd r)) = [] ∧ w_trace (snd r) = [] ∧
  w_log (snd r) = [LogInfo "    Album cover already processed";
                   LogInfo " All tracks processed and inserted successfully!"].
Proof. vm_compute. split; [by eexists | done]. Qed.

(** A missing track leaves a gap: found, missing, found gives 1 and 3. *)
Lemma positions_skip_missing_tracks :
  let r := SpotifySeeder.createPlaylistTrackRelations Sample.env 1
             [Sample.item1; Sample.ghost; Sample.item2] None Sample.unlinked in
  fst r = Ok tt ∧
  pt_position <$> rows_of 1 (snd r) = [1; 3] ∧
  pt_track_id <$> rows_of 1 (snd r) = [5; 7] ∧
  w_log (snd r) = w_log Sample.unlinked.
Proof. vm_compute. done. Qed.

Lemma getAccessToken_cache_then_exchange_witness :
  SpotifySeeder.getAccessToken Sample.env Sample.seeded = (Ok "BQD-token", Sample.seeded) ∧
  exchanges SpotifySeeder.getAccessToken Sample.env Sample.world0.
Proof.
  split.
  - destruct (getAccessToken_cache_then_exchange Sample.env Sample.seeded) as [Hcached _].
    + vm_compute. discriminate.
    + apply Hcached. split; [vm_compute; reflexivity |]. split; [discriminate |].
      eexists. split; vm_compute; reflexivity.
  - destruct (getAccessToken_cache_then_exchange Sample.env Sample.world0) as [_ Hstale].
    + vm_compute. discriminate.
    + apply Hstale. intros token (Htok & _). vm_compute in Htok. discriminate.
Defined.

Lemma fetchPlaylist_pages_in_order_witness :
  ∃ playlist w' pre,
    SpotifySeeder.fetchPlaylist Sample.env 2 PLAYLIST_ID 2 Sample.world0
      = (Ok playlist, w') ∧
    pd_tracks_items playlist = [Sample.item1; Sample.item2; Sample.item3] ∧
    w_trace w' =
      w_trace Sample.world0 ++ pre ++ [EvGetPlaylist PLAYLIST_ID]
        ++ [EvGetPage PLAYLIST_ID 2 0; EvDelay 1000; EvGetPage PLAYLIST_ID 2 2] ∧
    (pre = [] ∨ pre = [EvTokenRequest]).
Proof.
  destruct (fetchPlaylist_pages_in_order Sample.env 2 PLAYLIST_ID 2 Sample.playlist
              (λ offset, take 2 (drop (Z.to_nat offset) Sample.items)) Sample.world0)
    as (playlist & w' & pre & Hrun & Hitems & Htrace & Hpre & _).
  - lia.
  - intros w0. by eexists.
  - reflexivity.
  - reflexivity.
  - vm_compute. lia.
  - exists playlist, w', pre.
    split; [exact Hrun |]. split; [exact Hitems |]. split; [exact Htrace | exact Hpre].
Defined.


Lemma missing_tracks_are_skipped_silently_witness :
  ∃ w',
    SpotifySeeder.createPlaylistTrackRelations Sample.env 1
      [Sample.item1; Sample.ghost; Sample.item2] None Sample.unlinked = (Ok tt, w') ∧
    w_log w' = w_log Sample.unlinked ∧
    length (playlist_tracks (w_db w')) ≤ 2 ∧
    ∀ r, r ∈ playlist_tracks (w_db w') → pt_playlist_id r = 1 → pt_position r ≠ 2.
Proof.
  destruct (missing_tracks_are_skipped_silently Sample.env 1
              [Sample.item1; Sample.ghost; Sample.item2] None Sample.unlinked)
    as (_ & Hcall).
  - reflexivity.
  - destruct Hcall as (w' & Hrun & Hlog & _ & Hlength & Hitems).
    + repeat constructor; by eexists.
    + exists w'. split; [exact Hrun |]. split; [exact Hlog |]. split; [exact Hlength |].
      destruct (Hitems 1 Sample.ghost _ eq_refl eq_refl) as [Hmissing _].
      apply Hmissing; [| vm_compute; reflexivity]. intros t Ht Hid.
      assert (Hfind : is_Some (find (by_spotify_id "trk9")
                                 (tracks (w_db Sample.unlinked))))
        by (apply find_stored; exists t; split; [exact Ht | exact Hid]).
      vm_compute in Hfind. destruct Hfind as [t' Hfind]. discriminate.
Defined.

Lemma upsert_overwrites_all_but_album_reference_witness :
  ∃ row w',
    SpotifySeeder.upsertTrack Sample.env Sample.moved 10 Sample.seeded = (Ok row, w') ∧
    track_carries Sample.moved (Some Sample.track1_row) row ∧ t_album_id row = 3.
Proof.
  destruct upsert_overwrites_all_but_album_reference as (_ & _ & Htrack & _).
  destruct (Htrack Sample.env Sample.moved 10 Sample.seeded eq_refl) as [_ Hupdate].
  destruct (Hupdate [] Sample.track1_row (tail (tracks (w_db Sample.seeded))))
    as (row & w' & Hrun & _ & Hcarries & _ & Halbum & _).
  - vm_compute. reflexivity.
  - reflexivity.
  - intros r Hr Hid.
    assert (Hfind : is_Some (find (by_spotify_id "trk1")
                               (tail (tracks (w_db Sample.seeded)))))
      by (apply find_stored; exists r; by rewrite app_nil_l in Hr).
    vm_compute in Hfind. destruct Hfind as [t Hfind]. discriminate.
  - exists row, w'. split; [exact Hrun |]. split; [exact Hcarries |].
    rewrite Halbum. reflexivity.
Defined.

Lemma fatal_failures_abort_before_processing_witness :
  (∃ w', SpotifySeeder.main Sample.no_secret 10 Sample.world0 = (Exited 1, w') ∧
         w_trace w' = w_trace Sample.world0 ∧ w_db w' = w_db Sample.world0) ∧
  (∃ w', SpotifySeeder.main Sample.auth_refused 10 Sample.world0 = (Exited 1, w') ∧
         w_db w' = w_db Sample.world0) ∧
  (∃ w', SpotifySeeder.main Sample.no_metadata 10 Sample.world0 = (Exited 1, w') ∧
         w_db w' = w_db Sample.world0) ∧
  (∃ w', SpotifySeeder.main Sample.second_page_fails 10 Sample.world0 = (Exited 1, w') ∧
         w_db w' = w_db Sample.world0).
Proof.
  split; [| split; [| split]].
  - destruct (fatal_failures_abort_before_processing Sample.no_secret 10 Sample.world0)
      as [Hconfig _].
    apply Hconfig. intros (_ & Hsecret & _). vm_compute in Hsecret. discriminate.
  - destruct (fatal_failures_abort_before_processing Sample.auth_refused 10 Sample.world0)
      as (_ & Hauth & _).
    apply Hauth.
    + repeat split; vm_compute; reflexivity.
    + intros w0. by eexists.
  - destruct (fatal_failures_abort_before_processing Sample.no_metadata 10 Sample.world0)
      as (_ & _ & Hmeta & _).
    apply Hmeta.
    + repeat split; vm_compute; reflexivity.
    + intros w0. by eexists.
    + intros w0. by eexists.
  - destruct (fatal_failures_abort_before_processing Sample.second_page_fails 10
                Sample.world0) as (_ & _ & _ & Hpage).
    apply (Hpage ltac:(repeat split; vm_compute; reflexivity)
             ltac:(intros w0; by eexists)
             Sample.long_playlist (λ _, Sample.items) 1).
    + reflexivity.
    + intros offset w0 Hoffset. cbn.
      rewrite bool_decide_eq_false_2 by lia. reflexivity.
    + intros w0. by eexists.
    + reflexivity.
    + lia.
Defined.

Lemma cover_fetched_again_when_media_exists_witness :
  ∃ w',
    SpotifySeeder.downloadAndStoreAlbumCover Sample.env Sample.albumX 3 Sample.covered
      = (Ok None, w') ∧
    w_trace w' = w_trace Sample.covered
                   ++ [EvDownload "https://i.scdn.co/image/coverX"; EvUpload 21 "png"] ∧
    w_blobs w' = w_blobs Sample.covered ++ [(21, "png")] ∧
    media (w_db w') = media (w_db Sample.covered).
Proof.
  apply (cover_fetched_again_when_media_exists Sample.env Sample.albumX 3 Sample.cover []
           Sample.coverX_row Sample.png Sample.covered).
  - reflexivity.
  - reflexivity.
  - apply list_elem_of_In. vm_compute. by left.
  - reflexivity.
  - reflexivity.
  - reflexivity.
  - reflexivity.
  - reflexivity.
Defined.


(** ** The token between two calls *)

Lemma spotify_exchange_world (E : Env) (w : World) (response : TokenResponse) :
  (0 ≤ w_clock w)%Z → (∀ token, ¬ token_fresh w token) →
  env_token E (advance (env_latency E) (add_event EvTokenRequest w)) = inr response →
  SpotifySeeder.getAccessToken E w =
    (Ok (access_token response),
     exchange_world E "Spotify access token obtained successfully" response w).
Proof.
  intros Hclock Hstale Hresp.
  unfold SpotifySeeder.getAccessToken, SpotifySeeder.requestToken, exchange_world.
  destruct (w_accessToken w) as [token |] eqn:Htok;
    destruct (w_tokenExpiry w) as [expiry |] eqn:Hexp.
  - destruct (truthy_str (Some token) && truthy_num (Some expiry)
              && bool_decide (w_clock w < expiry)%Z) eqn:Htest.
    + apply token_fresh_test in Htest as [Hne Hlt]; [| assumption].
      exfalso. apply (Hstale token). repeat split; eauto.
    + run_monad. rewrite Htok, Hexp. cbv beta iota. rewrite Htest, Hresp. reflexivity.
  - run_monad. rewrite ?Htok, ?Hexp. cbv beta iota. rewrite Hresp. reflexivity.
  - run_monad. rewrite ?Htok, ?Hexp. cbv beta iota. rewrite Hresp. reflexivity.
  - run_monad. rewrite ?Htok, ?Hexp. cbv beta iota. rewrite Hresp. reflexivity.
Qed.

Lemma album_exchange_world (E : Env) (w : World) (response : TokenResponse) :
  (0 ≤ w_clock w)%Z → (∀ token, ¬ token_fresh w token) →
  env_token E (advance (env_latency E) (add_event EvTokenRequest w)) = inr response →
  AlbumCoverSeeder.getAccessToken E w =
    (Ok (access_token response),
     exchange_world E " Spotify access token obtained successfully" response w).
Proof.
  intros Hclock Hstale Hresp.
  unfold AlbumCoverSeeder.getAccessToken, AlbumCoverSeeder.requestToken, exchange_world.
  destruct (w_accessToken w) as [token |] eqn:Htok;
    destruct (w_tokenExpiry w) as [expiry |] eqn:Hexp.
  - destruct (truthy_str (Some token) && truthy_num (Some expiry)
              && bool_decide (w_clock w < expiry)%Z) eqn:Htest.
    + apply token_fresh_test in Htest as [Hne Hlt]; [| assumption].
      exfalso. apply (Hstale token). repeat split; eauto.
    + run_monad. rewrite Htok, Hexp. cbv beta iota. rewrite Htest, Hresp. reflexivity.
  - run_monad. rewrite ?Htok, ?Hexp. cbv beta iota. rewrite Hresp. reflexivity.
  - run_monad. rewrite ?Htok, ?Hexp. cbv beta iota. rewrite Hresp. reflexivity.
  - run_monad. rewrite ?Htok, ?Hexp. cbv beta iota. rewrite Hresp. reflexivity.
Qed.

Lemma exchange_world_fresh (E : Env) (okmsg : string) (response : TokenResponse)
    (w : World) (ms : Z) :
  access_token response ≠ "" → (0 ≤ ms < expires_in response * 1000)%Z →
  token_fresh (advance ms (exchange_world E okmsg response w)) (access_token response).
Proof.
  intros Hne Hms. split; [reflexivity |]. split; [assumption |].
  eexists. split; [reflexivity |]. simpl. lia.
Qed.

Lemma exchange_world_stale (E : Env) (okmsg : string) (response : TokenResponse)
    (w : World) (ms : Z) :
  (expires_in response * 1000 ≤ ms)%Z →
  ∀ token, ¬ token_fresh (advance ms (exchange_world E okmsg response w)) token.
Proof.
  intros Hms token (_ & _ & expiry & Hexp & Hlt). simpl in *.
  injection Hexp as <-. lia.
Qed.

(** X1. getAccessToken, in both seeders, after an exchange that returned a
    non-empty token: a call made [ms] milliseconds later returns that token
    and leaves the world untouched as long as [ms] is below expires_in
    seconds, and goes to the token endpoint again from then on. *)
Theorem token_reused_until_expiry (E : Env) (w : World) (response : TokenResponse) (ms : Z) :
  (0 ≤ w_clock w)%Z → (0 ≤ env_latency E)%Z → (0 ≤ ms)%Z →
  (∀ token, ¬ token_fresh w token) →
  env_token E (advance (env_latency E) (add_event EvTokenRequest w)) = inr response →
  access_token response ≠ "" →
  ∃ w1 w2,
    SpotifySeeder.getAccessToken E w = (Ok (access_token response), w1) ∧
    AlbumCoverSeeder.getAccessToken E w = (Ok (access_token response), w2) ∧
    ((ms < expires_in response * 1000)%Z →
       SpotifySeeder.getAccessToken E (advance ms w1)
         = (Ok (access_token response), advance ms w1) ∧
       AlbumCoverSeeder.getAccessToken E (advance ms w2)
         = (Ok (access_token response), advance ms w2)) ∧
    ((expires_in response * 1000 ≤ ms)%Z →
       exchanges SpotifySeeder.getAccessToken E (advance ms w1) ∧
       exchanges AlbumCoverSeeder.getAccessToken E (advance ms w2)).
Proof.
  intros Hclock Hlat Hms Hstale Hresp Hne.
  eexists _, _.
  split; [by apply spotify_exchange_world |].
  split; [by apply album_exchange_world |].
  split.
  - intros Hlt. split.
    + apply spotify_token_cached; [simpl; lia | by apply exchange_world_fresh].
    + apply album_token_cached; [simpl; lia | by apply exchange_world_fresh].
  - intros Hge. split.
    + apply spotify_token_exchanged; [simpl; lia | by apply exchange_world_stale].
    + apply album_token_exchanged; [simpl; lia | by apply exchange_world_stale].
Qed.

(** ** Looking an album up *)

Lemma bind_ok_inv {A B} (c : M A) (k : A -> M B) (w w' : World) (b : B) :
  bind c k w = (Ok b, w') → ∃ a w1, c w = (Ok a, w1) ∧ k a w1 = (Ok b, w').
Proof.
  unfold bind. destruct (c w) as [[a | e |] w1]; intros H; try discriminate.
  by exists a, w1.
Qed.

Lemma album_getAccessToken_succeeds (E : Env) (w : World) :
  (∀ w0, ∃ response, env_token E w0 = inr response) →
  ∃ token w1, AlbumCoverSeeder.getAccessToken E w = (Ok token, w1).
Proof.
  intros Htoken.
  destruct (Htoken (advance (env_latency E) (add_event EvTokenRequest w)))
    as [response Hresp].
  unfold AlbumCoverSeeder.getAccessToken, AlbumCoverSeeder.requestToken. run_monad.
  destruct (w_accessToken w) as [cached |]; [destruct (w_tokenExpiry w) as [expiry |] |].
  - destruct (truthy_str (Some cached) && truthy_num (Some expiry)
              && bool_decide (w_clock w < expiry)%Z); [by eexists _, _ |].
    rewrite Hresp. by eexists _, _.
  - rewrite Hresp. by eexists _, _.
  - rewrite Hresp. by eexists _, _.
Qed.


(** ** The blob container *)


(** ** Edges of the paged fetch *)

(** X4. fetchPlaylist overwrites the reported total: whenever it returns,
    the playlist's tracks.total is the number of items it carries, whatever
    the metadata said. *)
Theorem fetchPlaylist_total_is_item_count (E : Env) (fuel : nat) (playlistId : string)
    (limit : Z) (w w' : World) (playlist : PlaylistData) :
  SpotifySeeder.fetchPlaylist E fuel playlistId limit w = (Ok playlist, w') →
  pd_tracks_total playlist = Z.of_nat (length (pd_tracks_items playlist)).
Proof.
  unfold SpotifySeeder.fetchPlaylist, try_catch.
  destruct (bind _ _ w) as [[p | e |] w1] eqn:Hinner; try discriminate.
  intros [= -> ->].
  apply bind_ok_inv in Hinner as (token & w2 & _ & Hrest).
  apply bind_ok_inv in Hrest as (meta & w3 & _ & Hrest).
  apply bind_ok_inv in Hrest as (items & w4 & _ & Hret).
  injection Hret as <- _. reflexivity.
Qed.

Lemma fetch_batches_never_ends (E : Env) (playlistId : string) (limit total : Z) :
  (limit ≤ 0)%Z →
  (∀ offset w, ∃ items, env_page E playlistId limit offset w = inr items) →
  ∀ (fuel : nat) (offset : Z) (acc : list TrackItem) (w : World),
    (offset < total)%Z →
    fst (SpotifySeeder.fetch_batches E fuel playlistId limit total offset acc w) = Diverge.
Proof.
  intros Hlimit Hpage.
  induction fuel as [| fuel IH]; intros offset acc w Hlt; simpl;
    rewrite bool_decide_eq_true_2 by done; [reflexivity |].
  run_monad.
  destruct (Hpage offset (advance (env_latency E)
                            (add_event (EvGetPage playlistId limit offset) w)))
    as [items ->].
  cbv beta iota. rewrite bool_decide_eq_true_2 by lia. cbv beta iota.
  apply IH. lia.
Qed.

(** X5. A page size of zero or less never ends fetchPlaylist on a
    collection that reports items: with the token, the metadata and every
    page at hand, the loop is still asking for pages when the fuel runs out,
    whatever the fuel. *)
Theorem fetchPlaylist_needs_positive_limit (E : Env) (fuel : nat) (playlistId : string)
    (limit : Z) (meta : PlaylistData) (w : World) :
  (limit ≤ 0)%Z → (0 < pd_tracks_total meta)%Z →
  (∀ w0, ∃ response, env_token E w0 = inr response) →
  (∀ w0, env_playlist E playlistId w0 = inr meta) →
  (∀ offset w0, ∃ items, env_page E playlistId limit offset w0 = inr items) →
  fst (SpotifySeeder.fetchPlaylist E fuel playlistId limit w) = Diverge.
Proof.
  intros Hlimit Htotal Htoken Hmeta Hpage.
  destruct (getAccessToken_succeeds E w Htoken) as (token & w1 & pre & Hget & _).
  pose proof (fetch_batches_never_ends E playlistId limit (pd_tracks_total meta)
                Hlimit Hpage fuel 0 []
                (advance (env_latency E) (add_event (EvGetPlaylist playlistId) w1))
                Htotal) as Hloop.
  unfold SpotifySeeder.fetchPlaylist. run_monad. rewrite Hget. cbv beta iota.
  rewrite Hmeta. cbv beta iota.
  destruct (SpotifySeeder.fetch_batches _ _ _ _ _ _ _ _) as [[r | e |] w'];
    simpl in *; done.
Qed.

(** ** The further statements at the sample data *)

Lemma token_reused_until_expiry_witness :
  ∃ w1,
    SpotifySeeder.getAccessToken Sample.env Sample.world0 = (Ok "BQD-token", w1) ∧
    SpotifySeeder.getAccessToken Sample.env (advance 1000 w1)
      = (Ok "BQD-token", advance 1000 w1).
Proof.
  destruct (token_reused_until_expiry Sample.env Sample.world0 Sample.token_response 1000)
    as (w1 & w2 & Hfirst & _ & Hreuse & _).
  - vm_compute. discriminate.
  - vm_compute. discriminate.
  - lia.
  - intros token (Htok & _). vm_compute in Htok. discriminate.
  - reflexivity.
  - discriminate.
  - exists w1. split; [exact Hfirst |]. apply Hreuse. vm_compute. reflexivity.
Defined.



Lemma fetchPlaylist_total_is_item_count_witness :
  ∃ playlist w',
    Sample.fetched = (Ok playlist, w') ∧
    pd_tracks_total playlist = Z.of_nat (length (pd_tracks_items playlist)).
Proof.
  destruct Sample.fetched as [[playlist | e |] w'] eqn:Hrun.
  - exists playlist, w'. split; [reflexivity |].
    exact (fetchPlaylist_total_is_item_count _ _ _ _ _ _ _ Hrun).
  - vm_compute in Hrun. discriminate.
  - vm_compute in Hrun. discriminate.
Defined.

Lemma fetchPlaylist_needs_positive_limit_witness :
  fst (SpotifySeeder.fetchPlaylist Sample.env 1000 PLAYLIST_ID 0 Sample.world0) = Diverge.
Proof.
  apply (fetchPlaylist_needs_positive_limit Sample.env 1000 PLAYLIST_ID 0 Sample.playlist
           Sample.world0).
  - lia.
  - reflexivity.
  - intros w0. by eexists.
  - reflexivity.
  - intros offset w0. by eexists.
Defined.

(** ** Linking artists *)

Lemma replace_first_found {A} (p : A -> bool) (old : A) (l : list A) :
  find p l = Some old → prisma.replace_first p old l = l.
Proof.
  induction l as [| y l IH]; simpl; [done |].
  destruct (p y) eqn:Hy; [by intros [= ->] |]. intros H. by rewrite IH.
Qed.

Lemma try_catch_ok {A} (c : M A) (h : JsError -> M A) (w w1 : World) (a : A) :
  c w = (Ok a, w1) → try_catch c h w = (Ok a, w1).
Proof. intros H. unfold try_catch. by rewrite H. Qed.

Lemma upsert_refused {A} (E : Env) (op : DbOp) (table : Db -> list A)
    (set_table : list A -> Db -> Db) (p : A -> bool) (update : A -> A)
    (create : nat -> Z -> A) (w : World) (e : JsError) :
  env_db E op w = Some e →
  prisma.upsert E op table set_table p update create w = (Throw e, w).
Proof.
  intros Hop. unfold prisma.upsert, prisma.guard. run_monad.
  rewrite Hop. reflexivity.
Qed.

Lemma set_album_artists_same (w : World) :
  set_db (prisma.set_album_artists (album_artists (w_db w)) (w_db w)) w = w.
Proof. destruct w as [[] ]. reflexivity. Qed.

Lemma album_link_key (albumId artistId : nat) (r : AlbumArtist) :
  bool_decide (aa_album_id r = albumId) && bool_decide (aa_artist_id r = artistId) = true ↔
  r = {| aa_album_id := albumId; aa_artist_id := artistId |}.
Proof.
  rewrite andb_true_iff, !bool_decide_eq_true. destruct r as [a b]; simpl. split.
  - by intros [-> ->].
  - by intros [= -> ->].
Qed.

(** One upsert of the loop, accepted by the store: either the row was
    there and the world is as before, or it was not and is appended. *)
Lemma album_link_step (E : Env) (albumId artistId : nat) (w : World) :
  env_db E (OpUpsertAlbumArtist albumId artistId) w = None →
  let row := {| aa_album_id := albumId; aa_artist_id := artistId |} in
  ∃ r w',
    prisma.albumArtist_upsert E albumId artistId (λ old, old) (λ _ _, row) w = (Ok r, w') ∧
    w_log w' = w_log w ∧
    ((row ∈ album_artists (w_db w) ∧ w' = w) ∨
     ((row ∉ album_artists (w_db w)) ∧
      album_artists (w_db w') = album_artists (w_db w) ++ [row])).
Proof.
  intros Hdb row. unfold prisma.albumArtist_upsert.
  set (p := λ r, bool_decide (aa_album_id r = albumId)
                 && bool_decide (aa_artist_id r = artistId)).
  destruct (find p (album_artists (w_db w))) as [old |] eqn:Hfind.
  - rewrite (upsert_present _ _ _ _ _ _ _ _ old Hdb Hfind).
    rewrite (replace_first_found _ _ _ Hfind), set_album_artists_same.
    pose proof (find_some _ _ Hfind) as [Hin Hp].
    apply album_link_key in Hp as ->.
    exists row, w. split; [done |]. split; [done |].
    left. split; [by apply list_elem_of_In | done].
  - rewrite (upsert_absent _ _ _ _ _ _ _ _ Hdb Hfind).
    eexists _, _. split; [done |]. split; [done |]. right. split; [| done].
    intros Hin. apply list_elem_of_In in Hin.
    pose proof (find_none _ _ Hfind row Hin) as Hp.
    assert (p row = true) by by apply album_link_key. congruence.
Qed.

Lemma link_album_artists_run (E : Env) (albumId : nat) (artistIds : list nat) :
  ∀ w,
    (∀ a w0, a ∈ artistIds → env_db E (OpUpsertAlbumArtist albumId a) w0 = None) →
    ∃ w',
      SpotifySeeder.link_album_artists E albumId artistIds w = (Ok tt, w') ∧
      (∀ r, r ∈ album_artists (w_db w) → r ∈ album_artists (w_db w')) ∧
      (∀ a, a ∈ artistIds →
         {| aa_album_id := albumId; aa_artist_id := a |} ∈ album_artists (w_db w')) ∧
      (NoDup (album_artists (w_db w)) → NoDup (album_artists (w_db w'))) ∧
      w_log w' = w_log w ∧
      ((∀ a, a ∈ artistIds →
          {| aa_album_id := albumId; aa_artist_id := a |} ∈ album_artists (w_db w)) →
       w' = w).
Proof.
  induction artistIds as [| a rest IH]; intros w Hdb; simpl.
  - exists w. repeat split; try done. intros a Ha. by apply elem_of_nil in Ha.
  - destruct (album_link_step E albumId a w) as (r & w1 & Hstep & Hlog1 & Hcases);
      [apply Hdb, list_elem_of_here |].
    destruct (IH w1) as (w' & Hrun & Hkeep & Hall & Hnodup & Hlog & Hnoop);
      [intros; by apply Hdb, list_elem_of_further |].
    exists w'. rewrite (bind_ok _ _ _ _ _ Hstep).
    set (row := {| aa_album_id := albumId; aa_artist_id := a |}) in *.
    destruct Hcases as [[Hin ->] | [Hnot Hnew]].
    + repeat split; try done.
      * intros b [-> | Hb]%elem_of_cons; [by apply Hkeep | by apply Hall].
      * intros Hpresent. apply Hnoop. intros b Hb.
        by apply Hpresent, list_elem_of_further.
    + repeat split; try done; [| | | congruence |].
      * intros x Hx. apply Hkeep. rewrite Hnew. apply elem_of_app. by left.
      * intros b [-> | Hb]%elem_of_cons; [| by apply Hall].
        apply Hkeep. rewrite Hnew. apply elem_of_app. right. apply list_elem_of_here.
      * intros Hnd. apply Hnodup. rewrite Hnew. apply NoDup_app. repeat split; try done.
        -- intros x Hx ->%list_elem_of_singleton. done.
        -- apply NoDup_singleton.
      * intros Hpresent. exfalso. apply Hnot, Hpresent, list_elem_of_here.
Qed.

Lemma link_album_artists_app (E : Env) (albumId : nat) (pre rest : list nat) :
  ∀ w w1,
    SpotifySeeder.link_album_artists E albumId pre w = (Ok tt, w1) →
    SpotifySeeder.link_album_artists E albumId (pre ++ rest) w =
      SpotifySeeder.link_album_artists E albumId rest w1.
Proof.
  induction pre as [| a pre IH]; intros w w1 Hrun; simpl in *.
  - by injection Hrun as ->.
  - unfold bind in *.
    destruct (prisma.albumArtist_upsert _ _ _ _ _ w) as [[r | e |] w2]; try discriminate.
    by apply IH.
Qed.

Lemma set_track_artists_same (w : World) :
  set_db (prisma.set_track_artists (track_artists (w_db w)) (w_db w)) w = w.
Proof. destruct w as [[] ]. reflexivity. Qed.

Lemma track_link_key (trackId artistId : nat) (r : TrackArtist) :
  bool_decide (ta_track_id r = trackId) && bool_decide (ta_artist_id r = artistId) = true ↔
  r = {| ta_track_id := trackId; ta_artist_id := artistId |}.
Proof.
  rewrite andb_true_iff, !bool_decide_eq_true. destruct r as [a b]; simpl. split.
  - by intros [-> ->].
  - by intros [= -> ->].
Qed.

(** One upsert of the loop, accepted by the store: either the row was
    there and the world is as before, or it was not and is appended. *)
Lemma track_link_step (E : Env) (trackId artistId : nat) (w : World) :
  env_db E (OpUpsertTrackArtist trackId artistId) w = None →
  let row := {| ta_track_id := trackId; ta_artist_id := artistId |} in
  ∃ r w',
    prisma.trackArtist_upsert E trackId artistId (λ old, old) (λ _ _, row) w = (Ok r, w') ∧
    w_log w' = w_log w ∧
    ((row ∈ track_artists (w_db w) ∧ w' = w) ∨
     ((row ∉ track_artists (w_db w)) ∧
      track_artists (w_db w') = track_artists (w_db w) ++ [row])).
Proof.
  intros Hdb row. unfold prisma.trackArtist_upsert.
  set (p := λ r, bool_decide (ta_track_id r = trackId)
                 && bool_decide (ta_artist_id r = artistId)).
  destruct (find p (track_artists (w_db w))) as [old |] eqn:Hfind.
  - rewrite (upsert_present _ _ _ _ _ _ _ _ old Hdb Hfind).
    rewrite (replace_first_found _ _ _ Hfind), set_track_artists_same.
    pose proof (find_some _ _ Hfind) as [Hin Hp].
    apply track_link_key in Hp as ->.
    exists row, w. split; [done |]. split; [done |].
    left. split; [by apply list_elem_of_In | done].
  - rewrite (upsert_absent _ _ _ _ _ _ _ _ Hdb Hfind).
    eexists _, _. split; [done |]. split; [done |]. right. split; [| done].
    intros Hin. apply list_elem_of_In in Hin.
    pose proof (find_none _ _ Hfind row Hin) as Hp.
    assert (p row = true) by by apply track_link_key. congruence.
Qed.

Lemma link_track_artists_run (E : Env) (trackId : nat) (artistIds : list nat) :
  ∀ w,
    (∀ a w0, a ∈ artistIds → env_db E (OpUpsertTrackArtist trackId a) w0 = None) →
    ∃ w',
      SpotifySeeder.link_track_artists E trackId artistIds w = (Ok tt, w') ∧
      (∀ r, r ∈ track_artists (w_db w) → r ∈ track_artists (w_db w')) ∧
      (∀ a, a ∈ artistIds →
         {| ta_track_id := trackId; ta_artist_id := a |} ∈ track_artists (w_db w')) ∧
      (NoDup (track_artists (w_db w)) → NoDup (track_artists (w_db w'))) ∧
      w_log w' = w_log w ∧
      ((∀ a, a ∈ artistIds →
          {| ta_track_id := trackId; ta_artist_id := a |} ∈ track_artists (w_db w)) →
       w' = w).
Proof.
  induction artistIds as [| a rest IH]; intros w Hdb; simpl.
  - exists w. repeat split; try done. intros a Ha. by apply elem_of_nil in Ha.
  - destruct (track_link_step E trackId a w) as (r & w1 & Hstep & Hlog1 & Hcases);
      [apply Hdb, list_elem_of_here |].
    destruct (IH w1) as (w' & Hrun & Hkeep & Hall & Hnodup & Hlog & Hnoop);
      [intros; by apply Hdb, list_elem_of_further |].
    exists w'. rewrite (bind_ok _ _ _ _ _ Hstep).
    set (row := {| ta_track_id := trackId; ta_artist_id := a |}) in *.
    destruct Hcases as [[Hin ->] | [Hnot Hnew]].
    + repeat split; try done.
      * intros b [-> | Hb]%elem_of_cons; [by apply Hkeep | by apply Hall].
      * intros Hpresent. apply Hnoop. intros b Hb.
        by apply Hpresent, list_elem_of_further.
    + repeat split; try done; [| | | congruence |].
      * intros x Hx. apply Hkeep. rewrite Hnew. apply elem_of_app. by left.
      * intros b [-> | Hb]%elem_of_cons; [| by apply Hall].
        apply Hkeep. rewrite Hnew. apply elem_of_app. right. apply list_elem_of_here.
      * intros Hnd. apply Hnodup. rewrite Hnew. apply NoDup_app. repeat split; try done.
        -- intros x Hx ->%list_elem_of_singleton. done.
        -- apply NoDup_singleton.
      * intros Hpresent. exfalso. apply Hnot, Hpresent, list_elem_of_here.
Qed.

Lemma link_track_artists_app (E : Env) (trackId : nat) (pre rest : list nat) :
  ∀ w w1,
    SpotifySeeder.link_track_artists E trackId pre w = (Ok tt, w1) →
    SpotifySeeder.link_track_artists E trackId (pre ++ rest) w =
      SpotifySeeder.link_track_artists E trackId rest w1.
Proof.
  induction pre as [| a pre IH]; intros w w1 Hrun; simpl in *.
  - by injection Hrun as ->.
  - unfold bind in *.
    destruct (prisma.trackArtist_upsert _ _ _ _ _ w) as [[r | e |] w2]; try discriminate.
    by apply IH.
Qed.

(** X6. createAlbumArtistRelations and createTrackArtistRelations on a
    store that accepts the upserts: every artist of the list is linked
    afterwards, no row is lost, a table without repeated rows stays so
    (also when the list names an artist twice), and calling again with the
    same arguments changes nothing at all. *)
Theorem artist_links_are_idempotent (E : Env) (parent : nat) (artistIds : list nat)
    (w : World) :
  ((∀ a w0, a ∈ artistIds → env_db E (OpUpsertAlbumArtist parent a) w0 = None) →
   ∃ w',
     SpotifySeeder.createAlbumArtistRelations E parent artistIds w = (Ok tt, w') ∧
     (∀ a, a ∈ artistIds →
        {| aa_album_id := parent; aa_artist_id := a |} ∈ album_artists (w_db w')) ∧
     (∀ r, r ∈ album_artists (w_db w) → r ∈ album_artists (w_db w')) ∧
     (NoDup (album_artists (w_db w)) → NoDup (album_artists (w_db w'))) ∧
     SpotifySeeder.createAlbumArtistRelations E parent artistIds w' = (Ok tt, w')) ∧
  ((∀ a w0, a ∈ artistIds → env_db E (OpUpsertTrackArtist parent a) w0 = None) →
   ∃ w',
     SpotifySeeder.createTrackArtistRelations E parent artistIds w = (Ok tt, w') ∧
     (∀ a, a ∈ artistIds →
        {| ta_track_id := parent; ta_artist_id := a |} ∈ track_artists (w_db w')) ∧
     (∀ r, r ∈ track_artists (w_db w) → r ∈ track_artists (w_db w')) ∧
     (NoDup (track_artists (w_db w)) → NoDup (track_artists (w_db w'))) ∧
     SpotifySeeder.createTrackArtistRelations E parent artistIds w' = (Ok tt, w')).
Proof.
  split; intros Hdb.
  - destruct (link_album_artists_run E parent artistIds w Hdb)
      as (w' & Hrun & Hkeep & Hall & Hnodup & _ & _).
    destruct (link_album_artists_run E parent artistIds w' Hdb)
      as (w2 & Hagain & _ & _ & _ & _ & Hnoop).
    rewrite (Hnoop Hall) in Hagain.
    exists w'. unfold SpotifySeeder.createAlbumArtistRelations.
    rewrite (try_catch_ok _ _ _ _ _ Hrun), (try_catch_ok _ _ _ _ _ Hagain). done.
  - destruct (link_track_artists_run E parent artistIds w Hdb)
      as (w' & Hrun & Hkeep & Hall & Hnodup & _ & _).
    destruct (link_track_artists_run E parent artistIds w' Hdb)
      as (w2 & Hagain & _ & _ & _ & _ & Hnoop).
    rewrite (Hnoop Hall) in Hagain.
    exists w'. unfold SpotifySeeder.createTrackArtistRelations.
    rewrite (try_catch_ok _ _ _ _ _ Hrun), (try_catch_ok _ _ _ _ _ Hagain). done.
Qed.

(** X7. The links of one call are not undone when a later one fails: if
    the store accepts the upserts for the artists before [bad] and refuses
    the one for [bad], the call raises that error after logging it, the
    artists before [bad] are linked, and no row is lost. *)
Theorem artist_links_are_not_rolled_back (E : Env) (parent bad : nat)
    (pre post : list nat) (e : JsError) (w : World) :
  ((∀ a w0, a ∈ pre → env_db E (OpUpsertAlbumArtist parent a) w0 = None) →
   (∀ w0, env_db E (OpUpsertAlbumArtist parent bad) w0 = Some e) →
   ∃ w',
     SpotifySeeder.createAlbumArtistRelations E parent (pre ++ bad :: post) w
       = (Throw e, w') ∧
     (∀ a, a ∈ pre →
        {| aa_album_id := parent; aa_artist_id := a |} ∈ album_artists (w_db w')) ∧
     (∀ r, r ∈ album_artists (w_db w) → r ∈ album_artists (w_db w')) ∧
     w_log w' = w_log w ++ [LogError " Error creating album-artist relationships:"
                              (err_message e)]) ∧
  ((∀ a w0, a ∈ pre → env_db E (OpUpsertTrackArtist parent a) w0 = None) →
   (∀ w0, env_db E (OpUpsertTrackArtist parent bad) w0 = Some e) →
   ∃ w',
     SpotifySeeder.createTrackArtistRelations E parent (pre ++ bad :: post) w
       = (Throw e, w') ∧
     (∀ a, a ∈ pre →
        {| ta_track_id := parent; ta_artist_id := a |} ∈ track_artists (w_db w')) ∧
     (∀ r, r ∈ track_artists (w_db w) → r ∈ track_artists (w_db w')) ∧
     w_log w' = w_log w ++ [LogError " Error creating track-artist relationships:"
                              (err_message e)]).
Proof.
  split; intros Hpre Hbad.
  - destruct (link_album_artists_run E parent pre w Hpre)
      as (w1 & Hrun & Hkeep & Hall & _ & Hlog & _).
    eexists. unfold SpotifySeeder.createAlbumArtistRelations.
    erewrite try_catch_throw.
    + split; [reflexivity |]. simpl. rewrite Hlog. done.
    + rewrite (link_album_artists_app E parent pre (bad :: post) w w1 Hrun). simpl.
      apply bind_throw. unfold prisma.albumArtist_upsert. by apply upsert_refused.
  - destruct (link_track_artists_run E parent pre w Hpre)
      as (w1 & Hrun & Hkeep & Hall & _ & Hlog & _).
    eexists. unfold SpotifySeeder.createTrackArtistRelations.
    erewrite try_catch_throw.
    + split; [reflexivity |]. simpl. rewrite Hlog. done.
    + rewrite (link_track_artists_app E parent pre (bad :: post) w w1 Hrun). simpl.
      apply bind_throw. unfold prisma.trackArtist_upsert. by apply upsert_refused.
Qed.

Lemma artist_links_are_idempotent_witness :
  ∃ w',
    SpotifySeeder.createAlbumArtistRelations Sample.env 3 [2; 2] Sample.world0
      = (Ok tt, w') ∧
    NoDup (album_artists (w_db w')) ∧
    SpotifySeeder.createAlbumArtistRelations Sample.env 3 [2; 2] w' = (Ok tt, w').
Proof.
  destruct (artist_links_are_idempotent Sample.env 3 [2; 2] Sample.world0)
    as [Halbum _].
  destruct Halbum as (w' & Hrun & _ & _ & Hnodup & Hagain); [reflexivity |].
  exists w'. split; [exact Hrun |]. split; [| exact Hagain].
  apply Hnodup. apply NoDup_nil_2.
Defined.

Lemma artist_links_are_not_rolled_back_witness :
  ∃ w',
    SpotifySeeder.createTrackArtistRelations
      (Sample.with_db Sample.refuse_artist9 Sample.env) 5 ([2] ++ 9 :: [4]) Sample.world0
      = (Throw (Sample.failure "Foreign key constraint failed"), w') ∧
    {| ta_track_id := 5; ta_artist_id := 2 |} ∈ track_artists (w_db w').
Proof.
  destruct (artist_links_are_not_rolled_back
              (Sample.with_db Sample.refuse_artist9 Sample.env) 5 9 [2] [4]
              (Sample.failure "Foreign key constraint failed") Sample.world0)
    as [_ Htrack].
  destruct Htrack as (w' & Hrun & Hpre & _).
  - intros a w0 Ha. apply list_elem_of_singleton in Ha as ->. reflexivity.
  - reflexivity.
  - exists w'. split; [exact Hrun |]. apply Hpre. apply list_elem_of_here.
Defined.

(** ** Covers that were stored *)

Lemma getImageExtension_known (mimeType : string) :
  known_extension (SpotifySeeder.getImageExtension mimeType) ∧
  AlbumCoverSeeder.getImageExtension mimeType = SpotifySeeder.getImageExtension mimeType.
Proof.
  unfold known_extension, SpotifySeeder.getImageExtension,
    AlbumCoverSeeder.getImageExtension.
  repeat case_bool_decide; auto.
Qed.

Lemma spotify_cover_outcome (E : Env) (albumData : AlbumData) (albumId : nat) (w : World) :
  cover_outcome albumId w (SpotifySeeder.downloadAndStoreAlbumCover E albumData albumId w).
Proof.
  unfold cover_outcome, SpotifySeeder.downloadAndStoreAlbumCover, containerClient.upload,
    containerClient.call, prisma.media_create, prisma.guard, SpotifySeeder.cover_row.
  run_monad. cbn.
  destruct (env_azure E); cbn; [| done].
  destruct (al_images albumData) as [[| image rest] |]; cbn; try done.
  destruct (env_image E _ _) as [e | response]; cbn; [done |].
  destruct (env_blob E _); cbn; [done |].
  destruct (env_db E _ _); cbn; [done |].
  destruct (existsb _ _) eqn:Hdup; cbn; [done |].
  split; [| done]. unfold cover_stored. cbn.
  split; [apply elem_of_app; right; apply list_elem_of_here |].
  repeat split; try done.
  - apply elem_of_app. right. apply list_elem_of_here.
  - apply getImageExtension_known.
Qed.

Lemma album_cover_outcome (E : Env) (albumData : AlbumData) (albumId : nat) (w : World) :
  cover_outcome albumId w
    (AlbumCoverSeeder.downloadAndStoreAlbumCover E albumData albumId w).
Proof.
  unfold cover_outcome, AlbumCoverSeeder.downloadAndStoreAlbumCover,
    AlbumCoverSeeder.require_client, containerClient.upload,
    containerClient.call, prisma.media_create, prisma.guard, AlbumCoverSeeder.cover_row.
  run_monad. cbn.
  destruct (al_images albumData) as [[| image rest] |]; cbn; try done.
  destruct (env_image E _ _) as [e | response]; cbn; [done |].
  destruct (env_azure E); cbn; [| done].
  destruct (env_blob E _); cbn; [done |].
  destruct (env_db E _ _); cbn; [done |].
  destruct (existsb _ _) eqn:Hdup; cbn; [done |].
  split; [| done]. unfold cover_stored. cbn.
  split; [apply elem_of_app; right; apply list_elem_of_here |].
  repeat split; try done.
  - apply elem_of_app. right. apply list_elem_of_here.
  - rewrite (proj2 (getImageExtension_known _)). apply getImageExtension_known.
Qed.

(** X8. A Media row returned by downloadAndStoreAlbumCover, in either
    seeder, is the one row the call added to the media table: it belongs to
    the album asked for, has type "album_cover", names a blob that is in the
    container under an extension jpg, png or webp, and the album had no
    cover row before.  A call that returns null or raises adds no row. *)
Theorem returned_cover_is_stored (E : Env) (albumData : AlbumData) (albumId : nat)
    (w : World) :
  cover_outcome albumId w (SpotifySeeder.downloadAndStoreAlbumCover E albumData albumId w) ∧
  cover_outcome albumId w
    (AlbumCoverSeeder.downloadAndStoreAlbumCover E albumData albumId w).
Proof. split; [apply spotify_cover_outcome | apply album_cover_outcome]. Qed.

(** ** The cover seeder's accounts *)

Ltac unseen_by_waits :=
  intros; try reflexivity;
  match goal with
  | H : negb (is_delay ?e) = true |- _ =>
      cbv beta; unfold delays; cbn; rewrite List.filter_app; cbn;
      apply negb_true_iff in H; rewrite H, app_nil_r; reflexivity
  end.

Lemma media_findFirst_world (E : Env) (albumId : nat) (type : string) (w w1 : World)
    (r : result (option Media)) :
  prisma.media_findFirst E albumId type w = (r, w1) →
  w1 = w ∧ r ≠ Diverge ∧
  ∀ found, r = Ok found → found = find (prisma.media_key albumId type) (media (w_db w)).
Proof.
  unfold prisma.media_findFirst, prisma.guard. run_monad.
  destruct (env_db E _ w); intros [= <- <-]; repeat split; try done.
  by intros found [= <-].
Qed.

Lemma total_fetchAlbumFromSpotify (E : Env) (spotifyId : string) :
  total (AlbumCoverSeeder.fetchAlbumFromSpotify E spotifyId).
Proof.
  unfold AlbumCoverSeeder.fetchAlbumFromSpotify, AlbumCoverSeeder.get_album.
  terminate.
Qed.

Lemma find_existsb {A} (p : A -> bool) (l : list A) (x : A) :
  find p l = Some x → existsb p l = true.
Proof.
  intros [Hin Hp]%find_some. apply existsb_exists. eauto.
Qed.

(** What became of one album. *)
Lemma processAlbum_outcome (E : Env) (album : Album) (w : World) :
  ∃ w',
    AlbumCoverSeeder.processAlbum E album w = (Ok tt, w') ∧
    delays w' = delays w ∧
    st_total (w_stats w') = st_total (w_stats w) ∧
    ((w_stats w' = AlbumCoverSeeder.stats_skipped (w_stats w) ∧
      w_db w' = w_db w ∧ w_trace w' = w_trace w ∧
      existsb (prisma.media_key (b_id album) "album_cover") (media (w_db w)) = true) ∨
     (w_stats w' = AlbumCoverSeeder.stats_success (w_stats w) ∧
      ∃ m, cover_stored (b_id album) m w' ∧ media (w_db w') = media (w_db w) ++ [m]) ∨
     (∃ msg, w_stats w' = AlbumCoverSeeder.stats_failed msg (w_stats w) ∧
             media (w_db w') = media (w_db w))).
Proof.
  unfold AlbumCoverSeeder.processAlbum, AlbumCoverSeeder.processAlbum_steps,
    AlbumCoverSeeder.update_stats.
  destruct (prisma.media_findFirst E (b_id album) "album_cover" w)
    as [[existing | e |] w1] eqn:Hfind;
    destruct (media_findFirst_world _ _ _ _ _ _ Hfind) as (-> & Hend & Hfound);
    [| | done].
  2: { erewrite try_catch_throw; [| by apply bind_throw].
       eexists. split; [reflexivity |]. split; [reflexivity |]. split; [reflexivity |].
       right. right. by eexists. }
  specialize (Hfound existing eq_refl).
  destruct existing as [existing |].
  { erewrite try_catch_ok; [| rewrite (bind_ok _ _ _ _ _ Hfind); reflexivity].
    eexists. split; [reflexivity |]. split; [reflexivity |]. split; [reflexivity |].
    left. repeat split. symmetry in Hfound. by apply find_existsb in Hfound. }
  assert (Hsee2 : preserves (λ w0, (w_stats w0, delays w0, w_db w0))
                    (AlbumCoverSeeder.fetchAlbumFromSpotify E (b_spotify_id album)))
    by (apply (fetchAlbumFromSpotify_preserves _ (λ e, negb (is_delay e)));
        unseen_by_waits).
  specialize (Hsee2 w).
  pose proof (total_fetchAlbumFromSpotify E (b_spotify_id album) w) as Hend2.
  destruct (AlbumCoverSeeder.fetchAlbumFromSpotify E (b_spotify_id album) w)
    as [[spotifyAlbum | e |] w2] eqn:Hfetch; [| | done];
    cbn in Hsee2; injection Hsee2 as Hstats2 Hdelays2 Hdb2.
  2: { erewrite try_catch_throw;
         [| rewrite (bind_ok _ _ _ _ _ Hfind); by apply bind_throw].
       eexists. split; [reflexivity |]. cbn. rewrite Hstats2, Hdb2.
       split; [unfold delays in *; cbn in *; congruence |]. split; [done |]. right. right. by eexists. }
  destruct spotifyAlbum as [spotifyAlbum |].
  2: { erewrite try_catch_ok;
         [| rewrite (bind_ok _ _ _ _ _ Hfind), (bind_ok _ _ _ _ _ Hfetch); reflexivity].
       eexists. split; [reflexivity |]. cbn. rewrite Hstats2, Hdb2.
       split; [unfold delays in *; cbn in *; congruence |]. split; [done |]. right. right. by eexists. }
  assert (Hsee3 : preserves (λ w0, (w_stats w0, delays w0))
                    (AlbumCoverSeeder.downloadAndStoreAlbumCover E spotifyAlbum (b_id album)))
    by (apply (album_cover_preserves _ (λ e, negb (is_delay e))); unseen_by_waits).
  specialize (Hsee3 w2).
  pose proof (album_cover_outcome E spotifyAlbum (b_id album) w2) as Hcover.
  destruct (AlbumCoverSeeder.downloadAndStoreAlbumCover E spotifyAlbum (b_id album) w2)
    as [[stored | e |] w3] eqn:Hdownload; [| | done];
    cbn in Hsee3; injection Hsee3 as Hstats3 Hdelays3.
  2: { erewrite try_catch_throw;
         [| rewrite (bind_ok _ _ _ _ _ Hfind), (bind_ok _ _ _ _ _ Hfetch);
            by apply bind_throw].
       cbn in Hcover.
       eexists. split; [reflexivity |]. cbn. rewrite Hstats3, Hstats2, Hcover, Hdb2.
       split; [unfold delays in *; cbn in *; congruence |]. split; [done |]. right. right. by eexists. }
  destruct stored as [m |]; cbn in Hcover;
    (erewrite try_catch_ok;
      [| rewrite (bind_ok _ _ _ _ _ Hfind), (bind_ok _ _ _ _ _ Hfetch),
           (bind_ok _ _ _ _ _ Hdownload); reflexivity]).
  - destruct Hcover as (Hstored & Hmedia & _).
    eexists. split; [reflexivity |]. cbn. rewrite Hstats3, Hstats2.
    split; [unfold delays in *; cbn in *; congruence |]. split; [done |]. right. left. split; [done |].
    exists m. split; [exact Hstored | by rewrite Hmedia, Hdb2].
  - eexists. split; [reflexivity |]. cbn. rewrite Hstats3, Hstats2, Hcover, Hdb2.
    split; [unfold delays in *; cbn in *; congruence |]. split; [done |]. right. right. by eexists.
Qed.

(** One album: one more in the tally, an error message for each failure,
    a Media row for each success, and no wait. *)
Lemma processAlbum_accounts (E : Env) (album : Album) (w : World) :
  ∃ w',
    AlbumCoverSeeder.processAlbum E album w = (Ok tt, w') ∧
    delays w' = delays w ∧
    st_total (w_stats w') = st_total (w_stats w) ∧
    processed w' = processed w ∧
    tally (w_stats w') = S (tally (w_stats w)) ∧
    length (st_errors (w_stats w')) + st_failed (w_stats w) =
      length (st_errors (w_stats w)) + st_failed (w_stats w') ∧
    length (media (w_db w')) + st_success (w_stats w) =
      length (media (w_db w)) + st_success (w_stats w').
Proof.
  destruct (processAlbum_outcome E album w)
    as (w' & Hrun & Hdelays & Htotal &
        [(Hstats & Hdb & _) | [(Hstats & m & _ & Hmedia) | (msg & Hstats & Hmedia)]]);
    exists w'; (split; [exact Hrun |]); (split; [exact Hdelays |]);
    (split; [exact Htotal |]); unfold processed, tally; rewrite Hstats; cbn;
    rewrite ?Hdb, ?Hmedia, ?length_app; cbn; repeat split; lia.
Qed.

Lemma process_albums_accounts (E : Env) (n : nat) (albums : list Album) :
  ∀ (i : nat) (w : World),
    ∃ w',
      AlbumCoverSeeder.process_albums E n i albums w = (Ok tt, w') ∧
      st_total (w_stats w') = st_total (w_stats w) ∧
      processed w' = processed w + length albums ∧
      tally (w_stats w') = tally (w_stats w) + length albums ∧
      length (st_errors (w_stats w')) + st_failed (w_stats w) =
        length (st_errors (w_stats w)) + st_failed (w_stats w') ∧
      length (media (w_db w')) + st_success (w_stats w) =
        length (media (w_db w)) + st_success (w_stats w') ∧
      (i + length albums = n →
       length (delays w') = length (delays w) + (length albums - 1)).
Proof.
  induction albums as [| album rest IH]; intros i w; simpl.
  - exists w. repeat split; lia.
  - destruct (processAlbum_accounts E album w)
      as (w1 & Hrun & Hdelays & Htotal & Hprocessed & Htally & Herrors & Hmedia).
    rewrite (bind_ok _ _ _ _ _ Hrun).
    set (w2 := set_stats (AlbumCoverSeeder.stats_processed (w_stats w1)) w1).
    unfold AlbumCoverSeeder.update_stats. run_monad. fold w2.
    unfold processed, tally in *.
    case_bool_decide as Hi.
    + match goal with |- context [AlbumCoverSeeder.process_albums _ _ _ _ ?w3] =>
        destruct (IH (S i) w3) as (w' & Hrest & H1 & H2 & H3 & H4 & H5 & H6);
        assert (Hd3 : length (delays w3) = S (length (delays w1)))
          by (unfold delays; cbn; rewrite List.filter_app, length_app; cbn; lia);
        cbn in H1, H2, H3, H4, H5
      end.
      exists w'. split; [exact Hrest |]. rewrite Hdelays in Hd3.
      repeat split; try lia; intros Hn; rewrite H6, Hd3 by lia; lia.
    + destruct (IH (S i) w2) as (w' & Hrest & H1 & H2 & H3 & H4 & H5 & H6).
      cbn in H1, H2, H3, H4, H5.
      exists w'. split; [exact Hrest |].
      repeat split; try lia; intros Hn; rewrite H6 by lia;
        change (delays w2) with (delays w1); rewrite Hdelays; lia.
Qed.

Lemma insert_by_length {A} (key : A → string) (x : A) (l : list A) :
  length (prisma.insert_by key x l) = S (length l).
Proof.
  induction l as [| y l IH]; simpl; [done |].
  destruct (String.leb _ _); simpl; by rewrite ?IH.
Qed.

Lemma order_by_length {A} (key : A → string) (l : list A) :
  length (prisma.order_by key l) = length l.
Proof.
  unfold prisma.order_by.
  assert (H : ∀ acc, length (foldl (λ acc x, prisma.insert_by key x acc) acc l)
                     = length acc + length l).
  { induction l as [| x l IH]; intros acc; simpl; [lia |].
    rewrite IH, insert_by_length. lia. }
  apply (H []).
Qed.

Lemma then_bind {A B} (c1 : M unit) (c2 : M A) (k : A → M B) (w : World) :
  (c1 ;;; (x <- c2 ;; k x)) w = (x <- (c1 ;;; c2) ;; k x) w.
Proof. unfold bind. by destruct (c1 w) as [[[] | e |] w1]. Qed.

(** The two steps before the loop: they leave the counters, the store and
    the waits alone, and the albums they hand over are as many as the
    table has. *)
Lemma cover_seeder_setup (E : Env) (w : World) :
  match (AlbumCoverSeeder.ensureContainerExists E ;;;
         AlbumCoverSeeder.getAlbumsFromDatabase E) w with
  | (Ok found, w1) =>
      length found = length (albums (w_db w)) ∧
      w_stats w1 = w_stats w ∧ w_db w1 = w_db w ∧ delays w1 = delays w
  | (Throw _, w1) =>
      w_stats w1 = w_stats w ∧ w_db w1 = w_db w ∧ delays w1 = delays w ∧
      cover_events w1 = cover_events w
  | (Diverge, _) => False
  end.
Proof.
  unfold AlbumCoverSeeder.ensureContainerExists, AlbumCoverSeeder.getAlbumsFromDatabase,
    AlbumCoverSeeder.require_client, containerClient.exists_, containerClient.create,
    containerClient.call, prisma.album_findMany, prisma.guard.
  run_monad. cbn.
  unfold delays, cover_events.
  destruct (env_azure E); cbn; [| done].
  destruct (env_blob E _); cbn;
    [by rewrite !List.filter_app, !app_nil_r |].
  destruct (w_container w); cbn.
  - destruct (env_db E _ _); cbn;
      rewrite ?List.filter_app, ?app_nil_r, ?order_by_length; done.
  - destruct (env_blob E _); cbn;
      [by rewrite !List.filter_app, !app_nil_r |].
    destruct (env_db E _ _); cbn;
      rewrite ?List.filter_app; cbn; rewrite ?app_nil_r, ?order_by_length; done.
Qed.

(** X9. The accounts of a cover-seeding run that returns: [total] is the
    number of albums in the store, every one of them was processed and is
    counted once as skipped, stored or failed; each failure left one
    message and each success one Media row; and the run waited between
    albums only, one time fewer than there are albums. *)
Theorem processAllAlbums_accounts (E : Env) (w w' : World) :
  AlbumCoverSeeder.processAllAlbums E w = (Ok tt, w') →
  let n := length (albums (w_db w)) in
  st_total (w_stats w') = n ∧
  processed w' = processed w + n ∧
  tally (w_stats w') = tally (w_stats w) + n ∧
  length (st_errors (w_stats w')) + st_failed (w_stats w) =
    length (st_errors (w_stats w)) + st_failed (w_stats w') ∧
  length (media (w_db w')) + st_success (w_stats w) =
    length (media (w_db w)) + st_success (w_stats w') ∧
  length (delays w') = length (delays w) + (n - 1).
Proof.
  intros Hrun n. unfold AlbumCoverSeeder.processAllAlbums in Hrun.
  pose proof (cover_seeder_setup E w) as Hsetup.
  unfold try_catch in Hrun. rewrite then_bind in Hrun.
  unfold bind at 1 in Hrun.
  destruct ((AlbumCoverSeeder.ensureContainerExists E ;;;
             AlbumCoverSeeder.getAlbumsFromDatabase E) w)
    as [[found | e |] w1]; [| discriminate | done].
  destruct Hsetup as (Hlen & Hstats & Hdb & Hdelays).
  unfold AlbumCoverSeeder.update_stats in Hrun at 1.
  revert Hrun. run_monad.
  set (w2 := set_stats _ w1).
  destruct (process_albums_accounts E (length found) found 0 w2)
    as (w3 & Hloop & H1 & H2 & H3 & H4 & H5 & H6).
  assert (Hw2 : processed w2 = processed w ∧ tally (w_stats w2) = tally (w_stats w) ∧
                st_errors (w_stats w2) = st_errors (w_stats w) ∧
                st_failed (w_stats w2) = st_failed (w_stats w) ∧
                st_success (w_stats w2) = st_success (w_stats w) ∧
                st_total (w_stats w2) = length found ∧
                w_db w2 = w_db w ∧ delays w2 = delays w).
  { unfold processed, tally, delays in *. subst w2. cbn.
    rewrite Hstats, Hdb, Hdelays. done. }
  destruct Hw2 as (P1 & P2 & P3 & P4 & P5 & P6 & P7 & P8).
  specialize (H6 eq_refl).
  destruct found as [| album rest].
  - intros [= <-]. subst n. cbn in *. rewrite <- Hlen.
    rewrite P8, Hdb, Hstats. unfold processed, tally. repeat split; lia.
  - rewrite Hloop. intros [= <-].
    change (delays (add_log _ w3)) with (delays w3).
    cbn [w_stats w_db add_log]. unfold processed in *. cbn [w_stats add_log].
    subst n. rewrite <- Hlen.
    rewrite H1, H2, H3, H6, P1, P2, P6, P8.
    rewrite P3, P4 in H4. rewrite P5, P7 in H5. repeat split; lia.
Qed.

(** X10. A cover-seeding run raises only before its loop: when
    [processAllAlbums] raises, the container check or the album query
    raised, no album was looked at -- the counters and the store are as they
    were, nothing was downloaded or uploaded, and the run did not wait. *)
Theorem processAllAlbums_raises_before_the_loop (E : Env) (e : JsError) (w w' : World) :
  AlbumCoverSeeder.processAllAlbums E w = (Throw e, w') →
  (∃ w1, (AlbumCoverSeeder.ensureContainerExists E ;;;
          AlbumCoverSeeder.getAlbumsFromDatabase E) w = (Throw e, w1)) ∧
  w_stats w' = w_stats w ∧ w_db w' = w_db w ∧
  cover_events w' = cover_events w ∧ delays w' = delays w.
Proof.
  intros Hrun. unfold AlbumCoverSeeder.processAllAlbums in Hrun.
  pose proof (cover_seeder_setup E w) as Hsetup.
  unfold try_catch in Hrun. rewrite then_bind in Hrun.
  unfold bind at 1 in Hrun.
  destruct ((AlbumCoverSeeder.ensureContainerExists E ;;;
             AlbumCoverSeeder.getAlbumsFromDatabase E) w)
    as [[found | e1 |] w1]; [| | done].
  - exfalso. revert Hrun.
    unfold AlbumCoverSeeder.update_stats at 1. run_monad.
    set (w2 := set_stats _ w1).
    destruct (process_albums_accounts E (length found) found 0 w2) as (w3 & Hloop & _).
    destruct found as [| album rest]; [discriminate |].
    rewrite Hloop. discriminate.
  - destruct Hsetup as (Hstats & Hdb & Hdelays & Hcover).
    revert Hrun. unfold console_error. run_monad. intros [= <- <-].
    split; [by eexists |]. done.
Qed.

Lemma existsb_find {A} (p : A → bool) (l : list A) :
  existsb p l = true → ∃ x, find p l = Some x.
Proof.
  induction l as [| y l IH]; simpl; [done |].
  destruct (p y); [by eexists | exact IH].
Qed.

(** X11. An album whose cover [processAlbum] has just stored is skipped
    the next time: the second call, with the store answering, finds the
    Media row, counts the album as skipped and sends nothing -- no token
    request, no album request, no download, no upload, no new row. *)
Theorem stored_cover_is_skipped_next (E E' : Env) (album : Album) (w w1 : World) :
  AlbumCoverSeeder.processAlbum E album w = (Ok tt, w1) →
  st_success (w_stats w1) = S (st_success (w_stats w)) →
  env_db E' (OpFindMedia (b_id album)) w1 = None →
  ∃ w2, AlbumCoverSeeder.processAlbum E' album w1 = (Ok tt, w2) ∧
        w_trace w2 = w_trace w1 ∧ w_db w2 = w_db w1 ∧ w_blobs w2 = w_blobs w1 ∧
        st_skipped (w_stats w2) = S (st_skipped (w_stats w1)).
Proof.
  intros Hrun Hsuccess Hdb.
  destruct (processAlbum_outcome E album w)
    as (w' & Hrun' & _ & _ &
        [(Hstats & _) | [(_ & m & Hstored & _) | (msg & Hstats & _)]]);
    rewrite Hrun in Hrun'; injection Hrun' as <-.
  - rewrite Hstats in Hsuccess. cbn in Hsuccess. lia.
  - destruct Hstored as (Hin & Halbum & Htype & _).
    destruct (existsb_find (prisma.media_key (b_id album) "album_cover")
                (media (w_db w1))) as [existing Hfind].
    { apply existsb_exists. exists m. split; [by apply list_elem_of_In |].
      unfold prisma.media_key. rewrite Halbum, Htype.
      by rewrite !bool_decide_eq_true_2. }
    exact (processAlbum_skips_covered E' album existing w1 Hdb Hfind).
  - rewrite Hstats in Hsuccess. cbn in Hsuccess. lia.
Qed.

Lemma processAllAlbums_accounts_witness :
  st_total (w_stats Sample.covered) = 2 ∧ processed Sample.covered = 2 ∧
  tally (w_stats Sample.covered) = 2 ∧
  length (delays Sample.covered) = length (delays Sample.seeded) + 1.
Proof.
  assert (Hrun : AlbumCoverSeeder.processAllAlbums Sample.env Sample.seeded
                 = (Ok tt, Sample.covered)) by (vm_compute; reflexivity).
  destruct (processAllAlbums_accounts Sample.env Sample.seeded Sample.covered Hrun)
    as (Htotal & Hprocessed & Htally & _ & _ & Hdelays).
  split; [exact Htotal |]. split; [exact Hprocessed |].
  split; [exact Htally | exact Hdelays].
Defined.

Lemma processAllAlbums_raises_before_the_loop_witness :
  ∃ w', AlbumCoverSeeder.processAllAlbums Sample.store_down Sample.seeded
          = (Throw (Sample.failure "Can't reach database server"), w') ∧
        w_stats w' = w_stats Sample.seeded ∧ w_db w' = w_db Sample.seeded.
Proof.
  destruct (AlbumCoverSeeder.processAllAlbums Sample.store_down Sample.seeded)
    as [[[] | e |] w'] eqn:Hrun.
  - vm_compute in Hrun. discriminate.
  - assert (He : e = Sample.failure "Can't reach database server")
      by (vm_compute in Hrun; injection Hrun as <- _; reflexivity).
    subst e. exists w'. split; [reflexivity |].
    destruct (processAllAlbums_raises_before_the_loop _ _ _ _ Hrun)
      as (_ & Hstats & Hdb & _).
    split; [exact Hstats | exact Hdb].
  - vm_compute in Hrun. discriminate.
Defined.

Lemma stored_cover_is_skipped_next_witness :
  ∃ w1 w2,
    AlbumCoverSeeder.processAlbum Sample.env Sample.albumX_row Sample.seeded = (Ok tt, w1) ∧
    AlbumCoverSeeder.processAlbum Sample.env Sample.albumX_row w1 = (Ok tt, w2) ∧
    w_trace w2 = w_trace w1 ∧ st_skipped (w_stats w2) = 1.
Proof.
  destruct (AlbumCoverSeeder.processAlbum Sample.env Sample.albumX_row Sample.seeded)
    as [[[] | e |] w1] eqn:Hrun.
  - assert (Hsuccess : st_success (w_stats w1) = S (st_success (w_stats Sample.seeded)))
      by (vm_compute in Hrun; injection Hrun as <-; reflexivity).
    assert (Hskipped : st_skipped (w_stats w1) = 0)
      by (vm_compute in Hrun; injection Hrun as <-; reflexivity).
    destruct (stored_cover_is_skipped_next Sample.env Sample.env Sample.albumX_row
                Sample.seeded w1 Hrun Hsuccess eq_refl)
      as (w2 & Hagain & Htrace & _ & _ & Hcount).
    exists w1, w2. split; [reflexivity |]. split; [exact Hagain |].
    split; [exact Htrace |]. rewrite Hcount, Hskipped. reflexivity.
  - vm_compute in Hrun. discriminate.
  - vm_compute in Hrun. discriminate.
Defined.

(** ** The connection to the store *)

Section CoverSeederFrame.
Context {X : Type} (f : World -> X) (quiet : Event -> bool).
Hypothesis f_log : ∀ l w, f (add_log l w) = f w.
Hypothesis f_event : ∀ e w, quiet e = true → f (add_event e w) = f w.
Hypothesis f_clock : ∀ ms w, f (advance ms w) = f w.
Hypothesis f_id : ∀ w, f (bump_id w) = f w.
Hypothesis f_db : ∀ d w, f (set_db d w) = f w.
Hypothesis f_token : ∀ t x w, f (set_token t x w) = f w.
Hypothesis f_container : ∀ c w, f (set_container c w) = f w.
Hypothesis f_stats : ∀ s w, f (set_stats s w) = f w.
Hypothesis f_blob : ∀ b w, f (add_blob b w) = f w.
Hypothesis q_token : quiet EvTokenRequest = true.
Hypothesis q_delay : ∀ ms, quiet (EvDelay ms) = true.
Hypothesis q_page : ∀ p l o, quiet (EvGetPage p l o) = true.
Hypothesis q_playlist : ∀ p, quiet (EvGetPlaylist p) = true.
Hypothesis q_album : ∀ p, quiet (EvGetAlbum p) = true.
Hypothesis q_exists : quiet EvContainerExists = true.
Hypothesis q_create : quiet EvContainerCreate = true.
Hypothesis q_download : ∀ url, quiet (EvDownload url) = true.
Hypothesis q_upload : ∀ uuid ext, quiet (EvUpload uuid ext) = true.

Lemma seedDatabase_preserves E fuel : preserves f (SpotifySeeder.seedDatabase E fuel).
Proof.
  unfold SpotifySeeder.seedDatabase.
  apply preserves_try_catch.
  - apply preserves_bind; [by apply (fetchPlaylist_preserves f quiet) | intros playlist].
    apply preserves_bind; [by apply (processTracks_preserves f quiet) | intros data].
    apply preserves_bind; [by apply console_log_preserves | intros _].
    apply preserves_ret.
  - intros e. apply preserves_bind; [by apply console_error_preserves | intros _].
    apply preserves_throw.
Qed.

Lemma processAlbum_preserves E album : preserves f (AlbumCoverSeeder.processAlbum E album).
Proof.
  unfold AlbumCoverSeeder.processAlbum, AlbumCoverSeeder.processAlbum_steps,
    AlbumCoverSeeder.update_stats.
  apply preserves_try_catch; [| intros e; frame; by apply console_error_preserves].
  apply preserves_bind; [by apply media_findFirst_preserves |].
  intros [existing |]; [frame; by apply console_log_preserves |].
  apply preserves_bind; [by apply (fetchAlbumFromSpotify_preserves f quiet) |].
  intros [spotifyAlbum |]; [| frame; by apply console_log_preserves].
  apply preserves_bind; [by apply (album_cover_preserves f quiet) |].
  intros [stored |]; frame; by apply console_log_preserves.
Qed.

Lemma process_albums_preserves E n albums :
  ∀ i, preserves f (AlbumCoverSeeder.process_albums E n i albums).
Proof.
  induction albums as [| album rest IH]; intros i; simpl; [apply preserves_ret |].
  apply preserves_bind; [apply processAlbum_preserves | intros _].
  apply preserves_bind;
    [unfold AlbumCoverSeeder.update_stats; apply preserves_modify; intros w; apply f_stats |
     intros _].
  apply preserves_bind; [| intros _; apply IH].
  case_bool_decide; [by apply (delay_preserves f quiet) | apply preserves_ret].
Qed.

Lemma processAllAlbums_preserves E : preserves f (AlbumCoverSeeder.processAllAlbums E).
Proof.
  unfold AlbumCoverSeeder.processAllAlbums.
  apply preserves_try_catch;
    [| intros e; apply preserves_bind;
         [by apply console_error_preserves | intros _; apply preserves_throw]].
  apply preserves_bind.
  { unfold AlbumCoverSeeder.ensureContainerExists, AlbumCoverSeeder.require_client,
      containerClient.exists_, containerClient.create.
    frame; auto using console_log_preserves, console_error_preserves, call_preserves. }
  intros _. apply preserves_bind.
  { unfold AlbumCoverSeeder.getAlbumsFromDatabase, prisma.album_findMany.
    frame; auto using console_error_preserves, guard_preserves. }
  intros found. apply preserves_bind;
    [unfold AlbumCoverSeeder.update_stats; apply preserves_modify; intros w; apply f_stats |
     intros _].
  destruct found as [| album rest]; [by apply console_log_preserves |].
  apply preserves_bind; [apply process_albums_preserves | intros _].
  by apply console_log_preserves.
Qed.

End CoverSeederFrame.

Ltac unseen_by_connection :=
  intros; try reflexivity;
  match goal with
  | H : negb (is_connection_event ?e) = true |- _ =>
      cbv beta; unfold connection; cbn; rewrite List.filter_app; cbn;
      apply negb_true_iff in H; rewrite H, app_nil_r; reflexivity
  end.

(** What [connect] followed by [run] does with the connection, when [run]
    itself does not touch it. *)
Lemma connect_then {A} (E : Env) (run : M A) (w : World) :
  preserves connection run →
  connection (snd ((prisma.connect E ;;; run) w)) = connection w ++ [EvConnect].
Proof.
  intros Hrun. unfold prisma.connect, prisma.guard. run_monad.
  set (w1 := add_event EvConnect w).
  assert (H1 : connection w1 = connection w ++ [EvConnect])
    by (unfold connection; cbn; by rewrite List.filter_app).
  destruct (env_db E OpConnect w1); [exact H1 |].
  cbv beta iota. specialize (Hrun w1).
  destruct (run w1) as [[a | e |] w2]; cbn in *; congruence.
Qed.

(** X12. Both scripts open the connection to the store exactly when the
    configuration checks pass, and close it exactly when [main] runs to its
    end: a run that exits with code 1 after the checks has called
    $connect() and never $disconnect(), because the catch block ends the
    process before the finally block is reached. *)
Theorem connection_closed_only_on_return (E : Env) (fuel : nat)
    (AZURE_STORAGE_CONNECTION_STRING : option string) (w : World) :
  (∀ o w', SpotifySeeder.main E fuel w = (o, w') →
     (configured E → connection w' = connection w ++ opened_and o) ∧
     (¬ configured E → o = Exited 1 ∧ connection w' = connection w)) ∧
  (∀ o w', AlbumCoverSeeder.main E AZURE_STORAGE_CONNECTION_STRING w = (o, w') →
     (configured E ∧ truthy_str AZURE_STORAGE_CONNECTION_STRING = true →
        connection w' = connection w ++ opened_and o) ∧
     (¬ (configured E ∧ truthy_str AZURE_STORAGE_CONNECTION_STRING = true) →
        o = Exited 1 ∧ connection w' = connection w)).
Proof.
  split; intros o w'.
  - unfold SpotifySeeder.main, configured.
    destruct (truthy_str (env_client_id E)); cbn; [| intros [= <- <-]; split; [intuition discriminate | done]].
    destruct (truthy_str (env_client_secret E)); cbn; [| intros [= <- <-]; split; [intuition discriminate | done]].
    destruct (truthy_str (env_database_url E)); cbn; [| intros [= <- <-]; split; [intuition discriminate | done]].
    intros Hrun. split; [intros _ | intros H; destruct H; done].
    assert (Hopen : preserves connection
              (SpotifySeeder.ensureContainerExists E ;;; SpotifySeeder.seedDatabase E fuel)).
    { apply preserves_bind;
        [apply (ensureContainerExists_preserves _ (λ e, negb (is_connection_event e)));
           unseen_by_connection |
         intros _;
         apply (seedDatabase_preserves _ (λ e, negb (is_connection_event e)));
           unseen_by_connection]. }
    pose proof (connect_then E _ (set_token None None w) Hopen) as Hconn.
    destruct ((prisma.connect E ;;; _) (set_token None None w)) as [[a | e |] w1];
      injection Hrun as <- <-; cbn in Hconn.
    + unfold connection in *. cbn. rewrite List.filter_app, Hconn. cbn.
      by rewrite <- app_assoc.
    + exact Hconn.
    + exact Hconn.
  - unfold AlbumCoverSeeder.main, configured.
    destruct (truthy_str AZURE_STORAGE_CONNECTION_STRING); cbn;
      [| intros [= <- <-]; split; [intuition discriminate | done]].
    destruct (truthy_str (env_client_id E)); cbn; [| intros [= <- <-]; split; [intuition discriminate | done]].
    destruct (truthy_str (env_client_secret E)); cbn; [| intros [= <- <-]; split; [intuition discriminate | done]].
    destruct (truthy_str (env_database_url E)); cbn; [| intros [= <- <-]; split; [intuition discriminate | done]].
    intros Hrun. split; [intros _ | intros H; destruct H; done].
    assert (Hopen : preserves connection (AlbumCoverSeeder.processAllAlbums E))
      by (apply (processAllAlbums_preserves _ (λ e, negb (is_connection_event e)));
          unseen_by_connection).
    pose proof (connect_then E _ (AlbumCoverSeeder.constructor w) Hopen) as Hconn.
    destruct ((prisma.connect E ;;; _) (AlbumCoverSeeder.constructor w)) as [[a | e |] w1];
      injection Hrun as <- <-; cbn in Hconn.
    + unfold connection in *. cbn. rewrite List.filter_app, Hconn. cbn.
      by rewrite <- app_assoc.
    + exact Hconn.
    + exact Hconn.
Qed.

(** X13. The cover seeder cannot run without a blob client: when the
    connection string is set but the client could not be built from it, the
    script warns at load time that covers "will not be downloaded" and goes
    on, and [main] then always exits with code 1 -- the first use of the
    null client raises in [ensureContainerExists] -- after opening the
    connection and before any album is read: nothing is asked of Spotify or
    of the blob store, the store is as it was and every counter is zero. *)
Theorem cover_seeder_needs_blob_client (E : Env)
    (AZURE_STORAGE_CONNECTION_STRING : option string) (w : World) :
  env_azure E = false →
  truthy_str AZURE_STORAGE_CONNECTION_STRING = true →
  configured E →
  ∃ w', AlbumCoverSeeder.main E AZURE_STORAGE_CONNECTION_STRING w = (Exited 1, w') ∧
        w_trace w' = w_trace w ++ [EvConnect] ∧ w_db w' = w_db w ∧
        w_blobs w' = w_blobs w ∧
        w_stats w' = w_stats (AlbumCoverSeeder.constructor w) ∧
        (env_db E OpConnect (add_event EvConnect (AlbumCoverSeeder.constructor w)) = None →
         last (w_log w') =
           Some (LogError " Script execution failed:"
                   "Cannot read properties of null (reading 'exists')")).
Proof.
  intros Hazure Hstring (Hid & Hsecret & Hurl).
  unfold AlbumCoverSeeder.main. rewrite Hstring, Hid, Hsecret, Hurl. cbn [negb orb].
  unfold AlbumCoverSeeder.processAllAlbums, AlbumCoverSeeder.ensureContainerExists,
    AlbumCoverSeeder.require_client, prisma.connect, prisma.guard.
  rewrite Hazure. run_monad. cbn.
  destruct (env_db E OpConnect _) as [e |]; cbn.
  - eexists. split; [reflexivity |]. repeat split. intros [=].
  - eexists. split; [reflexivity |]. repeat split. intros _.
    cbn [add_log w_log]. by rewrite last_snoc.
Qed.

Lemma connection_closed_only_on_return_witness :
  ∃ w', SpotifySeeder.main Sample.auth_refused 10 Sample.world0 = (Exited 1, w') ∧
        connection w' = [EvConnect].
Proof.
  destruct (SpotifySeeder.main Sample.auth_refused 10 Sample.world0) as [o w'] eqn:Hrun.
  destruct (connection_closed_only_on_return Sample.auth_refused 10 None Sample.world0)
    as [Hspotify _].
  destruct (Hspotify o w' Hrun) as [Hopen _].
  assert (Ho : o = Exited 1) by (vm_compute in Hrun; injection Hrun as <- _; reflexivity).
  subst o. exists w'. split; [reflexivity |].
  apply Hopen. repeat split.
Defined.

Lemma cover_seeder_needs_blob_client_witness :
  ∃ w', AlbumCoverSeeder.main (Sample.without_client Sample.env) (Some "UseDevelopmentStorage=true")
          Sample.seeded = (Exited 1, w') ∧
        w_db w' = w_db Sample.seeded.
Proof.
  destruct (cover_seeder_needs_blob_client (Sample.without_client Sample.env)
              (Some "UseDevelopmentStorage=true") Sample.seeded)
    as (w' & Hrun & _ & Hdb & _).
  - reflexivity.
  - reflexivity.
  - repeat split.
  - exists w'. split; [exact Hrun | exact Hdb].
Defined.

(** ** What the import reports *)

Lemma rethrow_ok_inv {A} (c : M A) (ctx : string) (w w' : World) (a : A) :
  try_catch c (λ error, console_error ctx error ;;; throw error) w = (Ok a, w') →
  c w = (Ok a, w').
Proof. unfold try_catch. by destruct (c w) as [[a' | e |] w1]. Qed.










(** ** The store under the import *)

Lemma grows_refl (d : Db) : grows d d.
Proof. by intros t. Qed.

Lemma grows_trans (d1 d2 d3 : Db) : grows d1 d2 → grows d2 d3 → grows d1 d3.
Proof. intros H1 H2 t. transitivity (rows t d2); [apply H1 | apply H2]. Qed.

Lemma find_key_app (k : Key) (l l' : list (Key * nat)) (s : Key * nat) :
  find (λ s, bool_decide (s.1 = k)) l = Some s →
  find (λ s, bool_decide (s.1 = k)) (l ++ l') = Some s.
Proof.
  induction l as [| x l IH]; simpl; [done |].
  by destruct (bool_decide (x.1 = k)).
Qed.

Lemma find_key_none (k : Key) (l : list (Key * nat)) :
  find (λ s, bool_decide (s.1 = k)) l = None ↔ k ∉ l.*1.
Proof.
  induction l as [| x l IH]; simpl.
  - split; [intros _; apply not_elem_of_nil | done].
  - rewrite not_elem_of_cons. case_bool_decide as Hx.
    + split; [done | intros [Hne _]; by destruct Hne].
    + rewrite IH. split; [intros ?; split; [congruence | done] | by intros [_ ?]].
Qed.

Lemma id_of_grows (t : Table) (d d' : Db) (k : Key) (id : nat) :
  grows d d' → id_of t d k = Some id → id_of t d' k = Some id.
Proof.
  intros Hgrows. unfold id_of. destruct (Hgrows t) as [more ->].
  destruct (find _ (rows t d)) as [s |] eqn:Hfind; [| done].
  by rewrite (find_key_app _ _ _ _ Hfind).
Qed.

Lemma id_of_is_Some (t : Table) (d : Db) (k : Key) :
  is_Some (id_of t d k) ↔ k ∈ (rows t d).*1.
Proof.
  unfold id_of. rewrite fmap_is_Some.
  destruct (find _ _) as [s |] eqn:Hfind.
  - split; [intros _ | by eexists].
    destruct (decide (k ∈ (rows t d).*1)) as [| Hno]; [done |].
    apply find_key_none in Hno. congruence.
  - split; [by intros [? [=]] |]. intros Hin. by apply find_key_none in Hfind.
Qed.

(** *** One upsert *)

Section Upsert.
Context {A : Type} (t : Table) (sig : A → Key * nat).
Context (table : Db → list A) (set_table : list A → Db → Db).
Context (p : A → bool) (update : A → A) (create : nat → Z → A) (k : Key).
Hypothesis rows_table : ∀ d, rows t d = sig <$> table d.
Hypothesis rows_set : ∀ l d, rows t (set_table l d) = sig <$> l.
Hypothesis rows_other : ∀ l d t', t' ≠ t → rows t' (set_table l d) = rows t' d.
Hypothesis where_key : ∀ r, p r = bool_decide ((sig r).1 = k).
Hypothesis update_keeps : ∀ old, p old = true → sig (update old) = sig old.
Hypothesis create_sets : ∀ id now, (sig (create id now)).1 = k.

Lemma find_where (l : list A) :
  find (λ s, bool_decide (s.1 = k)) (sig <$> l) = sig <$> find p l.
Proof.
  induction l as [| x l IH]; simpl; [done |].
  rewrite where_key. by destruct (bool_decide ((sig x).1 = k)).
Qed.

Lemma replace_first_sig (l : list A) (new : A) :
  (∀ old, find p l = Some old → sig new = sig old) →
  sig <$> prisma.replace_first p new l = sig <$> l.
Proof.
  induction l as [| x l IH]; simpl; [done |].
  destruct (p x) eqn:Hx; intros Hnew; cbn.
  - by rewrite (Hnew x eq_refl).
  - f_equal. by apply IH.
Qed.

(** What an upsert does to the rows: nothing when it is refused or finds
    its key, one row under the key at the end otherwise; and the row it
    returns is afterwards the first under the key. *)
Lemma upsert_upserts (E : Env) (op : DbOp) :
  upserts t k (λ row, (sig row).2) (prisma.upsert E op table set_table p update create).
Proof.
  intros w. unfold prisma.upsert, prisma.guard. run_monad.
  destruct (env_db E op w) as [e |]; cbv beta iota zeta.
  { repeat split; try done. by left. }
  pose proof (find_where (table (w_db w))) as Hwhere.
  destruct (find p (table (w_db w))) as [old |] eqn:Hfind; cbn.
  - assert (Hsame : sig <$> prisma.replace_first p (update old) (table (w_db w))
                    = sig <$> table (w_db w)).
    { apply replace_first_sig. intros old' Hold.
      rewrite Hfind in Hold. injection Hold as <-. apply update_keeps.
      by apply find_some in Hfind as [_ ?]. }
    split; [intros t' Ht'; by apply rows_other |].
    rewrite rows_set, rows_table, Hsame.
    split; [by left |]. split; [done |].
    intros row w' [= <- <-]. cbn.
    rewrite update_keeps by (by apply find_some in Hfind as [_ ?]).
    unfold id_of. by rewrite rows_set, Hsame, Hwhere.
  - assert (Hno : k ∉ (rows t (w_db w)).*1)
      by (apply find_key_none; by rewrite rows_table, Hwhere).
    set (row := create (w_next_id w) (w_clock w)).
    pose proof (create_sets (w_next_id w) (w_clock w)) as Hk. fold row in Hk.
    assert (Hrow : sig row = (k, (sig row).2))
      by (rewrite <- Hk; apply surjective_pairing).
    split; [intros t' Ht'; by apply rows_other |].
    rewrite rows_set, rows_table, fmap_app. cbn. rewrite <- rows_table.
    split; [right; split; [done |]; exists (sig row).2; by rewrite <- Hrow |].
    split; [done |].
    intros row' w' [= <- <-]. cbn.
    unfold id_of. rewrite rows_set, fmap_app.
    apply find_key_none in Hno. rewrite rows_table in Hno.
    clear -Hno Hrow create_sets. induction (sig <$> table (w_db w)) as [| x l IH]; simpl in *.
    + fold row. rewrite Hrow. cbn. by rewrite bool_decide_eq_true_2.
    + destruct (bool_decide (x.1 = k)); [done | by apply IH].
Qed.

End Upsert.

(** *** The upserts of the import *)

Lemma rethrow_db {A} (c : M A) (ctx : string) (w : World) :
  w_db (try_catch c (λ error, console_error ctx error ;;; throw error) w).2 = w_db (c w).2.
Proof. unfold try_catch. by destruct (c w) as [[a | e |] w1]. Qed.

Lemma upserts_rethrow {A} (t : Table) (k : Key) (ident : A → nat) (c : M A) (ctx : string) :
  upserts t k ident c →
  upserts t k ident (try_catch c (λ error, console_error ctx error ;;; throw error)).
Proof.
  intros Hc w. rewrite rethrow_db. destruct (Hc w) as (H1 & H2 & H3 & H4).
  repeat split; try done. intros row w' Hrun%rethrow_ok_inv. by apply H4.
Qed.

Lemma upserts_now {A} (t : Table) (k : Key) (ident : A → nat) (c : Z → M A) :
  (∀ now, upserts t k ident (c now)) → upserts t k ident (now <- Date_now ;; c now).
Proof. intros Hc w. apply Hc. Qed.

Ltac other_tables :=
  let t' := fresh "t" in let H := fresh in
  intros ? ? t' H; destruct t'; try reflexivity; by destruct H.

Ltac by_key :=
  intros; unfold prisma.playlistTrack_key; cbn; rewrite <- ?bool_decide_and; apply bool_decide_ext;
  split; [intros; destruct_and?; congruence | intros [=]; done].

Lemma upsertArtist_upserts (E : Env) (artistData : ArtistData) :
  upserts Artists (BySpotifyId (ad_id artistData)) a_id (SpotifySeeder.upsertArtist E artistData).
Proof.
  apply upserts_rethrow, upserts_now. intros now.
  apply (upsert_upserts Artists (λ r, (BySpotifyId (a_spotify_id r), a_id r)));
    try done; [other_tables | by_key].
Qed.

Lemma upsertAlbum_upserts (E : Env) (albumData : AlbumData) :
  upserts Albums (BySpotifyId (al_id albumData)) b_id (SpotifySeeder.upsertAlbum E albumData).
Proof.
  apply upserts_rethrow, upserts_now. intros now.
  apply (upsert_upserts Albums (λ r, (BySpotifyId (b_spotify_id r), b_id r)));
    try done; [other_tables | by_key].
Qed.

Lemma upsertTrack_upserts (E : Env) (trackData : TrackData) (albumId : nat) :
  upserts Tracks (BySpotifyId (td_id trackData)) t_id
    (SpotifySeeder.upsertTrack E trackData albumId).
Proof.
  apply upserts_rethrow, upserts_now. intros now.
  apply (upsert_upserts Tracks (λ r, (BySpotifyId (t_spotify_id r), t_id r)));
    try done; [other_tables | by_key].
Qed.

Lemma upsertPlaylist_upserts (E : Env) (playlistData : PlaylistData) :
  upserts Playlists (BySpotifyId (pd_id playlistData)) p_id
    (SpotifySeeder.upsertPlaylist E playlistData).
Proof.
  apply upserts_rethrow, upserts_now. intros now.
  apply (upsert_upserts Playlists (λ r, (BySpotifyId (p_spotify_id r), p_id r)));
    try done; [other_tables | by_key].
Qed.

Lemma albumArtist_upserts (E : Env) (albumId artistId : nat) :
  upserts AlbumArtists (ByPair albumId artistId) (λ _, 0)
    (prisma.albumArtist_upsert E albumId artistId (λ old, old)
       (λ _ _, {| aa_album_id := albumId; aa_artist_id := artistId |})).
Proof.
  apply (upsert_upserts AlbumArtists
           (λ r, (ByPair (aa_album_id r) (aa_artist_id r), 0)));
    try done; [other_tables | by_key].
Qed.

Lemma trackArtist_upserts (E : Env) (trackId artistId : nat) :
  upserts TrackArtists (ByPair trackId artistId) (λ _, 0)
    (prisma.trackArtist_upsert E trackId artistId (λ old, old)
       (λ _ _, {| ta_track_id := trackId; ta_artist_id := artistId |})).
Proof.
  apply (upsert_upserts TrackArtists
           (λ r, (ByPair (ta_track_id r) (ta_artist_id r), 0)));
    try done; [other_tables | by_key].
Qed.

Lemma playlistTrack_upserts (E : Env) (playlistId trackId i : nat) (trackItem : TrackItem) :
  upserts PlaylistTracks (ByPosition playlistId trackId (i + 1)) (λ _, 0)
    (prisma.playlistTrack_upsert E playlistId trackId (i + 1)
       (λ old,
          {| pt_playlist_id := pt_playlist_id old;
             pt_track_id := pt_track_id old;
             pt_position := i + 1;
             pt_added_at := ti_added_at trackItem;
             pt_added_by_id := or_null (ti_added_by trackItem ≫= ab_id);
             pt_added_by_name := or_null (ti_added_by trackItem ≫= ab_display_name) |})
       (λ _ _, SpotifySeeder.playlist_track_row playlistId trackId i trackItem)).
Proof.
  apply (upsert_upserts PlaylistTracks
           (λ r, (ByPosition (pt_playlist_id r) (pt_track_id r) (pt_position r), 0)));
    try done; [other_tables | by_key |].
  intros old Hold. cbn. unfold prisma.playlistTrack_key in Hold.
  apply andb_prop in Hold as [_ Hposition]. apply bool_decide_eq_true in Hposition.
  by rewrite Hposition.
Qed.

(** *** Every step is safe *)

Lemma upserts_safe {A} (t : Table) (k : Key) (ident : A → nat) (c : M A) :
  upserts t k ident c → store_safe c.
Proof.
  intros Hc w. destruct (Hc w) as (Hother & Hthis & _). split.
  - intros t'. destruct (decide (t' = t)) as [-> | Hne]; [| by rewrite Hother].
    destruct Hthis as [-> | (_ & id & ->)]; [done | by apply prefix_app_r].
  - intros Hunique t'. destruct (decide (t' = t)) as [-> | Hne];
      [| rewrite Hother by done; apply Hunique].
    destruct Hthis as [-> | (Hno & id & ->)]; [apply Hunique |].
    rewrite fmap_app. apply NoDup_app. split; [apply Hunique |].
    split; [| apply NoDup_singleton].
    intros x Hx Hk. apply list_elem_of_singleton in Hk. by subst x.
Qed.

Lemma store_safe_frame {A} (c : M A) : preserves w_db c → store_safe c.
Proof. intros Hc w. rewrite (Hc w). split; [apply grows_refl | done]. Qed.

Lemma store_safe_ret {A} (a : A) : store_safe (ret a).
Proof. intros w. split; [apply grows_refl | done]. Qed.

Lemma store_safe_bind {A B} (c : M A) (k : A → M B) :
  store_safe c → (∀ a, store_safe (k a)) → store_safe (bind c k).
Proof.
  intros Hc Hk w. unfold bind. destruct (Hc w) as [Hg Hu].
  destruct (c w) as [[a | e |] w1]; cbn in *; [| done | done].
  destruct (Hk a w1) as [Hg' Hu'].
  split; [by eapply grows_trans | auto].
Qed.

Lemma store_safe_try_catch {A} (c : M A) (h : JsError → M A) :
  store_safe c → (∀ e, store_safe (h e)) → store_safe (try_catch c h).
Proof.
  intros Hc Hh w. unfold try_catch. destruct (Hc w) as [Hg Hu].
  destruct (c w) as [[a | e |] w1]; cbn in *; [done | | done].
  destruct (Hh e w1) as [Hg' Hu'].
  split; [by eapply grows_trans | auto].
Qed.

Lemma store_safe_rethrow {A} (c : M A) (ctx : string) :
  store_safe c → store_safe (try_catch c (λ error, console_error ctx error ;;; throw error)).
Proof. intros Hc w. rewrite rethrow_db. apply Hc. Qed.

Lemma store_safe_log {A} (msg : string) (c : M A) :
  store_safe c → store_safe (console_log msg ;;; c).
Proof. intros Hc w. apply (Hc (add_log (LogInfo msg) w)). Qed.

Lemma media_create_safe (E : Env) (data : nat → Media) :
  store_safe (prisma.media_create E data).
Proof.
  intros w. unfold prisma.media_create, prisma.guard. run_monad. cbn.
  destruct (env_db E _ _); cbn; [split; [apply grows_refl | done] |].
  destruct (existsb _ _) eqn:Hdup; cbn; [split; [apply grows_refl | done] |].
  split.
  - intros t. destruct t; try done. cbn. rewrite fmap_app. by apply prefix_app_r.
  - intros Hunique t. destruct (decide (t = Medias)) as [-> | Hne];
      [| destruct t;
         first [by destruct Hne
               | match goal with |- NoDup (rows ?t _).*1 => exact (Hunique t) end]].
    specialize (Hunique Medias). cbn in *. rewrite !fmap_app. apply NoDup_app.
    split; [exact Hunique |]. split; [| apply NoDup_singleton].
    intros x Hx Hk. apply list_elem_of_singleton in Hk. subst x.
    rewrite <- list_fmap_compose in Hx. apply list_elem_of_fmap in Hx as (m & Hkey & Hm).
    cbn in Hkey. injection Hkey as Halbum Htype.
    assert (Hfound : existsb (prisma.media_key (m_album_id (data (w_next_id w)))
                                (m_type (data (w_next_id w)))) (media (w_db w)) = true).
    { apply existsb_exists. exists m. split; [by apply list_elem_of_In |].
      unfold prisma.media_key. by rewrite Halbum, Htype, !bool_decide_eq_true_2. }
    congruence.
Qed.

Lemma spotify_cover_safe (E : Env) (albumData : AlbumData) (albumId : nat) :
  store_safe (SpotifySeeder.downloadAndStoreAlbumCover E albumData albumId).
Proof.
  unfold SpotifySeeder.downloadAndStoreAlbumCover.
  destruct (env_azure E); cbn [negb]; [| apply store_safe_frame; frame].
  apply store_safe_try_catch; [| intros e; apply store_safe_frame; frame].
  destruct (al_images albumData) as [[| image rest] |];
    try solve [apply store_safe_frame; frame].
  apply store_safe_log.
  apply store_safe_bind;
    [apply store_safe_frame, (http_preserves _ (λ _, true)); done | intros response].
  apply store_safe_bind; [apply store_safe_frame; frame | intros uuid].
  apply store_safe_bind;
    [apply store_safe_frame; unfold containerClient.upload, containerClient.call; frame |
     intros ?].
  apply store_safe_log.
  apply store_safe_bind; [apply media_create_safe | intros row].
  apply store_safe_frame; frame.
Qed.

Lemma album_cover_safe (E : Env) (albumData : AlbumData) (albumId : nat) :
  store_safe (AlbumCoverSeeder.downloadAndStoreAlbumCover E albumData albumId).
Proof.
  unfold AlbumCoverSeeder.downloadAndStoreAlbumCover.
  apply store_safe_rethrow.
  destruct (al_images albumData) as [[| image rest] |];
    try solve [apply store_safe_frame; frame].
  apply store_safe_log.
  apply store_safe_bind;
    [apply store_safe_frame, (http_preserves _ (λ _, true)); done | intros response].
  apply store_safe_bind; [apply store_safe_frame; frame | intros uuid].
  apply store_safe_bind;
    [apply store_safe_frame; unfold AlbumCoverSeeder.require_client; frame | intros ?].
  apply store_safe_bind;
    [apply store_safe_frame; unfold containerClient.upload, containerClient.call; frame |
     intros ?].
  apply store_safe_log.
  apply store_safe_bind; [apply media_create_safe | intros row].
  apply store_safe_frame; frame.
Qed.

Lemma process_artists_safe (E : Env) (l : list ArtistData) :
  ∀ artistIds processedData,
    store_safe (SpotifySeeder.process_artists E l artistIds processedData).
Proof.
  induction l as [| artist rest IH]; intros artistIds processedData; simpl;
    [apply store_safe_ret |].
  apply store_safe_bind; [| intros row; apply IH].
  eapply upserts_safe, upsertArtist_upserts.
Qed.

Lemma createAlbumArtistRelations_safe (E : Env) (albumId : nat) (artistIds : list nat) :
  store_safe (SpotifySeeder.createAlbumArtistRelations E albumId artistIds).
Proof.
  apply store_safe_rethrow.
  induction artistIds as [| artistId rest IH]; simpl; [apply store_safe_ret |].
  apply store_safe_bind; [| intros ?; apply IH].
  eapply upserts_safe, albumArtist_upserts.
Qed.

Lemma createTrackArtistRelations_safe (E : Env) (trackId : nat) (artistIds : list nat) :
  store_safe (SpotifySeeder.createTrackArtistRelations E trackId artistIds).
Proof.
  apply store_safe_rethrow.
  induction artistIds as [| artistId rest IH]; simpl; [apply store_safe_ret |].
  apply store_safe_bind; [| intros ?; apply IH].
  eapply upserts_safe, trackArtist_upserts.
Qed.

Lemma track_findUnique_keeps (E : Env) (k : string) :
  preserves w_db (prisma.track_findUnique E k).
Proof. unfold prisma.track_findUnique. frame. apply guard_preserves. Qed.

Lemma link_playlist_tracks_safe (E : Env) (playlistId : nat) (tracks : list TrackItem) :
  ∀ i, store_safe (SpotifySeeder.link_playlist_tracks E playlistId i tracks).
Proof.
  induction tracks as [| trackItem rest IH]; intros i; simpl; [apply store_safe_ret |].
  apply store_safe_bind; [apply store_safe_frame, preserves_read_of | intros data].
  apply store_safe_bind; [apply store_safe_frame, track_findUnique_keeps | intros track].
  apply store_safe_bind; [| intros ?; apply IH].
  destruct track as [track |]; [| apply store_safe_ret].
  apply store_safe_bind; [| intros ?; apply store_safe_ret].
  eapply upserts_safe, playlistTrack_upserts.
Qed.

Lemma createPlaylistTrackRelations_safe (E : Env) (playlistId : nat)
    (tracks : list TrackItem) (addedAt : option string) :
  store_safe (SpotifySeeder.createPlaylistTrackRelations E playlistId tracks addedAt).
Proof. apply store_safe_rethrow, link_playlist_tracks_safe. Qed.

Lemma process_record_safe (E : Env) (n i : nat) (trackItem : TrackItem)
    (processedData : ProcessedData) :
  store_safe (SpotifySeeder.process_record E n i trackItem processedData).
Proof.
  unfold SpotifySeeder.process_record. cbv zeta.
  apply store_safe_bind; [apply store_safe_frame, preserves_read_of | intros track].
  apply store_safe_bind; [apply process_artists_safe | intros r].
  apply store_safe_bind; [eapply upserts_safe, upsertAlbum_upserts | intros processedAlbum].
  apply store_safe_bind.
  { destruct (negb _); [| apply store_safe_frame; frame].
    apply store_safe_bind; [apply spotify_cover_safe | intros ?; apply store_safe_ret]. }
  intros ?.
  apply store_safe_bind; [apply createAlbumArtistRelations_safe | intros ?].
  apply store_safe_bind; [eapply upserts_safe, upsertTrack_upserts | intros processedTrack].
  apply store_safe_bind; [apply createTrackArtistRelations_safe | intros ?].
  apply store_safe_frame. case_bool_decide; unfold delay; frame.
Qed.

Lemma process_records_safe (E : Env) (n : nat) (tracks : list TrackItem) :
  ∀ i processedData,
    store_safe (SpotifySeeder.process_records E n i tracks processedData).
Proof.
  induction tracks as [| trackItem rest IH]; intros i processedData; simpl;
    [apply store_safe_ret |].
  apply store_safe_bind; [apply process_record_safe | intros next; apply IH].
Qed.

Lemma processTracks_safe (E : Env) (playlist : PlaylistData) :
  store_safe (SpotifySeeder.processTracks E playlist).
Proof.
  unfold SpotifySeeder.processTracks. cbv zeta. apply store_safe_rethrow.
  apply store_safe_bind; [eapply upserts_safe, upsertPlaylist_upserts | intros stored].
  apply store_safe_bind; [apply process_records_safe | intros processedData].
  apply store_safe_bind; [apply createPlaylistTrackRelations_safe | intros ?].
  apply store_safe_frame; frame.
Qed.

Lemma processAlbum_safe (E : Env) (album : Album) :
  store_safe (AlbumCoverSeeder.processAlbum E album).
Proof.
  unfold AlbumCoverSeeder.processAlbum, AlbumCoverSeeder.processAlbum_steps,
    AlbumCoverSeeder.update_stats.
  apply store_safe_try_catch; [| intros e; apply store_safe_frame; frame].
  apply store_safe_bind;
    [apply store_safe_frame, (media_findFirst_preserves _); done |].
  intros [existing |]; [apply store_safe_frame; frame |].
  apply store_safe_bind;
    [apply store_safe_frame, (fetchAlbumFromSpotify_preserves _ (λ _, true)); done |].
  intros [spotifyAlbum |]; [| apply store_safe_frame; frame].
  apply store_safe_bind; [apply album_cover_safe |].
  intros [stored |]; apply store_safe_frame; frame.
Qed.

Lemma process_albums_safe (E : Env) (n : nat) (albums : list Album) :
  ∀ i, store_safe (AlbumCoverSeeder.process_albums E n i albums).
Proof.
  induction albums as [| album rest IH]; intros i; simpl; [apply store_safe_ret |].
  apply store_safe_bind; [apply processAlbum_safe | intros ?].
  unfold AlbumCoverSeeder.update_stats.
  apply store_safe_bind; [apply store_safe_frame; frame | intros ?].
  apply store_safe_bind; [| intros ?; apply IH].
  apply store_safe_frame. case_bool_decide; unfold delay; frame.
Qed.

Lemma processAllAlbums_safe (E : Env) : store_safe (AlbumCoverSeeder.processAllAlbums E).
Proof.
  unfold AlbumCoverSeeder.processAllAlbums. apply store_safe_rethrow.
  apply store_safe_bind.
  { apply store_safe_frame.
    unfold AlbumCoverSeeder.ensureContainerExists, AlbumCoverSeeder.require_client,
      containerClient.exists_, containerClient.create, containerClient.call.
    frame. }
  intros ?. apply store_safe_bind.
  { apply store_safe_frame.
    unfold AlbumCoverSeeder.getAlbumsFromDatabase, prisma.album_findMany.
    frame. apply guard_preserves. }
  intros found. unfold AlbumCoverSeeder.update_stats.
  apply store_safe_bind; [apply store_safe_frame; frame | intros ?].
  destruct found as [| album rest]; [apply store_safe_frame; frame |].
  apply store_safe_bind;
    [apply process_albums_safe | intros ?; apply store_safe_frame; frame].
Qed.

(** X15. Neither script ever removes or moves a row of the store or
    changes the key or the id of one, and neither breaks the uniqueness of
    the keys: whatever the environment answers and however the run ends,
    the rows of every table before the run are, by key and id and in
    order, a prefix of the rows after it, and if no table held two rows
    under one key before, none does after. *)
Theorem store_only_grows (E : Env) (fuel : nat)
    (AZURE_STORAGE_CONNECTION_STRING : option string) (w : World) :
  let imported := (SpotifySeeder.main E fuel w).2 in
  let covered := (AlbumCoverSeeder.main E AZURE_STORAGE_CONNECTION_STRING w).2 in
  grows (w_db w) (w_db imported) ∧ grows (w_db w) (w_db covered) ∧
  (keys_unique (w_db w) → keys_unique (w_db imported) ∧ keys_unique (w_db covered)).
Proof.
  assert (Himport : store_safe
            (prisma.connect E ;;; SpotifySeeder.ensureContainerExists E ;;;
             SpotifySeeder.seedDatabase E fuel)).
  { apply store_safe_bind;
      [apply store_safe_frame, (connect_preserves _ (λ _, true)); done | intros ?].
    apply store_safe_bind;
      [apply store_safe_frame, (ensureContainerExists_preserves _ (λ _, true)); done |
       intros ?].
    unfold SpotifySeeder.seedDatabase. apply store_safe_rethrow.
    apply store_safe_bind;
      [apply store_safe_frame, (fetchPlaylist_preserves _ (λ _, true)); done |
       intros playlist].
    apply store_safe_bind; [apply processTracks_safe | intros processedData].
    apply store_safe_frame; frame. }
  assert (Hcover : store_safe (prisma.connect E ;;; AlbumCoverSeeder.processAllAlbums E)).
  { apply store_safe_bind;
      [apply store_safe_frame, (connect_preserves _ (λ _, true)); done | intros ?].
    apply processAllAlbums_safe. }
  assert (H1 : grows (w_db w) (w_db (SpotifySeeder.main E fuel w).2) ∧
               (keys_unique (w_db w) → keys_unique (w_db (SpotifySeeder.main E fuel w).2))).
  { unfold SpotifySeeder.main.
    destruct (negb _ || negb _); [split; [apply grows_refl | done] |].
    destruct (negb _); [split; [apply grows_refl | done] |].
    cbv zeta. generalize (Himport (set_token None None w)).
    by destruct ((prisma.connect E ;;; SpotifySeeder.ensureContainerExists E ;;;
                  SpotifySeeder.seedDatabase E fuel) (set_token None None w))
      as [[a | e |] w1]. }
  assert (H2 : grows (w_db w)
                 (w_db (AlbumCoverSeeder.main E AZURE_STORAGE_CONNECTION_STRING w).2) ∧
               (keys_unique (w_db w) →
                keys_unique
                  (w_db (AlbumCoverSeeder.main E AZURE_STORAGE_CONNECTION_STRING w).2))).
  { unfold AlbumCoverSeeder.main.
    destruct (negb (truthy_str AZURE_STORAGE_CONNECTION_STRING));
      [split; [apply grows_refl | done] |].
    destruct (negb _ || negb _); [split; [apply grows_refl | done] |].
    destruct (negb _); [split; [apply grows_refl | done] |].
    cbv zeta. generalize (Hcover (AlbumCoverSeeder.constructor w)).
    by destruct ((prisma.connect E ;;; AlbumCoverSeeder.processAllAlbums E)
                   (AlbumCoverSeeder.constructor w))
      as [[a | e |] w1]. }
  cbv zeta. destruct H1 as [H1 H1'], H2 as [H2 H2']. auto.
Qed.

(** *** An import into a store that holds the playlist *)

Lemma id_of_same (t : Table) (d d' : Db) (k : Key) :
  same_rows d d' → id_of t d' k = id_of t d k.
Proof. intros Hsame. unfold id_of. by rewrite Hsame. Qed.

Lemma keeps_ret {A} (d : Db) (a : A) (Q : A → Prop) : Q a → keeps d (ret a) Q.
Proof. intros HQ w Hsame. split; [done |]. by intros a' w' [= <- <-]. Qed.

Lemma keeps_bind {A B} (d : Db) (c : M A) (k : A → M B) (Q : A → Prop) (Q' : B → Prop) :
  keeps d c Q → (∀ a, Q a → keeps d (k a) Q') → keeps d (bind c k) Q'.
Proof.
  intros Hc Hk w Hsame. unfold bind. destruct (Hc w Hsame) as [Hs HQ].
  destruct (c w) as [[a | e |] w1]; cbn in *; [| done | done].
  apply (Hk a (HQ a w1 eq_refl) w1 Hs).
Qed.

Lemma keeps_rethrow {A} (d : Db) (c : M A) (ctx : string) (Q : A → Prop) :
  keeps d c Q → keeps d (try_catch c (λ error, console_error ctx error ;;; throw error)) Q.
Proof.
  intros Hc w Hsame. rewrite rethrow_db. destruct (Hc w Hsame) as [Hs HQ].
  split; [done |]. intros a w' Hrun%rethrow_ok_inv. by eapply HQ.
Qed.

Lemma keeps_frame {A} (d : Db) (c : M A) : preserves w_db c → keeps d c (λ _, True).
Proof. intros Hc w Hsame. by rewrite (Hc w). Qed.

Lemma keeps_upserts {A} (d : Db) (t : Table) (k : Key) (ident : A → nat) (c : M A) :
  upserts t k ident c → is_Some (id_of t d k) →
  keeps d c (λ row, id_of t d k = Some (ident row)).
Proof.
  intros Hc Hk w Hsame. destruct (Hc w) as (Hother & _ & Hthis & Hrow).
  assert (Hin : k ∈ (rows t (w_db w)).*1)
    by (apply id_of_is_Some; by rewrite (id_of_same t d)).
  assert (Hs : same_rows d (w_db (c w).2)).
  { intros t'. destruct (decide (t' = t)) as [-> | Hne].
    - by rewrite Hthis.
    - by rewrite Hother. }
  split; [done |]. intros row w' Hrun. rewrite Hrun in Hs.
  rewrite <- (Hrow row w' Hrun). symmetry. by apply id_of_same.
Qed.

Lemma read_of_ok_inv {A} (prop : string) (o : option A) (w w' : World) (a : A) :
  read_of prop o w = (Ok a, w') → o = Some a ∧ w' = w.
Proof. destruct o as [a' |]; [| discriminate]. by intros [= <- <-]. Qed.

Lemma keeps_read_of {A} (d : Db) (prop : string) (o : option A) :
  keeps d (read_of prop o) (λ a, o = Some a).
Proof.
  intros w Hsame. destruct o as [a |]; cbn; (split; [done |]).
  - by intros a' w' [= <- <-].
  - intros a w' [=].
Qed.

Lemma keeps_any {A} (d : Db) (c : M A) (Q : A → Prop) : keeps d c Q → keeps d c (λ _, True).
Proof. intros Hc w Hsame. by destruct (Hc w Hsame). Qed.

Lemma process_artists_keeps (d : Db) (E : Env) (l : list ArtistData) :
  Forall (λ artist, is_Some (id_of Artists d (BySpotifyId (ad_id artist)))) l →
  ∀ artistIds processedData,
    keeps d (SpotifySeeder.process_artists E l artistIds processedData)
      (λ r, ∃ new, r.1 = artistIds ++ new ∧
                   Forall2 (λ artist artistId,
                              id_of Artists d (BySpotifyId (ad_id artist)) = Some artistId)
                     l new).
Proof.
  induction 1 as [| artist rest Hartist Hrest IH]; intros artistIds processedData; simpl.
  - apply keeps_ret. exists []. by rewrite app_nil_r.
  - eapply keeps_bind;
      [apply (keeps_upserts d _ _ _ _ (upsertArtist_upserts E artist) Hartist) |].
    intros row Hrow. intros w Hsame.
    destruct (IH (artistIds ++ [a_id row])
                (SpotifySeeder.set_artist (ad_id artist) row processedData) w Hsame)
      as [Hs HQ].
    split; [done |]. intros r w' Hrun. destruct (HQ r w' Hrun) as (new & -> & Hnew).
    exists (a_id row :: new). rewrite <- app_assoc. split; [done |]. by constructor.
Qed.

Lemma createAlbumArtistRelations_keeps (d : Db) (E : Env) (albumId : nat)
    (artistIds : list nat) :
  Forall (λ artistId, is_Some (id_of AlbumArtists d (ByPair albumId artistId))) artistIds →
  keeps d (SpotifySeeder.createAlbumArtistRelations E albumId artistIds) (λ _, True).
Proof.
  intros Hlinked. apply keeps_rethrow.
  induction Hlinked as [| artistId rest Hlink Hrest IH]; simpl; [by apply keeps_ret |].
  eapply keeps_bind;
    [apply (keeps_upserts d _ _ _ _ (albumArtist_upserts E albumId artistId) Hlink) |].
  intros ? ?. apply IH.
Qed.

Lemma createTrackArtistRelations_keeps (d : Db) (E : Env) (trackId : nat)
    (artistIds : list nat) :
  Forall (λ artistId, is_Some (id_of TrackArtists d (ByPair trackId artistId))) artistIds →
  keeps d (SpotifySeeder.createTrackArtistRelations E trackId artistIds) (λ _, True).
Proof.
  intros Hlinked. apply keeps_rethrow.
  induction Hlinked as [| artistId rest Hlink Hrest IH]; simpl; [by apply keeps_ret |].
  eapply keeps_bind;
    [apply (keeps_upserts d _ _ _ _ (trackArtist_upserts E trackId artistId) Hlink) |].
  intros ? ?. apply IH.
Qed.

Lemma linked_ids (d : Db) (albumId trackId : nat) (artists : list ArtistData)
    (artistIds : list nat) :
  Forall (artist_linked d albumId trackId) artists →
  Forall2 (λ artist artistId, id_of Artists d (BySpotifyId (ad_id artist)) = Some artistId)
    artists artistIds →
  Forall (λ artistId, is_Some (id_of AlbumArtists d (ByPair albumId artistId))) artistIds ∧
  Forall (λ artistId, is_Some (id_of TrackArtists d (ByPair trackId artistId))) artistIds.
Proof.
  intros Hlinked Hids. induction Hids as [| artist artistId rest ids Hid Hids IH].
  - by split.
  - apply Forall_cons in Hlinked as [(artistId' & Hid' & Halbum & Htrack) Hlinked].
    assert (artistId' = artistId) as -> by congruence.
    destruct (IH Hlinked). split; by constructor.
Qed.

Lemma process_record_keeps (d : Db) (E : Env) (n i : nat) (trackItem : TrackItem)
    (processedData : ProcessedData) :
  item_stored d trackItem →
  keeps d (SpotifySeeder.process_record E n i trackItem processedData) (λ _, True).
Proof.
  intros (track & albumId & trackId & Hcarries & Halbum & Htrack & Hartists).
  unfold SpotifySeeder.process_record. cbv zeta.
  eapply keeps_bind; [apply keeps_read_of | intros track' Htrack'].
  assert (track' = track) as -> by congruence.
  eapply keeps_bind.
  { apply process_artists_keeps. eapply Forall_impl; [exact Hartists |].
    intros artist (artistId & Hid & _). by rewrite Hid. }
  intros r (new & Hr & Hnew). cbn in Hr.
  destruct (linked_ids d albumId trackId _ _ Hartists Hnew) as [Hlinks Hlinks'].
  eapply keeps_bind.
  { apply (keeps_upserts d _ _ _ _ (upsertAlbum_upserts E (td_album track))).
    by rewrite Halbum. }
  intros processedAlbum HprocessedAlbum.
  assert (b_id processedAlbum = albumId) as -> by congruence.
  rewrite has_album_after_set. cbn [negb].
  eapply keeps_bind; [apply keeps_frame; frame |]. intros ? _.
  eapply keeps_bind; [apply createAlbumArtistRelations_keeps; by rewrite Hr |]. intros ? _.
  eapply keeps_bind.
  { apply (keeps_upserts d _ _ _ _
             (upsertTrack_upserts E track albumId)).
    by rewrite Htrack. }
  intros processedTrack HprocessedTrack.
  assert (t_id processedTrack = trackId) as -> by congruence.
  eapply keeps_bind; [apply createTrackArtistRelations_keeps; by rewrite Hr |]. intros ? _.
  eapply keeps_bind; [| intros ? _; by apply keeps_ret].
  apply keeps_frame. case_bool_decide; unfold delay; frame.
Qed.

Lemma process_records_keeps (d : Db) (E : Env) (n : nat) (tracks : list TrackItem) :
  Forall (item_stored d) tracks →
  ∀ i processedData,
    keeps d (SpotifySeeder.process_records E n i tracks processedData) (λ _, True).
Proof.
  induction 1 as [| trackItem rest Hitem Hrest IH]; intros i processedData; simpl;
    [by apply keeps_ret |].
  eapply keeps_bind; [by apply process_record_keeps |]. intros next _. apply IH.
Qed.

Lemma track_findUnique_keeps_rows (d : Db) (E : Env) (k : string) :
  keeps d (prisma.track_findUnique E k)
    (λ found, ∀ track, found = Some track →
                id_of Tracks d (BySpotifyId k) = Some (t_id track)).
Proof.
  intros w Hsame. unfold prisma.track_findUnique, prisma.guard. run_monad.
  destruct (env_db E _ w); cbn; [done |]. split; [done |].
  intros found w' [= <- <-] track Hfind.
  change (id_of Tracks d (BySpotifyId k) = Some (t_id track)).
  rewrite <- (id_of_same Tracks d (w_db w)) by done. unfold id_of. cbn [rows].
  rewrite (find_where (λ r, (BySpotifyId (t_spotify_id r), t_id r))
             (λ r, bool_decide (t_spotify_id r = k))).
  - by rewrite Hfind.
  - by_key.
Qed.

Lemma link_playlist_tracks_keeps (d : Db) (E : Env) (playlistId : nat)
    (tracks : list TrackItem) :
  ∀ i,
    (∀ j item track trackId,
       tracks !! j = Some item →
       ti_track item = Some track →
       id_of Tracks d (BySpotifyId (td_id track)) = Some trackId →
       is_Some (id_of PlaylistTracks d (ByPosition playlistId trackId (i + j + 1)))) →
    keeps d (SpotifySeeder.link_playlist_tracks E playlistId i tracks) (λ _, True).
Proof.
  induction tracks as [| trackItem rest IH]; intros i Hlinked; simpl;
    [by apply keeps_ret |].
  eapply keeps_bind; [apply keeps_read_of | intros data Hdata].
  eapply keeps_bind; [apply track_findUnique_keeps_rows |]. intros found Hfound.
  apply (keeps_bind d _ _ (λ _, True)).
  - destruct found as [track |]; [| by apply keeps_ret].
    eapply keeps_bind; [| intros ? _; by apply keeps_ret].
    apply (keeps_upserts d _ _ _ _
             (playlistTrack_upserts E playlistId (t_id track) i trackItem)).
    specialize (Hlinked 0 trackItem data (t_id track) eq_refl Hdata
                  (Hfound track eq_refl)).
    by rewrite Nat.add_0_r in Hlinked.
  - intros ? _. apply IH. intros j item track trackId Hj Htrack Hid.
    specialize (Hlinked (S j) item track trackId Hj Htrack Hid).
    by replace (S i + j + 1) with (i + S j + 1) by lia.
Qed.

(** On a store that holds the playlist, the import adds nothing. *)
Lemma processTracks_keeps (d : Db) (E : Env) (playlist : PlaylistData) :
  playlist_stored d playlist →
  keeps d (SpotifySeeder.processTracks E playlist) (λ _, True).
Proof.
  intros [(playlistId & Hplaylist & Hlinked) Hitems].
  unfold SpotifySeeder.processTracks. cbv zeta. apply keeps_rethrow.
  eapply keeps_bind.
  { apply (keeps_upserts d _ _ _ _ (upsertPlaylist_upserts E playlist)).
    by rewrite Hplaylist. }
  intros stored Hstored. assert (p_id stored = playlistId) as -> by congruence.
  eapply keeps_bind; [by apply process_records_keeps |]. intros processedData _.
  eapply keeps_bind; [| intros ? _; apply keeps_any with (Q := λ _, True), keeps_frame; frame].
  apply keeps_rethrow, link_playlist_tracks_keeps. intros j item track trackId Hj Htrack Hid.
  exact (Hlinked j item track trackId Hj Htrack Hid).
Qed.

(** *** What a finished import has stored *)

Lemma is_Some_id_of_grows (t : Table) (d d' : Db) (k : Key) :
  grows d d' → is_Some (id_of t d k) → is_Some (id_of t d' k).
Proof. intros Hgrows [id Hid]. exists id. by eapply id_of_grows. Qed.

Lemma item_stored_grows (d d' : Db) (item : TrackItem) :
  grows d d' → item_stored d item → item_stored d' item.
Proof.
  intros Hgrows (track & albumId & trackId & Hcarries & Halbum & Htrack & Hartists).
  exists track, albumId, trackId. split; [done |]. split; [by eapply id_of_grows |].
  split; [by eapply id_of_grows |].
  eapply Forall_impl; [exact Hartists |].
  intros artist (artistId & Hid & Hlink & Hlink'). exists artistId.
  split; [by eapply id_of_grows |]. split; by eapply is_Some_id_of_grows.
Qed.

Lemma run_grows {A} (c : M A) (w w' : World) (r : result A) :
  store_safe c → c w = (r, w') → grows (w_db w) (w_db w').
Proof. intros Hc Hrun. destruct (Hc w) as [Hgrows _]. by rewrite Hrun in Hgrows. Qed.

Lemma upserts_ok {A} (t : Table) (k : Key) (ident : A → nat) (c : M A)
    (w w' : World) (row : A) :
  upserts t k ident c → c w = (Ok row, w') → id_of t (w_db w') k = Some (ident row).
Proof. intros Hc Hrun. destruct (Hc w) as (_ & _ & _ & Hrow). by apply Hrow. Qed.

Lemma process_artists_stores (E : Env) (l : list ArtistData) :
  ∀ artistIds processedData w w' r,
    SpotifySeeder.process_artists E l artistIds processedData w = (Ok r, w') →
    ∃ new, r.1 = artistIds ++ new ∧
           Forall2 (λ artist artistId,
                      id_of Artists (w_db w') (BySpotifyId (ad_id artist)) = Some artistId)
             l new.
Proof.
  induction l as [| artist rest IH]; intros artistIds processedData w w' r; simpl.
  - intros [= <- <-]. exists []. by rewrite app_nil_r.
  - intros Hrun. apply bind_ok_inv in Hrun as (row & w1 & Hrow & Hrun).
    pose proof (run_grows _ _ _ _ (process_artists_safe E rest _ _) Hrun) as Hgrows.
    apply IH in Hrun as (new & -> & Hnew).
    exists (a_id row :: new). rewrite <- app_assoc. split; [done |].
    constructor; [| done].
    eapply id_of_grows; [exact Hgrows |].
    exact (upserts_ok _ _ _ _ _ _ _ (upsertArtist_upserts E artist) Hrow).
Qed.

Lemma createAlbumArtistRelations_stores (E : Env) (albumId : nat) (artistIds : list nat)
    (w w' : World) :
  SpotifySeeder.createAlbumArtistRelations E albumId artistIds w = (Ok tt, w') →
  Forall (λ artistId, is_Some (id_of AlbumArtists (w_db w') (ByPair albumId artistId)))
    artistIds.
Proof.
  intros Hrun%rethrow_ok_inv. revert w Hrun.
  induction artistIds as [| artistId rest IH]; intros w Hrun; simpl in Hrun; [done |].
  apply bind_ok_inv in Hrun as (row & w1 & Hrow & Hrun).
  constructor; [| by eapply IH].
  assert (Hgrows : grows (w_db w1) (w_db w')).
  { eapply (run_grows (SpotifySeeder.createAlbumArtistRelations E albumId rest));
      [apply createAlbumArtistRelations_safe |].
    unfold SpotifySeeder.createAlbumArtistRelations. by erewrite try_catch_ok. }
  eapply is_Some_id_of_grows; [exact Hgrows |].
  rewrite (upserts_ok _ _ _ _ _ _ _ (albumArtist_upserts E albumId artistId) Hrow).
  by eexists.
Qed.

Lemma createTrackArtistRelations_stores (E : Env) (trackId : nat) (artistIds : list nat)
    (w w' : World) :
  SpotifySeeder.createTrackArtistRelations E trackId artistIds w = (Ok tt, w') →
  Forall (λ artistId, is_Some (id_of TrackArtists (w_db w') (ByPair trackId artistId)))
    artistIds.
Proof.
  intros Hrun%rethrow_ok_inv. revert w Hrun.
  induction artistIds as [| artistId rest IH]; intros w Hrun; simpl in Hrun; [done |].
  apply bind_ok_inv in Hrun as (row & w1 & Hrow & Hrun).
  constructor; [| by eapply IH].
  assert (Hgrows : grows (w_db w1) (w_db w')).
  { eapply (run_grows (SpotifySeeder.createTrackArtistRelations E trackId rest));
      [apply createTrackArtistRelations_safe |].
    unfold SpotifySeeder.createTrackArtistRelations. by erewrite try_catch_ok. }
  eapply is_Some_id_of_grows; [exact Hgrows |].
  rewrite (upserts_ok _ _ _ _ _ _ _ (trackArtist_upserts E trackId artistId) Hrow).
  by eexists.
Qed.

Lemma artists_linked (d : Db) (albumId trackId : nat) (artists : list ArtistData)
    (artistIds : list nat) :
  Forall2 (λ artist artistId, id_of Artists d (BySpotifyId (ad_id artist)) = Some artistId)
    artists artistIds →
  Forall (λ artistId, is_Some (id_of AlbumArtists d (ByPair albumId artistId))) artistIds →
  Forall (λ artistId, is_Some (id_of TrackArtists d (ByPair trackId artistId))) artistIds →
  Forall (artist_linked d albumId trackId) artists.
Proof.
  induction 1 as [| artist artistId rest ids Hid Hids IH]; intros Halbum Htrack; [done |].
  apply Forall_cons in Halbum as [Halbum Halbums].
  apply Forall_cons in Htrack as [Htrack Htracks].
  constructor; [by exists artistId | by apply IH].
Qed.

Lemma process_record_stores (E : Env) (n i : nat) (trackItem : TrackItem)
    (processedData reached : ProcessedData) (w w' : World) :
  SpotifySeeder.process_record E n i trackItem processedData w = (Ok reached, w') →
  item_stored (w_db w') trackItem.
Proof.
  unfold SpotifySeeder.process_record. cbv zeta. intros Hrun.
  apply bind_ok_inv in Hrun as (track & w0 & Hread & Hrun).
  apply read_of_ok_inv in Hread as [Hcarries ->].
  apply bind_ok_inv in Hrun as (r & w1 & Hartists & Hrun).
  apply bind_ok_inv in Hrun as (processedAlbum & w2 & Halbum & Hrun).
  apply bind_ok_inv in Hrun as ([] & w3 & Hcover & Hrun).
  apply bind_ok_inv in Hrun as ([] & w4 & Hlinks & Hrun).
  apply bind_ok_inv in Hrun as (processedTrack & w5 & Htrack & Hrun).
  apply bind_ok_inv in Hrun as ([] & w6 & Hlinks' & Hrun).
  apply bind_ok_inv in Hrun as ([] & w7 & Hwait & Hrun).
  injection Hrun as _ <-.
  rewrite has_album_after_set in Hcover. injection Hcover as <-.
  assert (H67 : w_db w7 = w_db w6) by (case_bool_decide; by injection Hwait as <-).
  pose proof (run_grows _ _ _ _ (upserts_safe _ _ _ _ (upsertAlbum_upserts E _)) Halbum)
    as G12.
  pose proof (run_grows _ _ _ _ (createAlbumArtistRelations_safe E _ _) Hlinks) as G24.
  pose proof (run_grows _ _ _ _ (upserts_safe _ _ _ _ (upsertTrack_upserts E _ _)) Htrack)
    as G45.
  pose proof (run_grows _ _ _ _ (createTrackArtistRelations_safe E _ _) Hlinks') as G56.
  cbn in G24. rewrite H67.
  apply process_artists_stores in Hartists as (new & Hr & Hnew). cbn in Hr.
  apply (upserts_ok _ _ _ _ _ _ _ (upsertAlbum_upserts E _)) in Halbum.
  apply (upserts_ok _ _ _ _ _ _ _ (upsertTrack_upserts E _ _)) in Htrack.
  apply createAlbumArtistRelations_stores in Hlinks.
  apply createTrackArtistRelations_stores in Hlinks'.
  assert (G26 : grows (w_db w2) (w_db w6))
    by (eapply grows_trans; [exact G24 |]; by eapply grows_trans).
  exists track, (b_id processedAlbum), (t_id processedTrack).
  split; [exact Hcarries |].
  split; [exact (id_of_grows _ _ _ _ _ G26 Halbum) |].
  split; [exact (id_of_grows _ _ _ _ _ G56 Htrack) |].
  rewrite Hr in Hlinks, Hlinks'.
  apply (artists_linked _ _ _ _ new); [| | done].
  - eapply Forall2_impl; [exact Hnew |]. intros artist artistId Hid.
    exact (id_of_grows _ _ _ _ _ (grows_trans _ _ _ G12 G26) Hid).
  - eapply Forall_impl; [exact Hlinks |]. intros artistId Hlink.
    exact (is_Some_id_of_grows _ _ _ _ (grows_trans _ _ _ G45 G56) Hlink).
Qed.

Lemma process_records_stores (E : Env) (n : nat) (tracks : list TrackItem) :
  ∀ i processedData reached w w',
    SpotifySeeder.process_records E n i tracks processedData w = (Ok reached, w') →
    Forall (item_stored (w_db w')) tracks.
Proof.
  induction tracks as [| trackItem rest IH]; intros i processedData reached w w'; simpl;
    [done |].
  intros Hrun. apply bind_ok_inv in Hrun as (next & w1 & Hitem & Hrun).
  constructor; [| by eapply IH].
  eapply item_stored_grows; [| by eapply process_record_stores].
  by eapply run_grows; [apply process_records_safe |].
Qed.

Lemma track_findUnique_ok (E : Env) (k : string) (w w' : World) (found : option Track) :
  prisma.track_findUnique E k w = (Ok found, w') →
  w' = w ∧ id_of Tracks (w_db w) (BySpotifyId k) = t_id <$> found.
Proof.
  unfold prisma.track_findUnique, prisma.guard. run_monad.
  destruct (env_db E _ w); [discriminate |]. intros [= <- <-]. split; [done |].
  unfold id_of. cbn [rows].
  rewrite (find_where (λ r, (BySpotifyId (t_spotify_id r), t_id r))
             (λ r, bool_decide (t_spotify_id r = k))); [| by_key].
  by destruct (find _ _).
Qed.

Lemma link_playlist_tracks_stores (E : Env) (playlistId : nat) (tracks : list TrackItem) :
  ∀ i w w',
    SpotifySeeder.link_playlist_tracks E playlistId i tracks w = (Ok tt, w') →
    rows Tracks (w_db w') = rows Tracks (w_db w) ∧
    ∀ j item track trackId,
      tracks !! j = Some item →
      ti_track item = Some track →
      id_of Tracks (w_db w) (BySpotifyId (td_id track)) = Some trackId →
      is_Some (id_of PlaylistTracks (w_db w') (ByPosition playlistId trackId (i + j + 1))).
Proof.
  induction tracks as [| trackItem rest IH]; intros i w w' Hrun; simpl in Hrun.
  - injection Hrun as <-. split; [done |]. intros j item track trackId Hj. by destruct j.
  - apply bind_ok_inv in Hrun as (data & w00 & Hread & Hrun).
    apply read_of_ok_inv in Hread as [Hdata ->].
    apply bind_ok_inv in Hrun as (found & w0 & Hfound & Hrun).
    apply track_findUnique_ok in Hfound as [-> Hfound].
    apply bind_ok_inv in Hrun as ([] & w1 & Hlink & Hrun).
    pose proof (run_grows _ _ _ _ (link_playlist_tracks_safe E _ _ _) Hrun) as Hgrows.
    apply IH in Hrun as [Hsame Hrest].
    assert (Hhead : rows Tracks (w_db w1) = rows Tracks (w_db w) ∧
                    ∀ track, found = Some track →
                      is_Some (id_of PlaylistTracks (w_db w1)
                                 (ByPosition playlistId (t_id track) (i + 1)))).
    { destruct found as [track |].
      - apply bind_ok_inv in Hlink as (row & w2 & Hrow & Hret). injection Hret as <-.
        pose proof (playlistTrack_upserts E playlistId (t_id track) i trackItem) as Hup.
        destruct (Hup w) as (Hother & _). rewrite Hrow in Hother.
        split; [by apply Hother |]. intros ? [= <-].
        rewrite (upserts_ok _ _ _ _ _ _ _ Hup Hrow). by eexists.
      - injection Hlink as <-. by split. }
    destruct Hhead as [Hsame1 Hhead].
    split; [by rewrite Hsame |].
    intros [| j] item track' trackId Hj Htrack' Hid; simpl in Hj.
    + injection Hj as <-. assert (track' = data) as -> by congruence.
      rewrite Hid in Hfound.
      destruct found as [track |]; [| discriminate]. injection Hfound as ->.
      rewrite Nat.add_0_r. eapply is_Some_id_of_grows; [exact Hgrows | by apply Hhead].
    + replace (i + S j + 1) with (S i + j + 1) by lia.
      apply (Hrest j item track' trackId Hj Htrack'). unfold id_of in *.
      by rewrite Hsame1.
Qed.

(** When [processTracks] returns, the store holds the playlist. *)
Lemma processTracks_stores (E : Env) (playlist : PlaylistData) (w w' : World)
    (processedData : ProcessedData) :
  SpotifySeeder.processTracks E playlist w = (Ok processedData, w') →
  playlist_stored (w_db w') playlist.
Proof.
  unfold SpotifySeeder.processTracks. cbv zeta. intros Hrun%rethrow_ok_inv.
  apply bind_ok_inv in Hrun as (stored & w1 & Hplaylist & Hrun).
  apply bind_ok_inv in Hrun as (reached & w2 & Hrecords & Hrun).
  apply bind_ok_inv in Hrun as ([] & w3 & Hlinks & Hrun).
  injection Hrun as _ <-. cbn [w_db add_log].
  pose proof (run_grows _ _ _ _ (process_records_safe E _ _ _ _) Hrecords) as G12.
  pose proof (run_grows _ _ _ _ (createPlaylistTrackRelations_safe E _ _ _) Hlinks) as G23.
  apply (upserts_ok _ _ _ _ _ _ _ (upsertPlaylist_upserts E playlist)) in Hplaylist.
  apply process_records_stores in Hrecords.
  apply rethrow_ok_inv, link_playlist_tracks_stores in Hlinks as [Hsame Hlinked].
  split.
  - exists (p_id stored). split.
    + eapply id_of_grows; [| exact Hplaylist]. by eapply grows_trans.
    + intros i item track trackId Hi Htrack Hid.
      apply (Hlinked i item track trackId Hi Htrack).
      unfold id_of in *. by rewrite <- Hsame.
  - eapply Forall_impl; [exact Hrecords |]. intros item. by apply item_stored_grows.
Qed.

(** X16. Importing a playlist a second time adds nothing: once
    [processTracks] has returned, a later [processTracks] of the same
    playlist on that store -- under any environment, at any time, and
    whether it returns or fails on the way -- leaves every table with
    the same rows by key and id, in the same order.  The second run
    rewrites rows in place and creates none. *)
Theorem second_import_adds_no_rows (E E' : Env) (playlist : PlaylistData)
    (w w1 w2 : World) (processedData : ProcessedData) :
  SpotifySeeder.processTracks E playlist w = (Ok processedData, w1) →
  w_db w2 = w_db w1 →
  ∀ t, rows t (w_db (SpotifySeeder.processTracks E' playlist w2).2) = rows t (w_db w1).
Proof.
  intros Hfirst Hdb.
  apply processTracks_stores in Hfirst.
  destruct (processTracks_keeps (w_db w1) E' playlist Hfirst w2) as [Hsame _].
  - intros t. by rewrite Hdb.
  - exact Hsame.
Qed.

Lemma store_only_grows_witness :
  keys_unique (w_db Sample.seeded) ∧ grows (w_db Sample.world0) (w_db Sample.seeded).
Proof.
  destruct (store_only_grows Sample.env 10 None Sample.world0) as (Hgrows & _ & Hunique).
  split; [| exact Hgrows].
  apply Hunique. intros t. destruct t; apply NoDup_nil_2.
Defined.

Lemma second_import_adds_no_rows_witness :
  ∃ processedData w1,
    SpotifySeeder.processTracks Sample.env
      (SpotifySeeder.with_items Sample.playlist Sample.items) Sample.world0
      = (Ok processedData, w1) ∧
    ∀ t, rows t (w_db (SpotifySeeder.processTracks Sample.env
                         (SpotifySeeder.with_items Sample.playlist Sample.items)
                         (advance 86400000 w1)).2)
         = rows t (w_db w1).
Proof.
  destruct (SpotifySeeder.processTracks Sample.env
              (SpotifySeeder.with_items Sample.playlist Sample.items) Sample.world0)
    as [[processedData | e |] w1] eqn:Hrun.
  - exists processedData, w1. split; [reflexivity |].
    exact (second_import_adds_no_rows Sample.env Sample.env _ _ _ (advance 86400000 w1) _
             Hrun eq_refl).
  - vm_compute in Hrun. discriminate.
  - vm_compute in Hrun. discriminate.
Defined.

(** ** When the store answers *)

Lemma never_throws_ret {A} (a : A) : never_throws (ret a).
Proof. intros w. by exists a, w. Qed.

Lemma never_throws_bind {A B} (c : M A) (k : A → M B) :
  never_throws c → (∀ a, never_throws (k a)) → never_throws (bind c k).
Proof.
  intros Hc Hk w. destruct (Hc w) as (a & w1 & Hrun).
  destruct (Hk a w1) as (b & w2 & Hrun'). exists b, w2.
  by rewrite (bind_ok _ _ _ _ _ Hrun).
Qed.

Lemma never_throws_caught {A} (c : M A) (h : JsError → M A) :
  never_throws c → never_throws (try_catch c h).
Proof.
  intros Hc w. destruct (Hc w) as (a & w1 & Hrun). exists a, w1. by apply try_catch_ok.
Qed.

Lemma never_throws_modify (f : World → World) : never_throws (modify f).
Proof. intros w. by eexists _, _. Qed.

Section StoreAnswers.
Context (E : Env).
Hypothesis store_answers : ∀ op w, env_db E op w = None.

Lemma guard_returns (op : DbOp) : never_throws (prisma.guard E op).
Proof. intros w. unfold prisma.guard. rewrite store_answers. by eexists _, _. Qed.

Lemma upsert_never_throws {A} (op : DbOp) (table : Db → list A)
    (set_table : list A → Db → Db) (p : A → bool) (update : A → A) (create : nat → Z → A) :
  never_throws (prisma.upsert E op table set_table p update create).
Proof.
  intros w. destruct (find p (table (w_db w))) as [old |] eqn:Hfind.
  - rewrite (upsert_present E op table set_table p update create w old); [| done | done].
    by eexists _, _.
  - rewrite (upsert_absent E op table set_table p update create w); [| done | done].
    by eexists _, _.
Qed.

Lemma process_artists_returns (l : list ArtistData) :
  ∀ artistIds processedData,
    never_throws (SpotifySeeder.process_artists E l artistIds processedData).
Proof.
  induction l as [| artist rest IH]; intros artistIds processedData; simpl;
    [apply never_throws_ret |].
  apply never_throws_bind; [| intros row; apply IH].
  apply never_throws_caught, never_throws_bind; [by intros w; eexists _, _ | intros now].
  apply upsert_never_throws.
Qed.

Lemma createAlbumArtistRelations_returns (albumId : nat) (artistIds : list nat) :
  never_throws (SpotifySeeder.createAlbumArtistRelations E albumId artistIds).
Proof.
  apply never_throws_caught.
  induction artistIds as [| artistId rest IH]; simpl; [apply never_throws_ret |].
  apply never_throws_bind; [apply upsert_never_throws | intros ?; apply IH].
Qed.

Lemma createTrackArtistRelations_returns (trackId : nat) (artistIds : list nat) :
  never_throws (SpotifySeeder.createTrackArtistRelations E trackId artistIds).
Proof.
  apply never_throws_caught.
  induction artistIds as [| artistId rest IH]; simpl; [apply never_throws_ret |].
  apply never_throws_bind; [apply upsert_never_throws | intros ?; apply IH].
Qed.

Lemma link_playlist_tracks_returns (playlistId : nat) (tracks : list TrackItem) :
  Forall (λ item, is_Some (ti_track item)) tracks →
  ∀ i, never_throws (SpotifySeeder.link_playlist_tracks E playlistId i tracks).
Proof.
  induction 1 as [| trackItem rest [data Hdata] _ IH]; intros i; simpl;
    [apply never_throws_ret |].
  rewrite Hdata.
  apply never_throws_bind; [apply never_throws_ret | clear data Hdata; intros data].
  apply never_throws_bind.
  { unfold prisma.track_findUnique.
    apply never_throws_bind; [apply guard_returns | intros ?].
    intros w. by eexists _, _. }
  intros found. apply never_throws_bind; [| intros ?; apply IH].
  destruct found as [track |]; [| apply never_throws_ret].
  apply never_throws_bind; [apply upsert_never_throws | intros ?; apply never_throws_ret].
Qed.

Lemma process_record_returns (n i : nat) (trackItem : TrackItem)
    (processedData : ProcessedData) :
  is_Some (ti_track trackItem) →
  never_throws (SpotifySeeder.process_record E n i trackItem processedData).
Proof.
  intros [track Htrack]. unfold SpotifySeeder.process_record. cbv zeta. rewrite Htrack.
  apply never_throws_bind; [apply never_throws_ret | clear track Htrack; intros track].
  apply never_throws_bind; [apply process_artists_returns | intros r].
  apply never_throws_bind.
  { apply never_throws_caught, never_throws_bind; [by intros w; eexists _, _ | intros now].
    apply upsert_never_throws. }
  intros processedAlbum. rewrite has_album_after_set. cbn [negb].
  apply never_throws_bind; [apply never_throws_modify | intros ?].
  apply never_throws_bind; [apply createAlbumArtistRelations_returns | intros ?].
  apply never_throws_bind.
  { apply never_throws_caught, never_throws_bind; [by intros w; eexists _, _ | intros now].
    apply upsert_never_throws. }
  intros processedTrack.
  apply never_throws_bind; [apply createTrackArtistRelations_returns | intros ?].
  apply never_throws_bind; [| intros ?; apply never_throws_ret].
  case_bool_decide; [| apply never_throws_ret].
  unfold delay, emit. apply never_throws_bind; [apply never_throws_modify | intros ?].
  apply never_throws_modify.
Qed.

Lemma process_records_returns (n : nat) (tracks : list TrackItem) :
  Forall (λ item, is_Some (ti_track item)) tracks →
  ∀ i processedData,
    never_throws (SpotifySeeder.process_records E n i tracks processedData).
Proof.
  induction 1 as [| trackItem rest Htrack _ IH]; intros i processedData; simpl;
    [apply never_throws_ret |].
  apply never_throws_bind; [by apply process_record_returns | intros next; apply IH].
Qed.

(** The loop stops at the first item without a track: reading the name
    of its track raises a TypeError. *)
Lemma process_records_null (n : nat) (tracks : list TrackItem) :
  Exists (λ item, ti_track item = None) tracks →
  ∀ i processedData w,
    ∃ w', SpotifySeeder.process_records E n i tracks processedData w
          = (Throw (null_property_error "name"), w').
Proof.
  induction tracks as [| trackItem rest IH]; intros Hnull i processedData w;
    [by apply Exists_nil in Hnull |].
  cbn [SpotifySeeder.process_records].
  destruct (ti_track trackItem) as [track |] eqn:Htrack.
  - apply Exists_cons in Hnull as [Hnull | Hnull]; [congruence |].
    destruct (process_record_returns n i trackItem processedData
                (ex_intro _ track Htrack) w) as (next & w1 & Hrun).
    rewrite (bind_ok _ _ _ _ _ Hrun). by apply IH.
  - exists w. unfold SpotifySeeder.process_record. by rewrite Htrack.
Qed.

Lemma upsertPlaylist_returns (playlist : PlaylistData) :
  never_throws (SpotifySeeder.upsertPlaylist E playlist).
Proof.
  apply never_throws_caught, never_throws_bind; [by intros w; eexists _, _ | intros now].
  apply upsert_never_throws.
Qed.

Lemma processTracks_null (playlist : PlaylistData) (w : World) :
  Exists (λ item, ti_track item = None) (pd_tracks_items playlist) →
  ∃ w', SpotifySeeder.processTracks E playlist w
        = (Throw (null_property_error "name"), w').
Proof.
  intros Hnull. unfold SpotifySeeder.processTracks. cbv zeta.
  destruct (upsertPlaylist_returns playlist w) as (stored & w1 & Hstored).
  destruct (process_records_null (length (pd_tracks_items playlist))
              (pd_tracks_items playlist) Hnull 0
              {| pr_artists := ∅; pr_albums := ∅; pr_tracks := [];
                 pr_playlist := Some stored |} w1) as (w2 & Hrecords).
  eexists. erewrite try_catch_throw; [reflexivity |].
  erewrite bind_ok by exact Hstored. erewrite bind_throw; [reflexivity |].
  exact Hrecords.
Qed.

Lemma processTracks_returns (playlist : PlaylistData) :
  Forall (λ item, is_Some (ti_track item)) (pd_tracks_items playlist) →
  never_throws (SpotifySeeder.processTracks E playlist).
Proof.
  intros Hcarry.
  unfold SpotifySeeder.processTracks. cbv zeta. apply never_throws_caught.
  apply never_throws_bind.
  { apply never_throws_caught, never_throws_bind; [by intros w; eexists _, _ | intros now].
    apply upsert_never_throws. }
  intros stored.
  apply never_throws_bind; [by apply process_records_returns | intros processedData].
  apply never_throws_bind;
    [by apply never_throws_caught, link_playlist_tracks_returns | intros ?].
  apply never_throws_bind; [apply never_throws_modify | intros ?; apply never_throws_ret].
Qed.

End StoreAnswers.

(** X17. The import of a playlist depends on the store and on the items
    alone.  If the store accepts every operation and every item carries a
    track, [processTracks] returns, whatever else the environment does,
    and the store then holds the playlist -- its row; for every item the
    album, the track and each artist, with the artist linked to that album
    and to that track; and for every item whose track is stored, a
    playlist-track row at the item's position (counted from 1).  If the
    store accepts every operation and some item carries no track (its
    track is null), [processTracks] raises the TypeError of reading the
    name of that track. *)
Theorem import_succeeds_when_store_answers (E : Env) (playlist : PlaylistData)
    (w : World) :
  (∀ op w0, env_db E op w0 = None) →
  (Forall (λ item, is_Some (ti_track item)) (pd_tracks_items playlist) →
   ∃ processedData w',
     SpotifySeeder.processTracks E playlist w = (Ok processedData, w') ∧
     playlist_stored (w_db w') playlist) ∧
  (Exists (λ item, ti_track item = None) (pd_tracks_items playlist) →
   ∃ w',
     SpotifySeeder.processTracks E playlist w
       = (Throw (null_property_error "name"), w')).
Proof.
  intros Hstore. split.
  - intros Hcarry.
    destruct (processTracks_returns E Hstore playlist Hcarry w)
      as (processedData & w' & Hrun).
    exists processedData, w'. split; [exact Hrun |].
    by eapply processTracks_stores.
  - intros Hnull. by apply processTracks_null.
Qed.

(** An item whose track is null stops the import although the store
    accepts every request: the second of three items has no track; the
    first record is stored, then reading the name of the missing track
    raises, and no playlist row is written. *)
Lemma null_track_stops_import :
  let r := SpotifySeeder.processTracks Sample.env
             (SpotifySeeder.with_items Sample.playlist
                [Sample.item1; Sample.removed; Sample.item2]) Sample.world0 in
  fst r = Throw (null_property_error "name") ∧
  t_spotify_id <$> tracks (w_db (snd r)) = ["trk1"] ∧
  playlist_tracks (w_db (snd r)) = [] ∧
  last (w_log (snd r)) =
    Some (LogError " Error processing tracks:"
            "Cannot read properties of null (reading 'name')").
Proof. vm_compute. repeat split. Qed.

Lemma import_succeeds_when_store_answers_witness :
  ∃ processedData w',
    SpotifySeeder.processTracks Sample.broken_images
      (SpotifySeeder.with_items Sample.playlist Sample.items) Sample.world0
      = (Ok processedData, w') ∧
    playlist_stored (w_db w') (SpotifySeeder.with_items Sample.playlist Sample.items).
Proof.
  apply import_succeeds_when_store_answers; [reflexivity |].
  repeat constructor; by eexists.
Defined.

(** ** A record that the store refuses *)




























(** ** A run in which everything answers *)

Lemma fetchPlaylist_returns (E : Env) (fuel : nat) (playlistId : string) (limit : Z)
    (meta : PlaylistData) (page : Z → list TrackItem) (w : World) :
  (0 < limit)%Z →
  (∀ w0, ∃ response, env_token E w0 = inr response) →
  (∀ w0, env_playlist E playlistId w0 = inr meta) →
  (∀ offset w0, env_page E playlistId limit offset w0 = inr (page offset)) →
  page_count (pd_tracks_total meta) limit ≤ fuel →
  ∃ w',
    SpotifySeeder.fetchPlaylist E fuel playlistId limit w =
      (Ok (SpotifySeeder.with_items meta
             (concat (page <$> offsets_from (page_count (pd_tracks_total meta) limit)
                                 0 limit))), w').
Proof.
  intros Hlimit Htoken Hmeta Hpage Hfuel.
  destruct (getAccessToken_succeeds E w Htoken) as (token & w1 & pre & Hget & _).
  destruct (page_count_covers (pd_tracks_total meta) limit Hlimit) as [Hhi Hlo].
  set (w2 := advance (env_latency E) (add_event (EvGetPlaylist playlistId) w1)).
  destruct (fetch_batches_spec E playlistId limit (pd_tracks_total meta) page Hlimit Hpage
              (page_count (pd_tracks_total meta) limit) 0 [] fuel w2)
    as (w' & Hrun & _); [done | lia | intros; specialize (Hlo ltac:(done)); lia |].
  exists w'.
  unfold SpotifySeeder.fetchPlaylist. run_monad. rewrite Hget. cbv beta iota.
  rewrite Hmeta. cbv beta iota. fold w2. rewrite Hrun. reflexivity.
Qed.

(** X18. A run of the import in which everything answers: with the
    configuration complete, the token, the metadata and every page at
    hand, the store accepting every operation and fuel for all the pages.
    If every item of the pages carries a track, [main] runs to its end --
    whether or not the blob store works -- and the store then holds the
    playlist with the items of all the pages, in the order of the pages.
    If some item carries no track, [main] exits with code 1. *)
Theorem import_runs_to_its_end (E : Env) (fuel : nat) (meta : PlaylistData)
    (page : Z → list TrackItem) (w : World) :
  configured E →
  (∀ w0, ∃ response, env_token E w0 = inr response) →
  (∀ w0, env_playlist E PLAYLIST_ID w0 = inr meta) →
  (∀ offset w0, env_page E PLAYLIST_ID 100 offset w0 = inr (page offset)) →
  (∀ op w0, env_db E op w0 = None) →
  page_count (pd_tracks_total meta) 100 ≤ fuel →
  let items := concat (page <$> offsets_from (page_count (pd_tracks_total meta) 100) 0 100) in
  (Forall (λ item, is_Some (ti_track item)) items →
   ∃ w', SpotifySeeder.main E fuel w = (Returned, w') ∧
         playlist_stored (w_db w') (SpotifySeeder.with_items meta items)) ∧
  (Exists (λ item, ti_track item = None) items →
   ∃ w', SpotifySeeder.main E fuel w = (Exited 1, w')).
Proof.
  intros Hconf Htoken Hmeta Hpage Hstore Hfuel items.
  rewrite (main_configured E fuel w Hconf).
  destruct (main_setup E w) as [(e & w1 & Hthrow & _) | (ws & Hsetup & _)].
  { exfalso. revert Hthrow. unfold prisma.connect, prisma.guard. run_monad.
    rewrite Hstore. cbv beta iota.
    destruct (ensureContainerExists_returns E (add_event EvConnect (set_token None None w)))
      as [w2 ->]. discriminate. }
  rewrite (then_ok _ _ _ _ _ Hsetup).
  destruct (fetchPlaylist_returns E fuel PLAYLIST_ID 100 meta page ws)
    as [w2 Hfetch]; [lia | done | done | done | done |].
  unfold SpotifySeeder.seedDatabase. split.
  - intros Hcarry.
    destruct (processTracks_returns E Hstore (SpotifySeeder.with_items meta items)
                Hcarry w2)
      as (processedData & w3 & Hrun).
    erewrite try_catch_ok;
      [| rewrite (bind_ok _ _ _ _ _ Hfetch), (bind_ok _ _ _ _ _ Hrun); reflexivity].
    eexists. split; [reflexivity |]. cbn.
    by eapply processTracks_stores.
  - intros Hnull.
    destruct (processTracks_null E Hstore (SpotifySeeder.with_items meta items) w2 Hnull)
      as (w3 & Hrun).
    erewrite try_catch_throw;
      [| rewrite (bind_ok _ _ _ _ _ Hfetch), (bind_throw _ _ _ _ _ Hrun); reflexivity].
    run_monad. by eexists.
Qed.

Lemma import_runs_to_its_end_witness :
  ∃ w', SpotifySeeder.main Sample.env 1 Sample.world0 = (Returned, w') ∧
        playlist_stored (w_db w') (SpotifySeeder.with_items Sample.playlist Sample.items).
Proof.
  apply (import_runs_to_its_end Sample.env 1 Sample.playlist
           (λ offset, take 100 (drop (Z.to_nat offset) Sample.items)) Sample.world0).
  - repeat split.
  - intros w0. by eexists.
  - reflexivity.
  - reflexivity.
  - reflexivity.
  - vm_compute. lia.
  - repeat constructor; by eexists.
Defined.

(** ** A cover-seeding run in which everything answers *)

Lemma media_covered (d : Db) (m : Media) (albumId : nat) (type : string) :
  m ∈ media d → m_album_id m = albumId → m_type m = type →
  is_Some (id_of Medias d (ByAlbumType albumId type)).
Proof.
  intros Hin <- <-. apply id_of_is_Some. cbn [rows].
  apply list_elem_of_fmap. exists (ByAlbumType (m_album_id m) (m_type m), m_id m).
  split; [done |]. apply list_elem_of_fmap. by exists m.
Qed.

Lemma insert_by_elem {A} (key : A → string) (x y : A) (l : list A) :
  y ∈ prisma.insert_by key x l ↔ y = x ∨ y ∈ l.
Proof.
  induction l as [| z l IH]; simpl.
  - rewrite list_elem_of_singleton, elem_of_nil. tauto.
  - destruct (String.leb _ _); rewrite !elem_of_cons, ?IH; tauto.
Qed.

Lemma order_by_elem {A} (key : A → string) (y : A) (l : list A) :
  y ∈ prisma.order_by key l ↔ y ∈ l.
Proof.
  unfold prisma.order_by.
  assert (H : ∀ acc, y ∈ foldl (λ acc x, prisma.insert_by key x acc) acc l
                     ↔ y ∈ acc ∨ y ∈ l).
  { induction l as [| x l IH]; intros acc; simpl.
    - rewrite elem_of_nil. tauto.
    - rewrite IH, insert_by_elem, elem_of_cons. tauto. }
  rewrite H, elem_of_nil. tauto.
Qed.

Section AllAnswer.
Context (E : Env).
Hypothesis client_built : env_azure E = true.
Hypothesis blobs_answer : ∀ w, env_blob E w = None.
Hypothesis store_answers : ∀ op w, env_db E op w = None.
Hypothesis token_answers : ∀ w, ∃ response, env_token E w = inr response.
Hypothesis albums_have_images :
  ∀ spotifyId w, ∃ a image rest,
    env_album E spotifyId w = AlbumFound a ∧ al_images a = Some (image :: rest).
Hypothesis images_answer : ∀ url w, ∃ response, env_image E url w = inr response.

Lemma fetchAlbum_succeeds (spotifyId : string) (w : World) :
  ∃ a image rest w',
    AlbumCoverSeeder.fetchAlbumFromSpotify E spotifyId w = (Ok (Some a), w') ∧
    al_images a = Some (image :: rest) ∧ w_db w' = w_db w ∧ w_stats w' = w_stats w.
Proof.
  destruct (album_getAccessToken_succeeds E w token_answers) as (token & w1 & Htoken).
  destruct (albums_have_images spotifyId
              (advance (env_latency E) (add_event (EvGetAlbum spotifyId) w1)))
    as (a & image & rest & Halbum & Himages).
  assert (Hkeep : preserves (λ w0, (w_db w0, w_stats w0))
            (AlbumCoverSeeder.fetchAlbumFromSpotify E spotifyId))
    by (apply (fetchAlbumFromSpotify_preserves _ (λ _, true)); done).
  specialize (Hkeep w).
  assert (Hrun : AlbumCoverSeeder.fetchAlbumFromSpotify E spotifyId w =
                 (Ok (Some a), advance (env_latency E) (add_event (EvGetAlbum spotifyId) w1))).
  { unfold AlbumCoverSeeder.fetchAlbumFromSpotify, AlbumCoverSeeder.get_album.
    apply try_catch_ok. rewrite (bind_ok _ _ _ _ _ Htoken). run_monad.
    by rewrite Halbum. }
  rewrite Hrun in Hkeep. cbn in Hkeep. injection Hkeep as Hdb Hstats.
  exists a, image, rest. eexists. split; [exact Hrun |]. done.
Qed.

Lemma album_cover_succeeds (a : AlbumData) (image : ImageRef) (rest : list ImageRef)
    (albumId : nat) (w : World) :
  al_images a = Some (image :: rest) →
  existsb (prisma.media_key albumId "album_cover") (media (w_db w)) = false →
  ∃ m w', AlbumCoverSeeder.downloadAndStoreAlbumCover E a albumId w = (Ok (Some m), w').
Proof.
  intros Himages Hnone.
  unfold AlbumCoverSeeder.downloadAndStoreAlbumCover, AlbumCoverSeeder.require_client,
    containerClient.upload, containerClient.call, prisma.media_create, prisma.guard,
    AlbumCoverSeeder.cover_row.
  rewrite Himages, client_built. run_monad. cbn.
  match goal with
  | |- context [env_image E ?url ?w0] =>
      destruct (images_answer url w0) as [response Hresponse]
  end.
  rewrite Hresponse. cbn. rewrite blobs_answer, store_answers. cbn.
  rewrite Hnone. cbn. by eexists _, _.
Qed.

Lemma processAlbum_covers (album : Album) (w : World) :
  ∃ w', AlbumCoverSeeder.processAlbum E album w = (Ok tt, w') ∧
        st_failed (w_stats w') = st_failed (w_stats w) ∧
        is_Some (id_of Medias (w_db w') (ByAlbumType (b_id album) "album_cover")).
Proof.
  unfold AlbumCoverSeeder.processAlbum.
  assert (Hfind : prisma.media_findFirst E (b_id album) "album_cover" w =
                  (Ok (find (prisma.media_key (b_id album) "album_cover") (media (w_db w))), w)).
  { unfold prisma.media_findFirst, prisma.guard. run_monad. by rewrite store_answers. }
  destruct (find _ (media (w_db w))) as [existing |] eqn:Hexisting.
  - eexists. split.
    + apply try_catch_ok. unfold AlbumCoverSeeder.processAlbum_steps.
      rewrite (bind_ok _ _ _ _ _ Hfind). reflexivity.
    + split; [done |]. cbn. apply find_some in Hexisting as [Hin Hkey].
      unfold prisma.media_key in Hkey. apply andb_prop in Hkey as [Ha Ht].
      apply bool_decide_eq_true in Ha, Ht.
      by apply (media_covered _ existing); [apply list_elem_of_In | |].
  - destruct (fetchAlbum_succeeds (b_spotify_id album) w)
      as (a & image & rest & w1 & Hfetch & Himages & Hdb1 & Hstats1).
    assert (Hnone : existsb (prisma.media_key (b_id album) "album_cover")
                      (media (w_db w1)) = false).
    { rewrite Hdb1. destruct (existsb _ _) eqn:Hdup; [| done].
      apply existsb_find in Hdup as [x Hx]. congruence. }
    destruct (album_cover_succeeds a image rest (b_id album) w1 Himages Hnone)
      as (m & w2 & Hcover).
    pose proof (album_cover_outcome E a (b_id album) w1) as Hstored.
    rewrite Hcover in Hstored. destruct Hstored as ((Hin & Halbum & Htype & _) & _).
    assert (Hstats2 : w_stats w2 = w_stats w1).
    { assert (Hkeep : preserves w_stats
                (AlbumCoverSeeder.downloadAndStoreAlbumCover E a (b_id album)))
        by (apply (album_cover_preserves _ (λ _, true)); done).
      specialize (Hkeep w1). by rewrite Hcover in Hkeep. }
    eexists. split.
    + apply try_catch_ok. unfold AlbumCoverSeeder.processAlbum_steps.
      rewrite (bind_ok _ _ _ _ _ Hfind), (bind_ok _ _ _ _ _ Hfetch),
        (bind_ok _ _ _ _ _ Hcover). reflexivity.
    + cbn. rewrite Hstats2, Hstats1. split; [done |]. by apply (media_covered _ m).
Qed.

Lemma process_albums_cover (n : nat) (albums : list Album) :
  ∀ i w,
    ∃ w', AlbumCoverSeeder.process_albums E n i albums w = (Ok tt, w') ∧
          st_failed (w_stats w') = st_failed (w_stats w) ∧
          ∀ album, album ∈ albums →
            is_Some (id_of Medias (w_db w') (ByAlbumType (b_id album) "album_cover")).
Proof.
  induction albums as [| album rest IH]; intros i w; simpl.
  - exists w. split; [done |]. split; [done |]. intros album Hin. by apply elem_of_nil in Hin.
  - destruct (processAlbum_covers album w) as (w1 & Hrun & Hfailed & Hcover).
    rewrite (bind_ok _ _ _ _ _ Hrun).
    set (w2 := set_stats (AlbumCoverSeeder.stats_processed (w_stats w1)) w1).
    assert (Hcount : AlbumCoverSeeder.update_stats AlbumCoverSeeder.stats_processed w1
                     = (Ok tt, w2)) by reflexivity.
    rewrite (bind_ok _ _ _ _ _ Hcount).
    set (wait := if bool_decide (i < n - 1) then delay RATE_LIMIT_DELAY else ret ()).
    destruct (wait w2) as [[[] | e |] w3] eqn:Hwait;
      [| subst wait; case_bool_decide; discriminate
       | subst wait; case_bool_decide; discriminate].
    assert (Hw3 : w_db w3 = w_db w1 ∧ w_stats w3 = w_stats w2)
      by (subst wait; case_bool_decide; by injection Hwait as <-).
    destruct Hw3 as [Hdb3 Hstats3].
    destruct (IH (S i) w3) as (w' & Hrest & Hfailed' & Hcovers).
    exists w'. split; [by rewrite (bind_ok _ _ _ _ _ Hwait) |].
    split; [by rewrite Hfailed', Hstats3 |].
    intros album' [-> | Hin]%elem_of_cons; [| by apply Hcovers].
    eapply is_Some_id_of_grows; [| exact Hcover]. rewrite <- Hdb3.
    by eapply run_grows; [apply process_albums_safe |].
Qed.

(** X19. A cover-seeding run in which everything answers: with the blob
    client built, the blob store, the store, the token endpoint and the
    image host answering, and Spotify returning every album with at least
    one image, [processAllAlbums] returns, counts no failure, and leaves
    every album of the store with an "album_cover" Media row. *)
Theorem cover_seeder_covers_every_album (w : World) :
  ∃ w', AlbumCoverSeeder.processAllAlbums E w = (Ok tt, w') ∧
        st_failed (w_stats w') = st_failed (w_stats w) ∧
        ∀ album, album ∈ albums (w_db w) →
          is_Some (id_of Medias (w_db w') (ByAlbumType (b_id album) "album_cover")).
Proof.
  assert (Hsetup : ∃ w1,
            (AlbumCoverSeeder.ensureContainerExists E ;;;
             AlbumCoverSeeder.getAlbumsFromDatabase E) w =
              (Ok (prisma.order_by b_name (albums (w_db w))), w1) ∧
            w_db w1 = w_db w ∧ w_stats w1 = w_stats w).
  { unfold AlbumCoverSeeder.ensureContainerExists, AlbumCoverSeeder.getAlbumsFromDatabase,
      AlbumCoverSeeder.require_client, containerClient.exists_, containerClient.create,
      containerClient.call, prisma.album_findMany, prisma.guard.
    rewrite client_built. run_monad. cbn. rewrite blobs_answer. cbn.
    destruct (w_container w); cbn; rewrite ?blobs_answer; cbn;
      rewrite store_answers; cbn; by eexists. }
  destruct Hsetup as (w1 & Hsetup & Hdb1 & Hstats1).
  unfold AlbumCoverSeeder.processAllAlbums.
  set (found := prisma.order_by b_name (albums (w_db w))) in *.
  set (w2 := set_stats (AlbumCoverSeeder.stats_total (length found) (w_stats w1)) w1).
  destruct (process_albums_cover (length found) found 0 w2)
    as (w3 & Hloop & Hfailed & Hcovers).
  assert (Hfound : ∀ album, album ∈ albums (w_db w) → album ∈ found)
    by (intros album Hin; by apply order_by_elem).
  destruct found as [| first rest] eqn:Hlist.
  - eexists. split.
    + apply try_catch_ok. rewrite then_bind, (bind_ok _ _ _ _ _ Hsetup). reflexivity.
    + cbn. rewrite Hstats1. split; [done |].
      intros album Hin. apply Hfound in Hin. by apply elem_of_nil in Hin.
  - eexists. split.
    + apply try_catch_ok. rewrite then_bind, (bind_ok _ _ _ _ _ Hsetup).
      unfold AlbumCoverSeeder.update_stats at 1. run_monad. fold w2.
      rewrite Hloop. reflexivity.
    + cbn [w_stats w_db add_log]. rewrite Hfailed. subst w2. cbn. rewrite Hstats1.
      split; [done |]. intros album Hin. by apply Hcovers, Hfound.
Qed.

End AllAnswer.

Lemma cover_seeder_covers_every_album_witness :
  ∃ w', AlbumCoverSeeder.processAllAlbums Sample.env Sample.seeded = (Ok tt, w') ∧
        st_failed (w_stats w') = 0 ∧
        is_Some (id_of Medias (w_db w') (ByAlbumType (b_id Sample.albumX_row) "album_cover")).
Proof.
  destruct (cover_seeder_covers_every_album Sample.env) with (w := Sample.seeded)
    as (w' & Hrun & Hfailed & Hcovers).
  - reflexivity.
  - reflexivity.
  - reflexivity.
  - intros w0. by eexists.
  - intros spotifyId w0. by eexists _, _, _.
  - intros url w0. by eexists.
  - exists w'. split; [exact Hrun |]. split; [exact Hfailed |].
    apply Hcovers. vm_compute. apply list_elem_of_here.
Defined.

(** ** A cover-seeding run over covered albums *)

Lemma covered_find (d : Db) (albumId : nat) (type : string) :
  is_Some (id_of Medias d (ByAlbumType albumId type)) →
  ∃ existing, find (prisma.media_key albumId type) (media d) = Some existing.
Proof.
  unfold id_of. cbn [rows].
  rewrite (find_where (λ r, (ByAlbumType (m_album_id r) (m_type r), m_id r))
             (prisma.media_key albumId type)); [| unfold prisma.media_key; by_key].
  destruct (find _ (media d)) as [existing |]; [by eexists | by intros [? [=]]].
Qed.

Lemma process_albums_skip (E : Env) (n : nat) (albums : list Album) :
  (∀ op w, env_db E op w = None) →
  ∀ i w,
    (∀ album, album ∈ albums →
       is_Some (id_of Medias (w_db w) (ByAlbumType (b_id album) "album_cover"))) →
    ∃ w', AlbumCoverSeeder.process_albums E n i albums w = (Ok tt, w') ∧
          w_db w' = w_db w ∧ w_blobs w' = w_blobs w ∧ requests w' = requests w ∧
          st_skipped (w_stats w') = st_skipped (w_stats w) + length albums.
Proof.
  intros Hstore. induction albums as [| album rest IH]; intros i w Hcovered; simpl.
  - exists w. repeat split; lia.
  - destruct (covered_find _ _ _ (Hcovered album (list_elem_of_here _ _)))
      as [existing Hfind].
    destruct (processAlbum_skips_covered E album existing w (Hstore _ _) Hfind)
      as (w1 & Hrun & Htrace1 & Hdb1 & Hblobs1 & Hskipped1).
    rewrite (bind_ok _ _ _ _ _ Hrun).
    set (w2 := set_stats (AlbumCoverSeeder.stats_processed (w_stats w1)) w1).
    assert (Hcount : AlbumCoverSeeder.update_stats AlbumCoverSeeder.stats_processed w1
                     = (Ok tt, w2)) by reflexivity.
    rewrite (bind_ok _ _ _ _ _ Hcount).
    set (wait := if bool_decide (i < n - 1) then delay RATE_LIMIT_DELAY else ret ()).
    assert (Hwait : ∃ w3, wait w2 = (Ok tt, w3) ∧ w_db w3 = w_db w1 ∧
                          w_blobs w3 = w_blobs w1 ∧ w_stats w3 = w_stats w2 ∧
                          requests w3 = requests w1).
    { subst wait. case_bool_decide; eexists; (split; [reflexivity |]); repeat split.
      unfold requests. cbn. by rewrite List.filter_app, app_nil_r. }
    destruct Hwait as (w3 & Hwait & Hdb3 & Hblobs3 & Hstats3 & Hrequests3).
    rewrite (bind_ok _ _ _ _ _ Hwait).
    destruct (IH (S i) w3) as (w' & Hrest & Hdb' & Hblobs' & Hrequests' & Hskipped').
    { intros album' Hin. rewrite Hdb3, Hdb1. by apply Hcovered, list_elem_of_further. }
    exists w'. split; [exact Hrest |].
    split; [congruence |]. split; [congruence |].
    split; [unfold requests in *; congruence |].
    rewrite Hskipped', Hstats3. cbn. lia.
Qed.

(** X20. A cover-seeding run over a store in which every album has its
    cover: with the blob client built and the blob store and the store
    answering, [processAllAlbums] returns having asked nothing of Spotify
    and of the image host -- its only requests are the check of the
    container and, if it was missing, its creation -- it uploads nothing,
    leaves the store as it was, and counts every album as skipped. *)
Theorem covered_store_is_only_skipped (E : Env) (w : World) :
  env_azure E = true →
  (∀ w0, env_blob E w0 = None) →
  (∀ op w0, env_db E op w0 = None) →
  (∀ album, album ∈ albums (w_db w) →
     is_Some (id_of Medias (w_db w) (ByAlbumType (b_id album) "album_cover"))) →
  ∃ w', AlbumCoverSeeder.processAllAlbums E w = (Ok tt, w') ∧
        w_db w' = w_db w ∧ w_blobs w' = w_blobs w ∧
        st_skipped (w_stats w') = st_skipped (w_stats w) + length (albums (w_db w)) ∧
        requests w' =
          requests w ++ EvContainerExists
                          :: (if w_container w then [] else [EvContainerCreate]).
Proof.
  intros Hclient Hblobs Hstore Hcovered.
  set (found := prisma.order_by b_name (albums (w_db w))).
  assert (Hsetup : ∃ w1,
            (AlbumCoverSeeder.ensureContainerExists E ;;;
             AlbumCoverSeeder.getAlbumsFromDatabase E) w = (Ok found, w1) ∧
            w_db w1 = w_db w ∧ w_blobs w1 = w_blobs w ∧ w_stats w1 = w_stats w ∧
            requests w1 =
              requests w ++ EvContainerExists
                              :: (if w_container w then [] else [EvContainerCreate])).
  { unfold AlbumCoverSeeder.ensureContainerExists, AlbumCoverSeeder.getAlbumsFromDatabase,
      AlbumCoverSeeder.require_client, containerClient.exists_, containerClient.create,
      containerClient.call, prisma.album_findMany, prisma.guard, requests.
    rewrite Hclient. run_monad. cbn. rewrite Hblobs. cbn.
    destruct (w_container w); cbn; rewrite ?Hblobs; cbn; rewrite Hstore; cbn;
      eexists; (split; [reflexivity |]); cbn; rewrite ?List.filter_app; cbn;
      rewrite <- ?app_assoc; done. }
  destruct Hsetup as (w1 & Hsetup & Hdb1 & Hblobs1 & Hstats1 & Hrequests1).
  set (w2 := set_stats (AlbumCoverSeeder.stats_total (length found) (w_stats w1)) w1).
  destruct (process_albums_skip E (length found) found Hstore 0 w2)
    as (w3 & Hloop & Hdb3 & Hblobs3 & Hrequests3 & Hskipped3).
  { intros album Hin. subst w2. cbn. rewrite Hdb1.
    apply Hcovered. by apply (order_by_elem b_name). }
  assert (Hlength : length found = length (albums (w_db w))) by apply order_by_length.
  unfold AlbumCoverSeeder.processAllAlbums.
  destruct found as [| first rest] eqn:Hlist.
  - injection Hloop as <-. eexists. split.
    + apply try_catch_ok. rewrite then_bind, (bind_ok _ _ _ _ _ Hsetup). reflexivity.
    + cbn. rewrite <- Hlength, Hstats1. cbn. repeat split; try done; lia.
  - eexists. split.
    + apply try_catch_ok. rewrite then_bind, (bind_ok _ _ _ _ _ Hsetup).
      unfold AlbumCoverSeeder.update_stats at 1. run_monad. fold w2.
      rewrite Hloop. reflexivity.
    + change (requests (add_log _ w3)) with (requests w3).
      cbn [w_stats w_db w_blobs add_log].
      rewrite Hdb3, Hblobs3, Hrequests3, Hskipped3, <- Hlength. subst w2. cbn.
      by rewrite Hstats1.
Qed.

Lemma covered_store_is_only_skipped_witness :
  ∃ w', AlbumCoverSeeder.processAllAlbums Sample.env Sample.covered = (Ok tt, w') ∧
        w_db w' = w_db Sample.covered ∧
        st_skipped (w_stats w') = st_skipped (w_stats Sample.covered) + 2.
Proof.
  destruct (covered_store_is_only_skipped Sample.env Sample.covered)
    as (w' & Hrun & Hdb & _ & Hskipped & _).
  - reflexivity.
  - reflexivity.
  - reflexivity.
  - intros album Hin. vm_compute in Hin.
    apply elem_of_cons in Hin as [-> | Hin];
      [apply (bool_decide_eq_true_1 (is_Some _)); vm_compute; reflexivity |].
    apply list_elem_of_singleton in Hin as ->.
    apply (bool_decide_eq_true_1 (is_Some _)). vm_compute. reflexivity.
  - exists w'. split; [exact Hrun |]. split; [exact Hdb | exact Hskipped].
Defined.

(** ** A token exchange that fails *)

(** X21. getAccessToken, in both seeders, when it raises: the error is
    the one the token endpoint answered with, exactly one token request
    went out, and the cached token and its expiry are as they were -- a
    failed exchange does not clear or replace the cache -- and so is the
    store. *)
Theorem failed_exchange_keeps_cache (E : Env) (w w' : World) (e : JsError) :
  SpotifySeeder.getAccessToken E w = (Throw e, w') ∨
  AlbumCoverSeeder.getAccessToken E w = (Throw e, w') →
  env_token E (advance (env_latency E) (add_event EvTokenRequest w)) = inl e ∧
  w_accessToken w' = w_accessToken w ∧ w_tokenExpiry w' = w_tokenExpiry w ∧
  w_trace w' = w_trace w ++ [EvTokenRequest] ∧ w_db w' = w_db w.
Proof.
  intros [Hrun | Hrun]; revert Hrun;
    unfold SpotifySeeder.getAccessToken, SpotifySeeder.requestToken,
      AlbumCoverSeeder.getAccessToken, AlbumCoverSeeder.requestToken, http;
    run_monad;
    destruct (w_accessToken w) as [cached |] eqn:Hcached;
    try destruct (w_tokenExpiry w) as [expiry |] eqn:Hexpiry;
    try destruct (truthy_str (Some cached) && truthy_num (Some expiry)
                  && bool_decide (w_clock w < expiry)%Z);
    try discriminate;
    destruct (env_token E _) as [e' | response]; try discriminate;
    intros [= <- <-]; cbn; rewrite ?Hcached, ?Hexpiry; done.
Qed.

Lemma failed_exchange_keeps_cache_witness :
  ∃ w', SpotifySeeder.getAccessToken Sample.auth_refused Sample.world0
          = (Throw {| err_message := "Request failed with status code 400";
                      err_status := Some 400%Z |}, w') ∧
        w_accessToken w' = None ∧ w_trace w' = [EvTokenRequest].
Proof.
  eexists. split; [reflexivity |].
  destruct (failed_exchange_keeps_cache Sample.auth_refused Sample.world0 _ _
              (or_introl eq_refl)) as (_ & Htoken & _ & Htrace & _).
  split; [exact Htoken | exact Htrace].
Defined.

(** ** A playlist without items *)


